(** * MagnaChain wallet and peer address manager: a shallow embedding

    The wallet core ([src/wallet/wallet.cpp]) is embedded function by
    function.  Amounts ([MCAmount], a signed 64-bit integer) are [Z];
    hashes ([uint256]) are [Z]; [std::map] and [std::set] whose iteration
    order matters are ordered lists, the others are [gmap]/[gset].
    Collaborators whose code is not part of the tree (the crypter, the fee
    estimator, the mempool, the dust policy, the BIP32 arithmetic) are
    fields of explicit environment records. *)

From Stdlib Require Import ZArith Lia String Ascii Bool Permutation.
From Stdlib Require DecimalString.
From stdpp Require Import base option list gmap strings.

Local Open Scope Z_scope.

(** ** Shared vocabulary *)

Definition bytes := list Z.
Definition uint256 := Z.
Definition MCAmount := Z.
Definition SecureString := string.

(** Outcome of a call that may hit [assert(false)] or throw. *)
Inductive outcome (A : Type) : Type :=
| Returned (a : A)
| Aborted (why : string).
Arguments Returned {A} a.
Arguments Aborted {A} why.

Definition bytes_eqb (a b : bytes) : bool := bool_decide (a = b).

(** ** Wallet encryption and passphrase change *)

Module Encryption.

(** [MCMasterKey] (wallet/crypter.h): the wrapped wallet key. *)
Record MCMasterKey := {
  vchCryptedKey : bytes;
  vchSalt : bytes;
  nDeriveIterations : Z;      (* unsigned int *)
  nDerivationMethod : Z
}.

(** [MCCrypter]: its implementation is not part of the tree, so the three
    operations the wallet calls are taken as they are used: each may report
    failure. *)
Record MCCrypter := {
  SetKeyFromPassphrase : SecureString -> bytes -> Z -> Z -> option bytes;
  Encrypt : bytes -> bytes -> option bytes;
  Decrypt : bytes -> bytes -> option bytes
}.

(** The three floating-point expressions of the calibration, each converted
    back to [unsigned int] by the assignment.  They are kept abstract: the
    value of a double division (and of converting an infinity to an
    integer) is not modelled.
    - [fp_first dt]      is [2500000 / ((double) dt)]
    - [fp_scale n dt]    is [n * (100 / ((double) dt))]
    - [fp_average n dt]  is [(n + n * 100 / ((double) dt)) / 2] *)
Record Calibration := {
  fp_first : Z -> Z;
  fp_scale : Z -> Z -> Z;
  fp_average : Z -> Z -> Z
}.

(** [MCCryptoKeyStore] (keystore.h and crypter.h are not part of the tree):
    the keystore as the wallet relies on it.  A keystore uses crypto once its
    private keys are encrypted under a wallet key ([ks_secret]); a keystore
    that does not is never locked ([TopUpKeyPool], [GetKeyFromPool] and the
    first run of [CreateWalletFromFile] generate keys in a wallet that was
    never encrypted after asking [IsLocked()]); one that does is locked
    exactly when it holds no decrypted wallet key.  [Unlock] accepts the one
    key under which the private keys are encrypted. *)
Record MCCryptoKeyStore := {
  ks_secret : option bytes;      (* the key the private keys are encrypted under;
                                    None in a keystore that does not use crypto *)
  vMasterKey : option bytes      (* the decrypted wallet key; None when locked *)
}.

Definition KS_IsCrypted (ks : MCCryptoKeyStore) : bool :=
  match ks_secret ks with Some _ => true | None => false end.

Definition KS_IsLocked (ks : MCCryptoKeyStore) : bool :=
  if KS_IsCrypted ks
  then match vMasterKey ks with None => true | Some _ => false end
  else false.

Definition KS_Lock (ks : MCCryptoKeyStore) : MCCryptoKeyStore :=
  {| ks_secret := ks_secret ks; vMasterKey := None |}.

Definition KS_Unlock (k : bytes) (ks : MCCryptoKeyStore) : bool * MCCryptoKeyStore :=
  match ks_secret ks with
  | Some s => if bytes_eqb s k
              then (true, {| ks_secret := ks_secret ks; vMasterKey := Some k |})
              else (false, ks)
  | None => (false, ks)
  end.

(** The part of [MCWallet] the encryption code reads and writes.
    [mapMasterKeys] is a [std::map<unsigned int, MCMasterKey>]: the list is
    kept in key order, which is the order the loops visit it in.
    [db_mkey] is what [CWalletDB::WriteMasterKey] has persisted. *)
Record MCWallet := {
  mapMasterKeys : list (Z * MCMasterKey);
  nMasterKeyMaxID : Z;
  keystore : MCCryptoKeyStore;
  fHDEnabled : bool;
  db_mkey : gmap Z MCMasterKey
}.

Definition IsCrypted (w : MCWallet) : bool := KS_IsCrypted (keystore w).

Definition IsLocked (w : MCWallet) : bool := KS_IsLocked (keystore w).

Definition Lock (w : MCWallet) : MCWallet :=
  {| mapMasterKeys := mapMasterKeys w;
     nMasterKeyMaxID := nMasterKeyMaxID w; keystore := KS_Lock (keystore w);
     fHDEnabled := fHDEnabled w; db_mkey := db_mkey w |}.

Definition set_keystore (ks : MCCryptoKeyStore) (w : MCWallet) : MCWallet :=
  {| mapMasterKeys := mapMasterKeys w;
     nMasterKeyMaxID := nMasterKeyMaxID w; keystore := ks;
     fHDEnabled := fHDEnabled w; db_mkey := db_mkey w |}.

Definition set_masterkeys (l : list (Z * MCMasterKey)) (w : MCWallet) : MCWallet :=
  {| mapMasterKeys := l;
     nMasterKeyMaxID := nMasterKeyMaxID w; keystore := keystore w;
     fHDEnabled := fHDEnabled w; db_mkey := db_mkey w |}.

Definition WriteMasterKey (id : Z) (mk : MCMasterKey) (w : MCWallet) : MCWallet :=
  {| mapMasterKeys := mapMasterKeys w;
     nMasterKeyMaxID := nMasterKeyMaxID w; keystore := keystore w;
     fHDEnabled := fHDEnabled w; db_mkey := <[id := mk]> (db_mkey w) |}.

Definition with_iterations (n : Z) (mk : MCMasterKey) : MCMasterKey :=
  {| vchCryptedKey := vchCryptedKey mk; vchSalt := vchSalt mk;
     nDeriveIterations := n; nDerivationMethod := nDerivationMethod mk |}.

Definition with_crypted (c : bytes) (mk : MCMasterKey) : MCMasterKey :=
  {| vchCryptedKey := c; vchSalt := vchSalt mk;
     nDeriveIterations := nDeriveIterations mk;
     nDerivationMethod := nDerivationMethod mk |}.

(** The floor applied after both trial derivations. *)
Definition floor_iterations (n : Z) : Z := if n <? 25000 then 25000 else n.

(** [MCWallet::Unlock]: try each master key in turn. *)
Fixpoint Unlock_loop (cr : MCCrypter) (pass : SecureString)
    (keys : list (Z * MCMasterKey)) (ks : MCCryptoKeyStore)
    : bool * MCCryptoKeyStore :=
  match keys with
  | [] => (false, ks)
  | (_, mk) :: rest =>
      match SetKeyFromPassphrase cr pass (vchSalt mk) (nDeriveIterations mk)
                                 (nDerivationMethod mk) with
      | None => (false, ks)
      | Some ck =>
          match Decrypt cr ck (vchCryptedKey mk) with
          | None => Unlock_loop cr pass rest ks      (* try another master key *)
          | Some vmk =>
              let '(ok, ks') := KS_Unlock vmk ks in
              if ok then (true, ks') else Unlock_loop cr pass rest ks'
          end
      end
  end.

Definition Unlock (cr : MCCrypter) (pass : SecureString) (w : MCWallet)
    : bool * MCWallet :=
  let '(ok, ks) := Unlock_loop cr pass (mapMasterKeys w) (keystore w) in
  (ok, set_keystore ks w).

(** What [EncryptWallet] draws from its surroundings: random bytes, the four
    clock readings (as the two measured intervals), and the outcome of the
    steps whose code is elsewhere. *)
Record EncryptEnv := {
  rand_master : bytes;
  rand_salt : bytes;
  default_method : Z;
  dt_first : Z;              (* GetTimeMillis() - nStartTime, first trial *)
  dt_second : Z;             (* the same, second trial *)
  txn_begin_ok : bool;
  encrypt_keys_ok : bool;
  txn_commit_ok : bool;
  set_hd_master_ok : bool
}.

(** [MCWallet::EncryptWallet]. *)
Definition EncryptWallet (cr : MCCrypter) (fp : Calibration) (env : EncryptEnv)
    (pass : SecureString) (w : MCWallet) : outcome (bool * MCWallet) :=
  if IsCrypted w then Returned (false, w) else
  let n1 := fp_first fp (dt_first env) in
  let n2 := fp_average fp n1 (dt_second env) in
  let n := floor_iterations n2 in
  match SetKeyFromPassphrase cr pass (rand_salt env) n (default_method env) with
  | None => Returned (false, w)
  | Some ck =>
      match Encrypt cr ck (rand_master env) with
      | None => Returned (false, w)
      | Some crypted =>
          let kMasterKey :=
            {| vchCryptedKey := crypted; vchSalt := rand_salt env;
               nDeriveIterations := n; nDerivationMethod := default_method env |} in
          let id := nMasterKeyMaxID w + 1 in
          let w1 :=
            {| mapMasterKeys := mapMasterKeys w ++ [(id, kMasterKey)];
               nMasterKeyMaxID := id; keystore := keystore w;
               fHDEnabled := fHDEnabled w; db_mkey := db_mkey w |} in
          if negb (txn_begin_ok env) then Returned (false, w1) else
          let w2 := WriteMasterKey id kMasterKey w1 in
          if negb (encrypt_keys_ok env) then Aborted "EncryptKeys failed" else
          if negb (txn_commit_ok env) then Aborted "TxnCommit failed" else
          let w3 :=
            {| mapMasterKeys := mapMasterKeys w2;
               nMasterKeyMaxID := nMasterKeyMaxID w2;
               keystore := {| ks_secret := Some (rand_master env);
                              vMasterKey := None |};
               fHDEnabled := fHDEnabled w2; db_mkey := db_mkey w2 |} in
          let w4 := (Unlock cr pass (Lock w3)).2 in
          if fHDEnabled w4 && negb (set_hd_master_ok env)
          then Returned (false, w4)
          else Returned (true, Lock w4)
      end
  end.

(** What [ChangeWalletPassphrase] draws from its surroundings. *)
Record ChangeEnv := {
  ch_dt_first : Z;
  ch_dt_second : Z
}.

(** The [return] statements of [ChangeWalletPassphrase], by source line. *)
Inductive change_exit :=
| ExitDeriveOld      (* line 404: derivation from the old passphrase failed *)
| ExitDecryptOld     (* line 406: the old key does not decrypt the record *)
| ExitDeriveNew      (* line 423: derivation from the new passphrase failed *)
| ExitEncryptNew     (* line 425: re-wrapping the wallet key failed *)
| ExitChanged        (* line 429: return true *)
| ExitNoKey.         (* line 434: no master key unlocked the keystore *)

Definition exit_value (e : change_exit) : bool :=
  match e with ExitChanged => true | _ => false end.

(** The loop of [MCWallet::ChangeWalletPassphrase] over [mapMasterKeys].
    [done] holds the entries already visited (unchanged); the entry being
    re-wrapped is updated in place, as the C++ does through its reference. *)
Fixpoint Change_loop (cr : MCCrypter) (fp : Calibration) (env : ChangeEnv)
    (oldp newp : SecureString) (fWasLocked : bool)
    (done todo : list (Z * MCMasterKey)) (w : MCWallet)
    : change_exit * MCWallet :=
  match todo with
  | [] => (ExitNoKey, w)
  | (id, mk) :: rest =>
      match SetKeyFromPassphrase cr oldp (vchSalt mk) (nDeriveIterations mk)
                                 (nDerivationMethod mk) with
      | None => (ExitDeriveOld, w)
      | Some ck =>
          match Decrypt cr ck (vchCryptedKey mk) with
          | None => (ExitDecryptOld, w)
          | Some vmk =>
              let '(ok, ks) := KS_Unlock vmk (keystore w) in
              let w := set_keystore ks w in
              if ok then
                let n1 := fp_scale fp (nDeriveIterations mk) (ch_dt_first env) in
                let n2 := fp_average fp n1 (ch_dt_second env) in
                let n := floor_iterations n2 in
                let mk1 := with_iterations n mk in
                let w1 := set_masterkeys (done ++ (id, mk1) :: rest) w in
                match SetKeyFromPassphrase cr newp (vchSalt mk1) n
                                           (nDerivationMethod mk1) with
                | None => (ExitDeriveNew, w1)
                | Some ck' =>
                    match Encrypt cr ck' vmk with
                    | None => (ExitEncryptNew, w1)
                    | Some crypted =>
                        let mk2 := with_crypted crypted mk1 in
                        let w2 := set_masterkeys (done ++ (id, mk2) :: rest) w in
                        let w3 := WriteMasterKey id mk2 w2 in
                        (ExitChanged, if fWasLocked then Lock w3 else w3)
                    end
                end
              else Change_loop cr fp env oldp newp fWasLocked
                               (done ++ [(id, mk)]) rest w
          end
      end
  end.

(** [MCWallet::ChangeWalletPassphrase], with the [return] it left through. *)
Definition ChangeWalletPassphrase_at (cr : MCCrypter) (fp : Calibration)
    (env : ChangeEnv) (oldp newp : SecureString) (w : MCWallet)
    : change_exit * MCWallet :=
  let fWasLocked := IsLocked w in
  let w0 := Lock w in
  Change_loop cr fp env oldp newp fWasLocked [] (mapMasterKeys w0) w0.

Definition ChangeWalletPassphrase (cr : MCCrypter) (fp : Calibration)
    (env : ChangeEnv) (oldp newp : SecureString) (w : MCWallet)
    : bool * MCWallet :=
  let '(e, w') := ChangeWalletPassphrase_at cr fp env oldp newp w in
  (exit_value e, w').

(** A crypter that does not fail for the new passphrase where it worked for
    the old one: whether a key is derived does not depend on the
    passphrase, nor on the round count once that is 25000 at least, and
    encryption succeeds. *)
Definition crypter_total (cr : MCCrypter) : Prop :=
  (forall (p p' : SecureString) (salt : bytes) (n n' m : Z),
      is_Some (SetKeyFromPassphrase cr p salt n m) -> 25000 <= n' ->
      is_Some (SetKeyFromPassphrase cr p' salt n' m))
  /\ (forall ck vmk : bytes, is_Some (Encrypt cr ck vmk)).

(** A crypter and a calibration to run the model on concrete inputs: the
    derived key is the passphrase length, the round count and the salt; a
    ciphertext is the key followed by the plaintext. *)
Definition toy_crypter : MCCrypter :=
  {| SetKeyFromPassphrase := fun pass salt rounds method =>
       if (1 <=? rounds) && (method =? 0)
       then Some (Z.of_nat (String.length pass) :: rounds :: salt) else None;
     Encrypt := fun ck m => Some (ck ++ m);
     Decrypt := fun ck c =>
       if bytes_eqb (take (length ck) c) ck then Some (drop (length ck) c) else None |}.

(** The same crypter with an [Encrypt] that reports failure. *)
Definition failing_crypter : MCCrypter :=
  {| SetKeyFromPassphrase := SetKeyFromPassphrase toy_crypter;
     Encrypt := fun _ _ => None;
     Decrypt := Decrypt toy_crypter |}.

(** Integer stand-ins for the three calibration expressions (truncating
    division, no work done when the interval is not positive). *)
Definition toy_calibration : Calibration :=
  {| fp_first := fun dt => if 0 <? dt then 2500000 / dt else 0;
     fp_scale := fun n dt => if 0 <? dt then n * 100 / dt else 0;
     fp_average := fun n dt => if 0 <? dt then (n + n * 100 / dt) / 2 else 0 |}.

Definition example_env : EncryptEnv :=
  {| rand_master := [7; 7; 7]; rand_salt := [1; 2; 3; 4; 5; 6; 7; 8];
     default_method := 0; dt_first := 1000; dt_second := 1000;
     txn_begin_ok := true; encrypt_keys_ok := true; txn_commit_ok := true;
     set_hd_master_ok := true |}.

Definition fresh_wallet : MCWallet :=
  {| mapMasterKeys := []; nMasterKeyMaxID := 0;
     keystore := {| ks_secret := None; vMasterKey := None |};
     fHDEnabled := true; db_mkey := ∅ |}.

(** The wallet [fresh_wallet] becomes when encrypted under "old", unlocked. *)
Definition encrypted_wallet : MCWallet :=
  match EncryptWallet toy_crypter toy_calibration example_env "old" fresh_wallet with
  | Returned (_, w) => (Unlock toy_crypter "old" w).2
  | Aborted _ => fresh_wallet
  end.

Definition example_change_env : ChangeEnv :=
  {| ch_dt_first := 2000; ch_dt_second := 2000 |}.

End Encryption.

(** ** Fee determination *)

Module Fees.

(** [MCFeeRate] holds an amount per 1000 bytes. *)
Definition MCFeeRate := Z.

Inductive FeeReason :=
| NONE | HALF_ESTIMATE | FULL_ESTIMATE | DOUBLE_ESTIMATE | CONSERVATIVE_EST
| MEMPOOL_MIN | PAYTXFEE | FALLBACK | REQUIRED | MAXTXFEE.

Inductive FeeEstimateMode := UNSET | ECONOMICAL | CONSERVATIVE.

Record MCCoinControl := {
  m_feerate : option MCFeeRate;
  fOverrideFeeRate : bool;
  m_confirm_target : option Z;
  signalRbf : bool;
  m_fee_mode : FeeEstimateMode
}.

(** The globals and collaborators [GetMinimumFee] reads.  [GetFee] is
    [MCFeeRate::GetFee] (policy/feerate, not part of the tree); the
    estimator answers with a rate and the reason it records; [mempoolMinFee]
    is [pool.GetMinFee(maxmempool * 1000000)]. *)
Record FeeEnv := {
  GetFee : MCFeeRate -> Z -> MCAmount;
  payTxFee : MCFeeRate;
  nTxConfirmTarget : Z;
  fallbackFee : MCFeeRate;
  minTxFee : MCFeeRate;
  minRelayTxFee : MCFeeRate;
  maxTxFee : MCAmount;
  EstimateSmartFee : Z -> bool -> MCFeeRate * FeeReason;
  mempoolMinFee : MCFeeRate
}.

(** [feeCalc] may be a null pointer: a reason is recorded only if it is not. *)
Definition set_reason (feeCalc : option FeeReason) (r : FeeReason)
    : option FeeReason :=
  match feeCalc with Some _ => Some r | None => None end.

(** [MCWallet::GetRequiredFee]. *)
Definition GetRequiredFee (env : FeeEnv) (nTxBytes : Z) : MCAmount :=
  Z.max (GetFee env (minTxFee env) nTxBytes) (GetFee env (minRelayTxFee env) nTxBytes).

(** The tail of [GetMinimumFee]: floor at the required fee, cap at the
    maximum. *)
Definition clamp_fee (env : FeeEnv) (nTxBytes : Z)
    (fee_needed : MCAmount) (feeCalc : option FeeReason)
    : MCAmount * option FeeReason :=
  let required_fee := GetRequiredFee env nTxBytes in
  let '(fee1, fc1) :=
    if fee_needed <? required_fee
    then (required_fee, set_reason feeCalc REQUIRED)
    else (fee_needed, feeCalc) in
  if fee1 >? maxTxFee env
  then (maxTxFee env, set_reason fc1 MAXTXFEE)
  else (fee1, fc1).

(** [MCWallet::GetMinimumFee]. *)
Definition GetMinimumFee (env : FeeEnv) (nTxBytes : Z) (coin_control : MCCoinControl)
    (feeCalc : option FeeReason) : MCAmount * option FeeReason :=
  match m_feerate coin_control with
  | Some rate =>                                                        (* 1. *)
      let fee_needed := GetFee env rate nTxBytes in
      let fc := set_reason feeCalc PAYTXFEE in
      if fOverrideFeeRate coin_control then (fee_needed, fc)
      else clamp_fee env nTxBytes fee_needed fc
  | None =>
      if bool_decide (m_confirm_target coin_control = None)
         && negb (payTxFee env =? 0)
      then                                                              (* 3. *)
        clamp_fee env nTxBytes (GetFee env (payTxFee env) nTxBytes)
                  (set_reason feeCalc PAYTXFEE)
      else                                                              (* 2. or 4. *)
        let target := match m_confirm_target coin_control with
                      | Some t => t | None => nTxConfirmTarget env end in
        let conservative_estimate :=
          match m_fee_mode coin_control with
          | CONSERVATIVE => true
          | ECONOMICAL => false
          | UNSET => negb (signalRbf coin_control)
          end in
        let '(rate, why) := EstimateSmartFee env target conservative_estimate in
        let fee0 := GetFee env rate nTxBytes in
        let fc0 := set_reason feeCalc why in
        let '(fee1, fc1) :=
          if fee0 =? 0
          then (GetFee env (fallbackFee env) nTxBytes, set_reason fc0 FALLBACK)
          else (fee0, fc0) in
        let min_mempool_fee := GetFee env (mempoolMinFee env) nTxBytes in
        let '(fee2, fc2) :=
          if fee1 <? min_mempool_fee
          then (min_mempool_fee, set_reason fc1 MEMPOOL_MIN)
          else (fee1, fc1) in
        clamp_fee env nTxBytes fee2 fc2
  end.

(** Modelled from the spec: [MCFeeRate::GetFee] (policy/feerate is not part
    of the tree).  Rates are amounts per kB (spec, section 6), so the fee of
    a size is the rate times the size over 1000. *)
Definition GetFee_perK (rate : MCFeeRate) (nBytes : Z) : MCAmount :=
  (rate * nBytes) `quot` 1000.

(** The defaults of section 6 of the spec, with a maximum fee of 0.1 coin. *)
Definition default_env : FeeEnv :=
  {| GetFee := GetFee_perK; payTxFee := 0; nTxConfirmTarget := 6;
     fallbackFee := 20000; minTxFee := 1000; minRelayTxFee := 1000;
     maxTxFee := 10000000;
     EstimateSmartFee := fun _ _ => (0, NONE); mempoolMinFee := 0 |}.

Definition with_rate (rate : MCFeeRate) (override : bool) : MCCoinControl :=
  {| m_feerate := Some rate; fOverrideFeeRate := override;
     m_confirm_target := Some 2; signalRbf := false; m_fee_mode := UNSET |}.

End Fees.

(** ** Randomness *)

Module Random.

(** [GetRandInt(nMax)] and [FastRandomContext::randbool] draw from streams
    of raw numbers and bits, handed on from call to call. *)
Definition GetRandInt (nMax : Z) (ds : list Z) : Z * list Z :=
  match ds with
  | [] => (0, [])
  | d :: ds' => (d `mod` nMax, ds')
  end.

Definition randbool (fs : list bool) : bool * list bool :=
  match fs with
  | [] => (false, [])
  | f :: fs' => (f, fs')
  end.

Definition swap_at {A} (a b : nat) (l : list A) : list A :=
  match l !! a, l !! b with
  | Some x, Some y => <[b := x]> (<[a := y]> l)
  | _, _ => l
  end.

(** [std::random_shuffle(first, last, GetRandInt)]: element [k], for [k]
    from 1, is swapped with the element at [GetRandInt(k + 1)]. *)
Fixpoint shuffle_from {A} (steps k : nat) (ds : list Z) (v : list A)
    : list A * list Z :=
  match steps with
  | O => (v, ds)
  | S steps' =>
      let '(r, ds') := GetRandInt (Z.of_nat (k + 1)) ds in
      shuffle_from steps' (S k) ds' (swap_at k (Z.to_nat r) v)
  end.

Definition random_shuffle {A} (ds : list Z) (v : list A) : list A * list Z :=
  shuffle_from (length v - 1) 1 ds v.

End Random.

(** ** Coin selection *)

Module CoinSelection.
Import Random.

Record MCOutPoint := { hash : uint256; n : Z }.

Record MCTxOut := { nValue : MCAmount; scriptPubKey : bytes }.

(** The part of [MCWalletTx] coin selection reads: its hash, its outputs and
    the answer of [IsFromMe(ISMINE_ALL)]. *)
Record MCWalletTx := {
  wtx_hash : uint256;
  vout : list MCTxOut;
  fromMe : bool
}.

Record MCOutput := {
  tx : MCWalletTx;
  i : Z;                 (* int *)
  nDepth : Z;
  fSpendable : bool;
  fSolvable : bool;
  fSafe : bool
}.

Record MCInputCoin := { outpoint : MCOutPoint; txout : MCTxOut }.

(** The constructor of [MCInputCoin]: it throws when the index is out of
    range ([i] is converted to [unsigned int], so a negative index is out of
    range as well). *)
Definition MCInputCoin_new (walletTx : MCWalletTx) (idx : Z) : option MCInputCoin :=
  if idx <? 0 then None else
  match vout walletTx !! Z.to_nat idx with
  | Some out => Some {| outpoint := {| hash := wtx_hash walletTx; n := idx |};
                        txout := out |}
  | None => None
  end.

Definition value (c : MCInputCoin) : MCAmount := nValue (txout c).

(** [MCOutPoint::operator<], the order of [std::set<MCInputCoin>]. *)
Definition outpoint_ltb (a b : MCOutPoint) : bool :=
  (hash a <? hash b) || ((hash a =? hash b) && (n a <? n b)).

Definition outpoint_eqb (a b : MCOutPoint) : bool :=
  (hash a =? hash b) && (n a =? n b).

(** [std::set<MCInputCoin>::insert]: the set is the list of its elements in
    increasing outpoint order; an element whose outpoint is present already
    is not inserted. *)
Fixpoint set_insert (c : MCInputCoin) (s : list MCInputCoin) : list MCInputCoin :=
  match s with
  | [] => [c]
  | d :: s' =>
      if outpoint_ltb (outpoint c) (outpoint d) then c :: d :: s'
      else if outpoint_eqb (outpoint c) (outpoint d) then d :: s'
      else d :: set_insert c s'
  end.

(** The two sources of randomness: the numbers [GetRandInt] is built from
    and the bits of [FastRandomContext::randbool]. *)
Record Rand := { draws : list Z; flips : list bool }.

(** What [SelectCoinsMinConf] reads besides its arguments: the constant
    [CENT] behind [MIN_CHANGE] (misc/amount.h is not part of the tree) and
    the mempool's answer on the ancestor limit. *)
Record SelectEnv := {
  CENT : MCAmount;
  TransactionWithinChainLimit : uint256 -> Z -> bool
}.

Definition MIN_CHANGE (env : SelectEnv) : MCAmount := CENT env.

(** State of one repetition of [ApproximateBestSubset]. *)
Record subset_state := {
  nTotal : MCAmount;
  vfIncluded : list bool;
  fReachedTarget : bool;
  nBest : MCAmount;
  vfBest : list bool;
  bits : list bool
}.

(** The body of the innermost loop, at index [k]. *)
Definition subset_visit (nPass : nat) (nTargetValue : MCAmount)
    (vValue : list MCInputCoin) (st : subset_state) (k : nat) : subset_state :=
  let '(take_it, bits') :=
    if Nat.eqb nPass 0 then randbool (bits st)
    else (negb (default false (vfIncluded st !! k)), bits st) in
  if take_it then
    let v := default 0 (value <$> vValue !! k) in
    let total1 := nTotal st + v in
    let incl1 := <[k := true]> (vfIncluded st) in
    if total1 >=? nTargetValue then
      let better := total1 <? nBest st in
      {| nTotal := total1 - v; vfIncluded := <[k := false]> incl1;
         fReachedTarget := true;
         nBest := if better then total1 else nBest st;
         vfBest := if better then incl1 else vfBest st;
         bits := bits' |}
    else
      {| nTotal := total1; vfIncluded := incl1;
         fReachedTarget := fReachedTarget st;
         nBest := nBest st; vfBest := vfBest st; bits := bits' |}
  else
    {| nTotal := nTotal st; vfIncluded := vfIncluded st;
       fReachedTarget := fReachedTarget st;
       nBest := nBest st; vfBest := vfBest st; bits := bits' |}.

Definition subset_pass (nPass : nat) (nTargetValue : MCAmount)
    (vValue : list MCInputCoin) (st : subset_state) : subset_state :=
  foldl (subset_visit nPass nTargetValue vValue) st (seq 0 (length vValue)).

(** One repetition: both passes, the second only if the first did not
    reach the target. *)
Definition subset_rep (nTargetValue : MCAmount) (vValue : list MCInputCoin)
    (best : MCAmount * list bool) (fs : list bool)
    : MCAmount * list bool * list bool :=
  let st0 := {| nTotal := 0; vfIncluded := replicate (length vValue) false;
                fReachedTarget := false;
                nBest := best.1; vfBest := best.2; bits := fs |} in
  let st1 := subset_pass 0 nTargetValue vValue st0 in
  let st2 := if fReachedTarget st1 then st1
             else subset_pass 1 nTargetValue vValue st1 in
  (nBest st2, vfBest st2, bits st2).

Fixpoint subset_reps (iterations : nat) (nTargetValue : MCAmount)
    (vValue : list MCInputCoin) (best : MCAmount * list bool) (fs : list bool)
    : MCAmount * list bool * list bool :=
  match iterations with
  | O => (best, fs)
  | S iterations' =>
      if best.1 =? nTargetValue then (best, fs)
      else
        let '(b, vf, fs') := subset_rep nTargetValue vValue best fs in
        subset_reps iterations' nTargetValue vValue (b, vf) fs'
  end.

(** [ApproximateBestSubset], with its default of 1000 iterations. *)
Definition ApproximateBestSubset (vValue : list MCInputCoin)
    (nTotalLower nTargetValue : MCAmount) (fs : list bool)
    (iterations : nat) : MCAmount * list bool * list bool :=
  subset_reps iterations nTargetValue vValue
              (nTotalLower, replicate (length vValue) true) fs.

(** [std::sort] with [CompareValueOnly]: increasing value.  The order of
    coins of equal value is not fixed by [std::sort]; here the later coin
    goes first. *)
Fixpoint insert_by_value (c : MCInputCoin) (l : list MCInputCoin) : list MCInputCoin :=
  match l with
  | [] => [c]
  | d :: l' => if value d <? value c then d :: insert_by_value c l' else c :: d :: l'
  end.

Definition sort_by_value (l : list MCInputCoin) : list MCInputCoin :=
  foldr insert_by_value [] l.

(** How the first loop of [SelectCoinsMinConf] ends. *)
Inductive scan_result :=
| ExactMatch (coin : MCInputCoin)
| NoExact (coinLowestLarger : option MCInputCoin)
          (vValue : list MCInputCoin) (nTotalLower : MCAmount)
| CtorThrew.

(** The first loop: filter, then sort each coin into its tier. *)
Fixpoint scan (env : SelectEnv) (nTargetValue nConfMine nConfTheirs nMaxAncestors : Z)
    (vCoins : list MCOutput) (coinLowestLarger : option MCInputCoin)
    (vValue : list MCInputCoin) (nTotalLower : MCAmount) : scan_result :=
  match vCoins with
  | [] => NoExact coinLowestLarger vValue nTotalLower
  | output :: rest =>
      let continue :=
        scan env nTargetValue nConfMine nConfTheirs nMaxAncestors rest in
      if negb (fSpendable output) then
        continue coinLowestLarger vValue nTotalLower
      else if nDepth output <? (if fromMe (tx output) then nConfMine else nConfTheirs) then
        continue coinLowestLarger vValue nTotalLower
      else if negb (TransactionWithinChainLimit env (wtx_hash (tx output)) nMaxAncestors) then
        continue coinLowestLarger vValue nTotalLower
      else
        match MCInputCoin_new (tx output) (i output) with
        | None => CtorThrew
        | Some coin =>
            if value coin =? nTargetValue then ExactMatch coin
            else if value coin <? nTargetValue + MIN_CHANGE env then
              continue coinLowestLarger (vValue ++ [coin]) (nTotalLower + value coin)
            else if match coinLowestLarger with
                    | None => true
                    | Some l => value coin <? value l
                    end then
              continue (Some coin) vValue nTotalLower
            else
              continue coinLowestLarger vValue nTotalLower
        end
  end.

(** Insert the coins flagged in [vf], adding up their values. *)
Fixpoint insert_flagged (vValue : list MCInputCoin) (vf : list bool)
    (acc : list MCInputCoin * MCAmount) : list MCInputCoin * MCAmount :=
  match vValue, vf with
  | c :: vs, f :: fs =>
      insert_flagged vs fs
        (if f then (set_insert c acc.1, acc.2 + value c) else acc)
  | _, _ => acc
  end.

Definition insert_all (vValue : list MCInputCoin) : list MCInputCoin * MCAmount :=
  foldl (fun acc c => (set_insert c acc.1, acc.2 + value c)) ([], 0) vValue.

(** [MCWallet::SelectCoinsMinConf]: the value returned, [setCoinsRet] and
    [nValueRet]; [Aborted] when the constructor of [MCInputCoin] throws. *)
Definition SelectCoinsMinConf (env : SelectEnv) (rnd : Rand)
    (nTargetValue nConfMine nConfTheirs nMaxAncestors : Z)
    (vCoins : list MCOutput)
    : outcome (bool * list MCInputCoin * MCAmount) :=
  let shuffled := (random_shuffle (draws rnd) vCoins).1 in
  match scan env nTargetValue nConfMine nConfTheirs nMaxAncestors shuffled
             None [] 0 with
  | CtorThrew => Aborted "The output index is out of range"
  | ExactMatch coin => Returned (true, [coin], value coin)
  | NoExact coinLowestLarger vValue nTotalLower =>
      if nTotalLower =? nTargetValue then
        let '(s, v) := insert_all vValue in Returned (true, s, v)
      else if nTotalLower <? nTargetValue then
        match coinLowestLarger with
        | None => Returned (false, [], 0)
        | Some l => Returned (true, [l], value l)
        end
      else
        let sorted := reverse (sort_by_value vValue) in
        let '(best1, vf1, fs1) :=
          ApproximateBestSubset sorted nTotalLower nTargetValue (flips rnd) 1000 in
        let '(best, vf, _) :=
          if negb (best1 =? nTargetValue)
             && (nTotalLower >=? nTargetValue + MIN_CHANGE env)
          then ApproximateBestSubset sorted nTotalLower
                 (nTargetValue + MIN_CHANGE env) fs1 1000
          else (best1, vf1, fs1) in
        match coinLowestLarger with
        | Some l =>
            if (negb (best =? nTargetValue) && (best <? nTargetValue + MIN_CHANGE env))
               || (value l <=? best)
            then Returned (true, [l], value l)
            else let '(s, v) := insert_flagged sorted vf ([], 0) in
                 Returned (true, s, v)
        | None =>
            let '(s, v) := insert_flagged sorted vf ([], 0) in
            Returned (true, s, v)
        end
  end.

(** The candidates: the coins of the outputs that pass the three filters. *)
Definition passes (env : SelectEnv) (nConfMine nConfTheirs nMaxAncestors : Z)
    (o : MCOutput) : bool :=
  fSpendable o
  && negb (nDepth o <? (if fromMe (tx o) then nConfMine else nConfTheirs))
  && TransactionWithinChainLimit env (wtx_hash (tx o)) nMaxAncestors.

Definition candidates (env : SelectEnv) (nConfMine nConfTheirs nMaxAncestors : Z)
    (vCoins : list MCOutput) : list MCInputCoin :=
  omap (fun o => MCInputCoin_new (tx o) (i o))
       (filter (fun o => passes env nConfMine nConfTheirs nMaxAncestors o = true) vCoins).

(** An output the wallet can hand to coin selection: its index names an
    output of its transaction, of a value that is not negative. *)
Definition well_formed (o : MCOutput) : Prop :=
  exists c, MCInputCoin_new (tx o) (i o) = Some c /\ 0 <= value c.

Definition total_value (l : list MCInputCoin) : MCAmount :=
  foldr (fun c acc => value c + acc) 0 l.

(** [l] is what [coinLowestLarger] must hold once the coins [cs] have been
    seen: nothing if no coin reaches [target + MIN_CHANGE], else a coin of
    least value among those that do. *)
Definition lowest_larger (env : SelectEnv) (nTargetValue : MCAmount)
    (cs : list MCInputCoin) (l : option MCInputCoin) : Prop :=
  match l with
  | None => forall c, c ∈ cs -> value c < nTargetValue + MIN_CHANGE env
  | Some l =>
      l ∈ cs /\ ~ value l < nTargetValue + MIN_CHANGE env
      /\ forall c, c ∈ cs -> ~ value c < nTargetValue + MIN_CHANGE env ->
                   value l <= value c
  end.

(** Outputs of one transaction each, for running the model. *)
Definition coin_of (h : uint256) (v : MCAmount) : MCOutput :=
  {| tx := {| wtx_hash := h; vout := [{| nValue := v; scriptPubKey := [] |}];
              fromMe := true |};
     i := 0; nDepth := 6; fSpendable := true; fSolvable := true; fSafe := true |}.

Definition example_select_env : SelectEnv :=
  {| CENT := 1000000; TransactionWithinChainLimit := fun _ _ => true |}.

Definition example_rand : Rand :=
  {| draws := [5; 3; 8; 1; 9; 2]; flips := [true; false; true; true; false] |}.

End CoinSelection.

(** ** Committing a transaction *)

Module Commit.

Inductive ChangeType := CT_NEW | CT_UPDATED | CT_DELETED.

(** [ABANDON_HASH] is the hash 00..01; the null hash is 0. *)
Definition ABANDON_HASH : uint256 := 1.

(** The fields of [MCWalletTx] that [AddToWallet] reads or writes.
    [fDirty] stands for the memoized amounts being invalid ([MarkDirty]). *)
Record MCWalletTx := {
  wtx_hash : uint256;
  vin : list (uint256 * Z);        (* the prevouts of the inputs *)
  fHasWitness : bool;
  hashBlock : uint256;
  nIndex : Z;
  fFromMe : bool;
  nTimeReceived : Z;
  nOrderPos : Z;
  nTimeSmart : Z;
  fDirty : bool
}.

Definition hashUnset (t : MCWalletTx) : bool :=
  (hashBlock t =? 0) || (hashBlock t =? ABANDON_HASH).
Definition isAbandoned (t : MCWalletTx) : bool := hashBlock t =? ABANDON_HASH.

(** A default-constructed [MCWalletTx], as [mapWallet[h]] creates for an
    absent key. *)
Definition empty_wtx : MCWalletTx :=
  {| wtx_hash := 0; vin := []; fHasWitness := false; hashBlock := 0;
     nIndex := -1; fFromMe := false; nTimeReceived := 0; nOrderPos := -1;
     nTimeSmart := 0; fDirty := true |}.

(** [MCReserveKey]: [rk_nIndex] is -1 when no key is held. *)
Record MCReserveKey := {
  rk_nIndex : Z;
  rk_vchPubKey : option bytes;
  rk_fInternal : bool
}.

(** The part of [MCWallet] that [CommitTransaction] touches.  [db_tx] and
    [db_pool] are the transaction and key-pool records on disk. *)
Record MCWallet := {
  mapWallet : gmap uint256 MCWalletTx;
  mapTxSpends : list ((uint256 * Z) * uint256);
  nOrderPosNext : Z;
  setInternalKeyPool : gset Z;
  setExternalKeyPool : gset Z;
  m_pool_key_to_index : list (bytes * Z);
  mapRequestCount : gmap uint256 Z;
  fBroadcastTransactions : bool;
  db_tx : gmap uint256 MCWalletTx;
  db_pool : gset Z;
  notified : list (uint256 * ChangeType);
  relayed : list uint256
}.

(** What the call draws from its surroundings: the clock, the smart time
    computed for a new transaction, whether the database write succeeds,
    whether the mempool admits the transaction, whether a connection
    manager relays it. *)
Record CommitEnv := {
  adjusted_time : Z;
  smart_time : MCWalletTx -> Z;
  write_tx_ok : bool;
  accept_to_mempool : MCWalletTx -> bool;
  relay_ok : bool
}.

Definition set_mapWallet (m : gmap uint256 MCWalletTx) (w : MCWallet) : MCWallet :=
  {| mapWallet := m; mapTxSpends := mapTxSpends w;
     nOrderPosNext := nOrderPosNext w;
     setInternalKeyPool := setInternalKeyPool w;
     setExternalKeyPool := setExternalKeyPool w;
     m_pool_key_to_index := m_pool_key_to_index w;
     mapRequestCount := mapRequestCount w;
     fBroadcastTransactions := fBroadcastTransactions w;
     db_tx := db_tx w; db_pool := db_pool w;
     notified := notified w; relayed := relayed w |}.

Definition notify (h : uint256) (ct : ChangeType) (w : MCWallet) : MCWallet :=
  {| mapWallet := mapWallet w; mapTxSpends := mapTxSpends w;
     nOrderPosNext := nOrderPosNext w;
     setInternalKeyPool := setInternalKeyPool w;
     setExternalKeyPool := setExternalKeyPool w;
     m_pool_key_to_index := m_pool_key_to_index w;
     mapRequestCount := mapRequestCount w;
     fBroadcastTransactions := fBroadcastTransactions w;
     db_tx := db_tx w; db_pool := db_pool w;
     notified := notified w ++ [(h, ct)]; relayed := relayed w |}.

(** [MCWallet::KeepKey]: erase the pool entry from the database. *)
Definition Wallet_KeepKey (idx : Z) (w : MCWallet) : MCWallet :=
  {| mapWallet := mapWallet w; mapTxSpends := mapTxSpends w;
     nOrderPosNext := nOrderPosNext w;
     setInternalKeyPool := setInternalKeyPool w;
     setExternalKeyPool := setExternalKeyPool w;
     m_pool_key_to_index := m_pool_key_to_index w;
     mapRequestCount := mapRequestCount w;
     fBroadcastTransactions := fBroadcastTransactions w;
     db_tx := db_tx w; db_pool := db_pool w ∖ {[idx]};
     notified := notified w; relayed := relayed w |}.

(** [MCWallet::ReturnKey]: put the index back into its in-memory pool. *)
Definition Wallet_ReturnKey (idx : Z) (fInternal : bool) (pubkey : bytes)
    (w : MCWallet) : MCWallet :=
  {| mapWallet := mapWallet w; mapTxSpends := mapTxSpends w;
     nOrderPosNext := nOrderPosNext w;
     setInternalKeyPool :=
       if fInternal then {[idx]} ∪ setInternalKeyPool w else setInternalKeyPool w;
     setExternalKeyPool :=
       if fInternal then setExternalKeyPool w else {[idx]} ∪ setExternalKeyPool w;
     m_pool_key_to_index := (pubkey, idx) :: m_pool_key_to_index w;
     mapRequestCount := mapRequestCount w;
     fBroadcastTransactions := fBroadcastTransactions w;
     db_tx := db_tx w; db_pool := db_pool w;
     notified := notified w; relayed := relayed w |}.

Definition released : MCReserveKey -> MCReserveKey :=
  fun rk => {| rk_nIndex := -1; rk_vchPubKey := None; rk_fInternal := rk_fInternal rk |}.

(** [MCReserveKey::KeepKey]. *)
Definition KeepKey (rk : MCReserveKey) (w : MCWallet) : MCReserveKey * MCWallet :=
  (released rk,
   if rk_nIndex rk =? -1 then w else Wallet_KeepKey (rk_nIndex rk) w).

(** [MCReserveKey::ReturnKey], which the destructor of the reserve key runs. *)
Definition ReturnKey (rk : MCReserveKey) (w : MCWallet) : MCReserveKey * MCWallet :=
  (released rk,
   if rk_nIndex rk =? -1 then w
   else Wallet_ReturnKey (rk_nIndex rk) (rk_fInternal rk)
          (default [] (rk_vchPubKey rk)) w).

(** The merge of [AddToWallet] into a record already present; the second
    component is [fUpdated]. *)
Definition merge_wtx (wtxIn wtx : MCWalletTx) : MCWalletTx * bool :=
  let '(hb, u1) :=
    if negb (hashUnset wtxIn) && negb (hashBlock wtxIn =? hashBlock wtx)
    then (hashBlock wtxIn, true) else (hashBlock wtx, false) in
  let '(hb, u2) :=
    if (hashBlock wtxIn =? 0) && (hb =? ABANDON_HASH)
    then (hashBlock wtxIn, true) else (hb, u1) in
  let '(ix, u3) :=
    if negb (nIndex wtxIn =? -1) && negb (nIndex wtxIn =? nIndex wtx)
    then (nIndex wtxIn, true) else (nIndex wtx, u2) in
  let '(fm, u4) :=
    if fFromMe wtxIn && negb (eqb (fFromMe wtxIn) (fFromMe wtx))
    then (fFromMe wtxIn, true) else (fFromMe wtx, u3) in
  let '(vi, wit, u5) :=
    if fHasWitness wtxIn && negb (fHasWitness wtx)
    then (vin wtxIn, fHasWitness wtxIn, true) else (vin wtx, fHasWitness wtx, u4) in
  ({| wtx_hash := wtx_hash wtx; vin := vi; fHasWitness := wit;
      hashBlock := hb; nIndex := ix; fFromMe := fm;
      nTimeReceived := nTimeReceived wtx; nOrderPos := nOrderPos wtx;
      nTimeSmart := nTimeSmart wtx; fDirty := fDirty wtx |}, u5).

Definition mark_dirty (t : MCWalletTx) : MCWalletTx :=
  {| wtx_hash := wtx_hash t; vin := vin t; fHasWitness := fHasWitness t;
     hashBlock := hashBlock t; nIndex := nIndex t; fFromMe := fFromMe t;
     nTimeReceived := nTimeReceived t; nOrderPos := nOrderPos t;
     nTimeSmart := nTimeSmart t; fDirty := true |}.

(** [MCWallet::AddToWallet].  The record is inserted (or merged) in
    [mapWallet] before the database is written; a failed write returns
    [false] and leaves it there.  The metadata copied by [SyncMetaData] and
    the external notification command are left out. *)
Definition AddToWallet (env : CommitEnv) (wtxIn : MCWalletTx) (w : MCWallet)
    : bool * MCWallet :=
  let h := wtx_hash wtxIn in
  let '(wtx, fInsertedNew, fUpdated, w1) :=
    match mapWallet w !! h with
    | None =>
        let wtx0 :=
          {| wtx_hash := h; vin := vin wtxIn; fHasWitness := fHasWitness wtxIn;
             hashBlock := hashBlock wtxIn; nIndex := nIndex wtxIn;
             fFromMe := fFromMe wtxIn;
             nTimeReceived := adjusted_time env;
             nOrderPos := nOrderPosNext w;
             nTimeSmart := 0; fDirty := fDirty wtxIn |} in
        let wtx1 :=
          {| wtx_hash := h; vin := vin wtx0; fHasWitness := fHasWitness wtx0;
             hashBlock := hashBlock wtx0; nIndex := nIndex wtx0;
             fFromMe := fFromMe wtx0; nTimeReceived := nTimeReceived wtx0;
             nOrderPos := nOrderPos wtx0;
             nTimeSmart := smart_time env wtx0; fDirty := fDirty wtx0 |} in
        (wtx1, true, false,
         {| mapWallet := <[h := wtx1]> (mapWallet w);
            mapTxSpends := mapTxSpends w ++ ((fun o => (o, h)) <$> vin wtx1);
            nOrderPosNext := nOrderPosNext w + 1;
            setInternalKeyPool := setInternalKeyPool w;
            setExternalKeyPool := setExternalKeyPool w;
            m_pool_key_to_index := m_pool_key_to_index w;
            mapRequestCount := mapRequestCount w;
            fBroadcastTransactions := fBroadcastTransactions w;
            db_tx := db_tx w; db_pool := db_pool w;
            notified := notified w; relayed := relayed w |})
    | Some old =>
        let '(wtx1, upd) := merge_wtx wtxIn old in
        (wtx1, false, upd, set_mapWallet (<[h := wtx1]> (mapWallet w)) w)
    end in
  if (fInsertedNew || fUpdated) && negb (write_tx_ok env) then (false, w1)
  else
    let w2 :=
      if fInsertedNew || fUpdated then
        {| mapWallet := mapWallet w1; mapTxSpends := mapTxSpends w1;
           nOrderPosNext := nOrderPosNext w1;
           setInternalKeyPool := setInternalKeyPool w1;
           setExternalKeyPool := setExternalKeyPool w1;
           m_pool_key_to_index := m_pool_key_to_index w1;
           mapRequestCount := mapRequestCount w1;
           fBroadcastTransactions := fBroadcastTransactions w1;
           db_tx := <[h := wtx]> (db_tx w1); db_pool := db_pool w1;
           notified := notified w1; relayed := relayed w1 |}
      else w1 in
    let w3 := set_mapWallet (<[h := mark_dirty wtx]> (mapWallet w2)) w2 in
    (true, notify h (if fInsertedNew then CT_NEW else CT_UPDATED) w3).

(** The loop "Notify that old coins are spent": [mapWallet[hash]] creates
    the entry when it is absent. *)
Definition notify_spent (w : MCWallet) (prevout : uint256 * Z) : MCWallet :=
  let coin := default empty_wtx (mapWallet w !! prevout.1) in
  notify (wtx_hash coin) CT_UPDATED
         (set_mapWallet (<[prevout.1 := coin]> (mapWallet w)) w).

(** [MCWallet::CommitTransaction]: the value returned, the wallet and the
    reserve key afterwards. *)
Definition CommitTransaction (env : CommitEnv) (wtxNew : MCWalletTx)
    (reservekey : MCReserveKey) (w : MCWallet)
    : bool * MCWallet * MCReserveKey :=
  let '(rk1, w1) := KeepKey reservekey w in
  let w2 := (AddToWallet env wtxNew w1).2 in
  let w3 := foldl notify_spent w2 (vin wtxNew) in
  let w4 :=
    {| mapWallet := mapWallet w3; mapTxSpends := mapTxSpends w3;
       nOrderPosNext := nOrderPosNext w3;
       setInternalKeyPool := setInternalKeyPool w3;
       setExternalKeyPool := setExternalKeyPool w3;
       m_pool_key_to_index := m_pool_key_to_index w3;
       mapRequestCount := <[wtx_hash wtxNew := 0]> (mapRequestCount w3);
       fBroadcastTransactions := fBroadcastTransactions w3;
       db_tx := db_tx w3; db_pool := db_pool w3;
       notified := notified w3; relayed := relayed w3 |} in
  if fBroadcastTransactions w4 then
    if negb (accept_to_mempool env wtxNew) then (false, w4, rk1)
    else
      (true,
       {| mapWallet := mapWallet w4; mapTxSpends := mapTxSpends w4;
          nOrderPosNext := nOrderPosNext w4;
          setInternalKeyPool := setInternalKeyPool w4;
          setExternalKeyPool := setExternalKeyPool w4;
          m_pool_key_to_index := m_pool_key_to_index w4;
          mapRequestCount := mapRequestCount w4;
          fBroadcastTransactions := fBroadcastTransactions w4;
          db_tx := db_tx w4; db_pool := db_pool w4;
          notified := notified w4;
          relayed := if relay_ok env then relayed w4 ++ [wtx_hash wtxNew]
                     else relayed w4 |}, rk1)
  else (true, w4, rk1).

(** [a] records the transaction [b]: the same hash, inputs, witness flag,
    block, index and sender flag.  The times, the order position and the
    cache flag belong to the wallet. *)
Definition same_transaction (a b : MCWalletTx) : Prop :=
  wtx_hash a = wtx_hash b /\ vin a = vin b /\ fHasWitness a = fHasWitness b
  /\ hashBlock a = hashBlock b /\ nIndex a = nIndex b /\ fFromMe a = fFromMe b.

(** A wallet holding one confirmed transaction, a payment spending it, and
    a reserved change key, for running the model. *)
Definition funding_tx : MCWalletTx :=
  {| wtx_hash := 10; vin := []; fHasWitness := false; hashBlock := 77;
     nIndex := 0; fFromMe := false; nTimeReceived := 100; nOrderPos := 0;
     nTimeSmart := 100; fDirty := false |}.

Definition payment_tx : MCWalletTx :=
  {| wtx_hash := 20; vin := [(10, 0)]; fHasWitness := false; hashBlock := 0;
     nIndex := -1; fFromMe := true; nTimeReceived := 0; nOrderPos := -1;
     nTimeSmart := 0; fDirty := true |}.

Definition example_wallet : MCWallet :=
  {| mapWallet := {[10 := funding_tx]}; mapTxSpends := [];
     nOrderPosNext := 1;
     setInternalKeyPool := {[5]}; setExternalKeyPool := {[1; 2]};
     m_pool_key_to_index := [];
     mapRequestCount := ∅; fBroadcastTransactions := true;
     db_tx := {[10 := funding_tx]}; db_pool := {[1; 2; 4; 5]};
     notified := []; relayed := [] |}.

Definition example_reservekey : MCReserveKey :=
  {| rk_nIndex := 4; rk_vchPubKey := Some [2; 4]; rk_fInternal := true |}.

Definition rejecting_env : CommitEnv :=
  {| adjusted_time := 200; smart_time := fun _ => 200; write_tx_ok := true;
     accept_to_mempool := fun _ => false; relay_ok := true |}.

End Commit.

(** ** Abandoning a transaction *)

Module Abandon.

(** Hashes are compared only through the order of [std::set<uint256>] and of
    the outpoints keying [mapTxSpends]; the integer standing for a hash is
    its rank in that order. *)
Definition ABANDON_HASH : uint256 := 1.

Record MCOutPoint := { hash : uint256; n : Z }.

Record MCWalletTx := {
  vin : list MCOutPoint;          (* the prevouts of tx->vin *)
  hashBlock : uint256;            (* 0 is the null hash *)
  nIndex : Z;
  fDirty : bool                   (* the memoized amounts are invalid *)
}.

Definition hashUnset (t : MCWalletTx) : bool :=
  (hashBlock t =? 0) || (hashBlock t =? ABANDON_HASH).
Definition isAbandoned (t : MCWalletTx) : bool := hashBlock t =? ABANDON_HASH.

(** The chain and the mempool as the wallet sees them: [block_depth h] is
    [chainActive.Height() - pindex->nHeight + 1] for a block on the active
    chain, and nothing for a block that is unknown or off the chain. *)
Record ChainEnv := {
  block_depth : uint256 -> option Z;
  in_mempool : uint256 -> bool
}.

(** [MCMerkleTx::GetDepthInMainChain]. *)
Definition GetDepthInMainChain (env : ChainEnv) (t : MCWalletTx) : Z :=
  if hashUnset t then 0 else
  match block_depth env (hashBlock t) with
  | None => 0
  | Some d => (if nIndex t =? -1 then -1 else 1) * d
  end.

Inductive ChangeType := CT_NEW | CT_UPDATED | CT_DELETED.

(** The part of [MCWallet] that [AbandonTransaction] touches.  [mapTxSpends]
    is a [std::multimap] keyed by outpoint, kept in key order; [db_tx] holds
    what [WriteTx] has persisted. *)
Record MCWallet := {
  mapWallet : gmap uint256 MCWalletTx;
  mapTxSpends : list (MCOutPoint * uint256);
  db_tx : gmap uint256 MCWalletTx;
  notified : list (uint256 * ChangeType)
}.

Definition outpoint_ltb (a b : MCOutPoint) : bool :=
  (hash a <? hash b) || ((hash a =? hash b) && (n a <? n b)).

(** [std::multimap::lower_bound]: the entries from the first one whose key
    is not below [k]. *)
Fixpoint lower_bound (k : MCOutPoint) (m : list (MCOutPoint * uint256))
    : list (MCOutPoint * uint256) :=
  match m with
  | [] => []
  | e :: m' => if outpoint_ltb e.1 k then lower_bound k m' else m
  end.

(** [std::set<uint256>::insert] on the increasing list of the elements. *)
Fixpoint todo_insert (h : uint256) (todo : list uint256) : list uint256 :=
  match todo with
  | [] => [h]
  | x :: todo' =>
      if h <? x then h :: todo
      else if h =? x then todo
      else x :: todo_insert h todo'
  end.

(** The inner [while]: walk the entries while they spend an output of [now],
    queueing the spenders not done yet. *)
Fixpoint queue_spenders (now : uint256) (iter : list (MCOutPoint * uint256))
    (done : gset uint256) (todo : list uint256) : list uint256 :=
  match iter with
  | [] => todo
  | (prevout, spender) :: iter' =>
      if hash prevout =? now then
        queue_spenders now iter' done
          (if bool_decide (spender ∈ done) then todo else todo_insert spender todo)
      else todo
  end.

Definition MarkDirty (t : MCWalletTx) : MCWalletTx :=
  {| vin := vin t; hashBlock := hashBlock t; nIndex := nIndex t; fDirty := true |}.

(** The last loop of the body: the transactions whose outputs [wtx] spends
    have their caches invalidated, if they are in the wallet. *)
Definition dirty_inputs (m : gmap uint256 MCWalletTx) (ins : list MCOutPoint)
    : gmap uint256 MCWalletTx :=
  foldl (fun m txin => match m !! hash txin with
                       | Some t => <[hash txin := MarkDirty t]> m
                       | None => m
                       end) m ins.

(** The [while (!todo.empty())] loop of [AbandonTransaction].  [hashTx] is
    the transaction the call was made for: the source looks up
    [mapTxSpends.lower_bound(MCOutPoint(hashTx, 0))] in every round. *)
Fixpoint abandon_loop (fuel : nat) (env : ChainEnv) (hashTx : uint256)
    (todo : list uint256) (done : gset uint256) (w : MCWallet)
    : outcome MCWallet :=
  match todo with
  | [] => Returned w
  | now :: todo' =>
      match fuel with
      | O => Aborted "out of fuel"
      | S fuel' =>
          let done' := {[now]} ∪ done in
          match mapWallet w !! now with
          | None => Aborted "assert(mapWallet.count(now))"
          | Some wtx =>
              let currentconfirm := GetDepthInMainChain env wtx in
              if 0 <? currentconfirm then Aborted "assert(currentconfirm <= 0)"
              else if (currentconfirm =? 0) && negb (isAbandoned wtx) then
                if in_mempool env now then Aborted "assert(!wtx.InMempool())"
                else
                  let wtx' := {| vin := vin wtx; hashBlock := ABANDON_HASH;
                                 nIndex := -1; fDirty := true |} in
                  let m1 := <[now := wtx']> (mapWallet w) in
                  let todo'' :=
                    queue_spenders now
                      (lower_bound {| hash := hashTx; n := 0 |} (mapTxSpends w))
                      done' todo' in
                  abandon_loop fuel' env hashTx todo'' done'
                    {| mapWallet := dirty_inputs m1 (vin wtx');
                       mapTxSpends := mapTxSpends w;
                       db_tx := <[now := wtx']> (db_tx w);
                       notified := notified w ++ [(now, CT_UPDATED)] |}
              else abandon_loop fuel' env hashTx todo' done' w
          end
      end
  end.

(** [MCWallet::AbandonTransaction]. *)
Definition AbandonTransaction (fuel : nat) (env : ChainEnv) (hashTx : uint256)
    (w : MCWallet) : outcome (bool * MCWallet) :=
  match mapWallet w !! hashTx with
  | None => Aborted "assert(mapWallet.count(hashTx))"
  | Some origtx =>
      if (0 <? GetDepthInMainChain env origtx) || in_mempool env hashTx
      then Returned (false, w)
      else match abandon_loop fuel env hashTx [hashTx] ∅ w with
           | Returned w' => Returned (true, w')
           | Aborted why => Aborted why
           end
  end.

(** A chain of three unconfirmed wallet transactions, none in the mempool:
    2 spends output 0 of 1, and 3 spends output 0 of 2. *)
Definition unconfirmed (ins : list MCOutPoint) : MCWalletTx :=
  {| vin := ins; hashBlock := 0; nIndex := -1; fDirty := false |}.

Definition chain_wallet : MCWallet :=
  {| mapWallet := {[ 1 := unconfirmed [];
                     2 := unconfirmed [{| hash := 1; n := 0 |}];
                     3 := unconfirmed [{| hash := 2; n := 0 |}] ]};
     mapTxSpends := [({| hash := 1; n := 0 |}, 2); ({| hash := 2; n := 0 |}, 3)];
     db_tx := ∅; notified := [] |}.

Definition idle_chain : ChainEnv :=
  {| block_depth := fun _ => None; in_mempool := fun _ => false |}.

Definition abandoned_in (w : MCWallet) (h : uint256) : bool :=
  match mapWallet w !! h with
  | Some t => isAbandoned t && (nIndex t =? -1)
  | None => false
  end.

End Abandon.

(** ** Key generation and HD derivation *)

Module HD.

Definition BIP32_HARDENED_KEY_LIMIT : Z := 2147483648.   (* 0x80000000 *)

Definition FEATURE_COMPRPUBKEY : Z := 60000.
Definition FEATURE_HD_SPLIT : Z := 139900.

(** Conversion to [uint32_t]. *)
Definition uint32 (z : Z) : Z := z `mod` 4294967296.

(** [std::to_string] of an unsigned counter. *)
Definition to_string (z : Z) : string :=
  DecimalString.NilEmpty.string_of_uint (N.to_uint (Z.to_N z)).

(** [CHDChain] (walletdb.h); the null key id is 0. *)
Record CHDChain := {
  nExternalChainCounter : Z;      (* uint32_t *)
  nInternalChainCounter : Z;      (* uint32_t *)
  masterKeyID : Z
}.

(** [CKeyMetadata] (walletdb.h). *)
Record CKeyMetadata := {
  nCreateTime : Z;
  hdKeypath : string;
  hdMasterKeyID : Z
}.

(** The BIP32 arithmetic of [MCExtKey] and the key identifiers of [MCKey]
    (key.h and pubkey.h are not part of the tree). *)
Record Bip32 := {
  SetMaster : bytes -> bytes;
  Derive : bytes -> Z -> bytes;       (* parent, child index *)
  ext_secret : bytes -> bytes;        (* the member [key] of an extended key *)
  key_id : bytes -> Z                 (* [GetPubKey().GetID()] *)
}.

(** The part of [MCWallet] key generation touches: the HD chain, the
    keystore, the key metadata, the feature versions, and the records of
    the database. *)
Record MCWallet := {
  hdChain : CHDChain;
  mapKeys : gmap Z bytes;
  mapKeyMetadata : gmap Z CKeyMetadata;
  nWalletVersion : Z;
  nWalletMaxVersion : Z;
  nTimeFirstKey : Z;
  fCrypted : bool;
  db_hdchain : option CHDChain;
  db_keys : gmap Z (bytes * CKeyMetadata);
  db_minversion : option Z
}.

(** The clock, the randomness of [MakeNewKey], and whether the keystore
    and the database accept what they are handed. *)
Record KeyEnv := {
  GetTime : Z;
  fresh_key : bytes;
  write_hdchain_ok : bool;
  add_key_ok : bool;
  write_key_ok : bool
}.

Definition CanSupportFeature (w : MCWallet) (wf : Z) : bool :=
  nWalletMaxVersion w >=? wf.

Definition IsHDEnabled (w : MCWallet) : bool := negb (masterKeyID (hdChain w) =? 0).

Definition HaveKey (w : MCWallet) (id : Z) : bool :=
  bool_decide (is_Some (mapKeys w !! id)).

Definition counter_of (internal : bool) (c : CHDChain) : Z :=
  if internal then nInternalChainCounter c else nExternalChainCounter c.

Definition bump (internal : bool) (c : CHDChain) : CHDChain :=
  if internal
  then {| nExternalChainCounter := nExternalChainCounter c;
          nInternalChainCounter := uint32 (nInternalChainCounter c + 1);
          masterKeyID := masterKeyID c |}
  else {| nExternalChainCounter := uint32 (nExternalChainCounter c + 1);
          nInternalChainCounter := nInternalChainCounter c;
          masterKeyID := masterKeyID c |}.

Definition with_counter (internal : bool) (v : Z) (c : CHDChain) : CHDChain :=
  if internal
  then {| nExternalChainCounter := nExternalChainCounter c;
          nInternalChainCounter := v; masterKeyID := masterKeyID c |}
  else {| nExternalChainCounter := v;
          nInternalChainCounter := nInternalChainCounter c;
          masterKeyID := masterKeyID c |}.

Definition keypath (internal : bool) (k : Z) : string :=
  ((if internal then "m/0'/1'/" else "m/0'/0'/") ++ to_string k ++ "'")%string.

(** The [do ... while (HaveKey(...))] loop: derive the hardened child at the
    counter, note its path, advance the counter, and go round again if the
    wallet knows the key. *)
Fixpoint derive_loop (fuel : nat) (b : Bip32) (chainChildKey : bytes)
    (internal : bool) (have : Z -> bool) (chain : CHDChain)
    : option (bytes * string * CHDChain) :=
  match fuel with
  | O => None
  | S fuel' =>
      let k := counter_of internal chain in
      let childKey := Derive b chainChildKey (Z.lor k BIP32_HARDENED_KEY_LIMIT) in
      let path := keypath internal k in
      let chain' := bump internal chain in
      if have (key_id b (ext_secret b childKey))
      then derive_loop fuel' b chainChildKey internal have chain'
      else Some (childKey, path, chain')
  end.

Definition set_hdChain (c : CHDChain) (persist : bool) (w : MCWallet) : MCWallet :=
  {| hdChain := c; mapKeys := mapKeys w; mapKeyMetadata := mapKeyMetadata w;
     nWalletVersion := nWalletVersion w; nWalletMaxVersion := nWalletMaxVersion w;
     nTimeFirstKey := nTimeFirstKey w; fCrypted := fCrypted w;
     db_hdchain := if persist then Some c else db_hdchain w;
     db_keys := db_keys w; db_minversion := db_minversion w |}.

(** [MCWallet::DeriveNewChildKey]: the secret, the metadata and the wallet
    afterwards; [Aborted] for its two [throw]s, its [assert], and when
    [fuel] rounds of the loop all met a known key. *)
Definition DeriveNewChildKey (fuel : nat) (b : Bip32) (env : KeyEnv)
    (metadata : CKeyMetadata) (internal : bool) (w : MCWallet)
    : outcome (bytes * CKeyMetadata * MCWallet) :=
  match mapKeys w !! masterKeyID (hdChain w) with
  | None => Aborted "Master key not found"
  | Some key =>
      let masterKey := SetMaster b key in
      let accountKey := Derive b masterKey BIP32_HARDENED_KEY_LIMIT in
      if internal && negb (CanSupportFeature w FEATURE_HD_SPLIT)
      then Aborted "assert(CanSupportFeature(FEATURE_HD_SPLIT))"
      else
        let chainChildKey :=
          Derive b accountKey (BIP32_HARDENED_KEY_LIMIT + (if internal then 1 else 0)) in
        match derive_loop fuel b chainChildKey internal (HaveKey w) (hdChain w) with
        | None => Aborted "out of fuel"
        | Some (childKey, path, chain') =>
            let metadata' :=
              {| nCreateTime := nCreateTime metadata; hdKeypath := path;
                 hdMasterKeyID := masterKeyID chain' |} in
            if write_hdchain_ok env
            then Returned (ext_secret b childKey, metadata', set_hdChain chain' true w)
            else Aborted "Writing HD chain model failed"
        end
  end.

(** [MCWallet::SetMinVersion] as [GenerateNewKey] calls it. *)
Definition SetMinVersion (nVersion : Z) (w : MCWallet) : MCWallet :=
  if nWalletVersion w >=? nVersion then w else
  {| hdChain := hdChain w; mapKeys := mapKeys w; mapKeyMetadata := mapKeyMetadata w;
     nWalletVersion := nVersion;
     nWalletMaxVersion := Z.max nVersion (nWalletMaxVersion w);
     nTimeFirstKey := nTimeFirstKey w; fCrypted := fCrypted w;
     db_hdchain := db_hdchain w; db_keys := db_keys w;
     db_minversion := if nVersion >? 40000 then Some nVersion else db_minversion w |}.

(** [MCWallet::UpdateTimeFirstKey]. *)
Definition UpdateTimeFirstKey (t : Z) (first : Z) : Z :=
  if t <=? 1 then 1
  else if (first =? 0) || (t <? first) then t else first.

(** [MCWallet::GenerateNewKey]: the identifier of the new public key and the
    wallet afterwards.  The check of watch-only scripts in
    [AddKeyPubKeyWithDB] is left out. *)
Definition GenerateNewKey (fuel : nat) (b : Bip32) (env : KeyEnv)
    (internal : bool) (w : MCWallet) : outcome (Z * MCWallet) :=
  let fCompressed := CanSupportFeature w FEATURE_COMPRPUBKEY in
  let metadata := {| nCreateTime := GetTime env; hdKeypath := "";
                     hdMasterKeyID := 0 |} in
  let derived :=
    if IsHDEnabled w then
      DeriveNewChildKey fuel b env metadata
        (if CanSupportFeature w FEATURE_HD_SPLIT then internal else false) w
    else Returned (fresh_key env, metadata, w) in
  match derived with
  | Aborted why => Aborted why
  | Returned (secret, metadata, w1) =>
      let w2 := if fCompressed then SetMinVersion FEATURE_COMPRPUBKEY w1 else w1 in
      let id := key_id b secret in
      if negb (add_key_ok env) then Aborted "AddKey failed"
      else if negb (fCrypted w2) && negb (write_key_ok env) then Aborted "AddKey failed"
      else
        Returned (id,
          {| hdChain := hdChain w2;
             mapKeys := <[id := secret]> (mapKeys w2);
             mapKeyMetadata := <[id := metadata]> (mapKeyMetadata w2);
             nWalletVersion := nWalletVersion w2;
             nWalletMaxVersion := nWalletMaxVersion w2;
             nTimeFirstKey := UpdateTimeFirstKey (GetTime env) (nTimeFirstKey w2);
             fCrypted := fCrypted w2;
             db_hdchain := db_hdchain w2;
             db_keys := <[id := (secret, metadata)]> (db_keys w2);
             db_minversion := db_minversion w2 |})
  end.

(** The leaf the wallet derives for counter [k]. *)
Definition leaf (b : Bip32) (w : MCWallet) (internal : bool) (k : Z) : bytes :=
  match mapKeys w !! masterKeyID (hdChain w) with
  | Some key =>
      Derive b
        (Derive b (Derive b (SetMaster b key) BIP32_HARDENED_KEY_LIMIT)
           (BIP32_HARDENED_KEY_LIMIT + (if internal then 1 else 0)))
        (Z.lor k BIP32_HARDENED_KEY_LIMIT)
  | None => []
  end.

(** A derivation to run the model: a child is its path, and the identifier
    of a key is the path read as a number in base 2^32 (plus one, so that no
    key has the null identifier). *)
Definition toy_bip32 : Bip32 :=
  {| SetMaster := fun key => key;
     Derive := fun parent child => parent ++ [child];
     ext_secret := fun k => k;
     key_id := fun k => foldl (fun acc x => acc * 4294967296 + x) 1 k |}.

Definition toy_env : KeyEnv :=
  {| GetTime := 1500000000; fresh_key := [9]; write_hdchain_ok := true;
     add_key_ok := true; write_key_ok := true |}.

Definition hd_wallet : MCWallet :=
  {| hdChain := {| nExternalChainCounter := 0; nInternalChainCounter := 0;
                   masterKeyID := 4294967296 + 42 |};
     mapKeys := {[ 4294967296 + 42 := [42] ]};
     mapKeyMetadata := ∅;
     nWalletVersion := 139900; nWalletMaxVersion := 139900;
     nTimeFirstKey := 0; fCrypted := false;
     db_hdchain := None; db_keys := ∅; db_minversion := None |}.

(** The key paths of successive external derivations. *)
Fixpoint successive_paths (fuel : nat) (b : Bip32) (env : KeyEnv) (count : nat)
    (w : MCWallet) : list string :=
  match count with
  | O => []
  | S count' =>
      match GenerateNewKey fuel b env false w with
      | Returned (id, w') =>
          default ""%string (hdKeypath <$> mapKeyMetadata w' !! id)
          :: successive_paths fuel b env count' w'
      | Aborted _ => []
      end
  end.

End HD.

(** ** Peer address manager *)

Module AddrMan.
Import Random.

(** [NetworkAddress]: an IP endpoint and its port (the service bits play no
    part here).  Two addresses of one IP and different ports are different
    addresses. *)
Record NetworkAddress := { ip : Z; port : Z }.

Global Instance NetworkAddress_eq_dec : EqDecision NetworkAddress.
Proof. solve_decision. Defined.

(** [PeerAddressRecord]: an address, when it was last seen, who told us of
    it, and how many connection attempts failed. *)
Record PeerAddressRecord := {
  addr : NetworkAddress;
  nTime : Z;
  source : Z;
  nAttempts : Z
}.

(** Modelled from the spec: the policy that deems an address terrible
    (address/addrman is not part of the tree; the spec leaves the two
    thresholds to configuration): stale beyond a freshness horizon, or with
    too many failed connection attempts. *)
Record TerriblePolicy := { horizon : Z; max_failures : Z }.

Definition IsTerrible (pol : TerriblePolicy) (now : Z) (r : PeerAddressRecord) : bool :=
  (now - nTime r >? horizon pol) || (nAttempts r >? max_failures pol).

(** An address time-stamped now, with no failed attempt. *)
Definition fresh (now : Z) (r : PeerAddressRecord) : Prop :=
  nTime r = now /\ nAttempts r = 0.

(** Modelled from the spec: the peer address manager (address/addrman is not
    part of the tree).  It owns the key [nKey], the map from identifiers to
    records, and two tables from a position (bucket, slot) to the identifier
    held there: the new table and the tried table. *)
Record MCAddrMan := {
  nKey : Z;
  mapInfo : gmap nat PeerAddressRecord;
  vvNew : gmap (nat * nat) nat;
  vvTried : gmap (nat * nat) nat
}.

(** Modelled from the spec: the position of an address in the tried table
    is a hash of the manager key and of the IP alone (two records of one IP
    compete for one position, whatever their ports). *)
Definition Placement := Z -> Z -> nat * nat.

Definition size (am : MCAddrMan) : nat := base.size (mapInfo am).

(** The records a table holds, in the order of its positions. *)
Definition entries (am : MCAddrMan) (tbl : gmap (nat * nat) nat)
    : list PeerAddressRecord :=
  omap (fun e => mapInfo am !! e.2) (map_to_list tbl).

(** The position and identifier of the new-table entry for an address, if
    there is one. *)
Definition find_new (am : MCAddrMan) (a : NetworkAddress) : option (nat * nat * nat) :=
  list_find (fun e => (addr <$> mapInfo am !! e.2) = Some a) (map_to_list (vvNew am))
  ≫= fun r => Some r.2.

(** Modelled from the spec: [Good] promotes a new-table entry to the tried
    table at its position there; if that position is taken the call changes
    nothing and the occupant keeps its place. *)
Definition Good (place : Placement) (a : NetworkAddress) (am : MCAddrMan) : MCAddrMan :=
  match find_new am a with
  | None => am
  | Some (pos, id) =>
      let target := place (nKey am) (ip a) in
      match vvTried am !! target with
      | Some _ => am
      | None =>
          {| nKey := nKey am; mapInfo := mapInfo am;
             vvNew := delete pos (vvNew am);
             vvTried := <[target := id]> (vvTried am) |}
      end
  end.

(** Modelled from the spec: [Select] draws an address from the new table
    alone ([newOnly]) or from both tables; with nothing to draw from it
    returns the wildcard, here [None]. *)
Definition Select (newOnly : bool) (ds : list Z) (am : MCAddrMan)
    : option PeerAddressRecord :=
  let pool := if newOnly then entries am (vvNew am)
              else entries am (vvTried am) ++ entries am (vvNew am) in
  match pool with
  | [] => None
  | _ => pool !! Z.to_nat (GetRandInt (Z.of_nat (length pool)) ds).1
  end.

(** Modelled from the spec: [GetAddr] samples the stored addresses in
    random order, passes over the terrible ones, and stops at 23 percent of
    the number of stored addresses, rounded down. *)
Definition GetAddr (pol : TerriblePolicy) (now : Z) (ds : list Z) (am : MCAddrMan)
    : list PeerAddressRecord :=
  let all := (map_to_list (mapInfo am)).*2 in
  let quota := (23 * size am / 100)%nat in
  take quota (filter (fun r => IsTerrible pol now r = false) (random_shuffle ds all).1).

(** Managers to run the model on: [n] addresses, all last seen at [seen]. *)
Definition record_at (seen : Z) (k : nat) : PeerAddressRecord :=
  {| addr := {| ip := Z.of_nat k; port := 8333 |}; nTime := seen;
     source := 0; nAttempts := 0 |}.

Definition manager_of (seen : Z) (n : nat) : MCAddrMan :=
  {| nKey := 0;
     mapInfo := list_to_map ((fun k => (k, record_at seen k)) <$> seq 0 n);
     vvNew := list_to_map ((fun k => ((0%nat, k), k)) <$> seq 0 n);
     vvTried := ∅ |}.

Definition month_policy : TerriblePolicy :=
  {| horizon := 30 * 24 * 60 * 60; max_failures := 10 |}.

(** The manager of the ports test: 250.1.1.1:8333 in the new table, and a
    tried table whose position for that IP is taken by another record. *)
Definition one_position : Placement := fun _ _ => (0%nat, 0%nat).

Definition ports_manager : MCAddrMan :=
  {| nKey := 0;
     mapInfo := {[ 0%nat := {| addr := {| ip := 4194369793; port := 8333 |};
                               nTime := 100; source := 0; nAttempts := 0 |};
                   1%nat := {| addr := {| ip := 4194369794; port := 8333 |};
                               nTime := 100; source := 0; nAttempts := 0 |} ]};
     vvNew := {[ (3%nat, 7%nat) := 0%nat ]};
     vvTried := {[ (0%nat, 0%nat) := 1%nat ]} |}.

End AddrMan.

(** ** Building a transaction *)

Module CreateTx.
Import Random Fees.

Record MCTxOut := { nValue : MCAmount; scriptPubKey : bytes }.

Record MCRecipient := {
  r_scriptPubKey : bytes;
  nAmount : MCAmount;
  fSubtractFeeFromAmount : bool
}.

Record MCOutPoint := { hash : uint256; n : Z }.

(** The part of [SmartLuaState] that [CreateTransaction] reads: the outputs
    the contract execution produced and the two figures entering the size. *)
Record SmartLuaState := {
  recipients : list MCTxOut;
  runningTimes : Z;
  deltaDataLen : Z
}.

(** What [CreateTransaction] is given and what it reads from its
    surroundings.  The dust policy (policy/policy), the serialized sizes and
    the signer are not part of the tree.  [SelectCoins] stands for the call
    [SelectCoins(vAvailableCoins, nValueToSelect, ...)] on the coins
    available to this call: the coins chosen and their total, or nothing
    when it returns [false]; what follows holds whichever coins it picks. *)
Record TxEnv := {
  fees : FeeEnv;
  dustRelayFee : MCFeeRate;
  m_discard_rate : MCFeeRate;
  discard_estimate : MCFeeRate;     (* EstimateSmartFee(highest_target, nullptr, false) *)
  GetDustThreshold : bytes -> MCFeeRate -> MCAmount;
  MIN_FINAL_CHANGE : MCAmount;
  isDataTransaction : bool;
  IsSmartContract : bool;
  change_script : option bytes;     (* nothing: the key pool ran out *)
  change_prototype_size : Z;
  SelectCoins : MCAmount -> option (list MCOutPoint * MCAmount);
  DummySignTx : list MCOutPoint -> bool;
  GetVirtualTransactionSize :
    list MCOutPoint -> list MCTxOut -> option SmartLuaState -> Z;
  publish_scripts : option (bytes * bytes);   (* placeholder and final script *)
  sign_ok : bool;
  sign_contract_ok : bool;
  GetTransactionWeight : list MCOutPoint -> list MCTxOut -> Z;
  MAX_STANDARD_TX_WEIGHT : Z;
  IsProve : bool;
  walletrejectlongchains : bool;
  chain_limits_ok : bool
}.

(** Modelled from the spec: [IsDust] (policy/policy is not part of the
    tree): an output is dust when its value is less than the dust threshold
    that the fee rate implies for its script. *)
Definition IsDust (env : TxEnv) (txout : MCTxOut) (rate : MCFeeRate) : bool :=
  nValue txout <? GetDustThreshold env (scriptPubKey txout) rate.

(** [GetDiscardRate]. *)
Definition GetDiscardRate (env : TxEnv) : MCFeeRate :=
  let discard_rate :=
    if discard_estimate env =? 0 then m_discard_rate env
    else Z.min (discard_estimate env) (m_discard_rate env) in
  Z.max discard_rate (dustRelayFee env).

(** The loop "vouts to the payees" for a running fee [nFeeRet]: the outputs,
    or the reason a dust output stopped the construction. *)
Fixpoint payees (env : TxEnv) (nFeeRet nSubtractFeeFromAmount : Z) (fFirst : bool)
    (vecSend : list MCRecipient) : string + list MCTxOut :=
  match vecSend with
  | [] => inr []
  | recipient :: rest =>
      let v0 := nAmount recipient in
      let v1 := if fSubtractFeeFromAmount recipient
                then v0 - nFeeRet `quot` nSubtractFeeFromAmount else v0 in
      let v2 := if fSubtractFeeFromAmount recipient && fFirst
                then v1 - nFeeRet `rem` nSubtractFeeFromAmount else v1 in
      let fFirst' := if fSubtractFeeFromAmount recipient then false else fFirst in
      let txout := {| nValue := v2; scriptPubKey := r_scriptPubKey recipient |} in
      if IsDust env txout (dustRelayFee env) then
        inl (if fSubtractFeeFromAmount recipient && (nFeeRet >? 0)
             then (if v2 <? 0
                   then "The transaction amount is too small to pay the fee"%string
                   else "The transaction amount is too small to send after the fee has been deducted"%string)
             else "Transaction amount too small"%string)
      else
        match payees env nFeeRet nSubtractFeeFromAmount fFirst' rest with
        | inl reason => inl reason
        | inr outs => inr (txout :: outs)
        end
  end.

Definition insert_at {A} (k : nat) (x : A) (l : list A) : list A :=
  take k l ++ x :: drop k l.

(** The change step: fold a dust change into the fee, or insert the change
    output at the requested or at a random position. *)
Definition place_change (env : TxEnv) (discard_rate : MCFeeRate)
    (scriptChange : bytes) (nChangePosRequest nChange nFeeRet : Z)
    (vout : list MCTxOut) (ds : list Z)
    : string + (list MCTxOut * Z * Z * list Z) :=
  if 0 <? nChange then
    let newTxOut := {| nValue := nChange; scriptPubKey := scriptChange |} in
    if IsDust env newTxOut discard_rate then
      inr (vout, -1, nFeeRet + nChange, ds)
    else if nChangePosRequest =? -1 then
      let '(r, ds') := GetRandInt (Z.of_nat (length vout) + 1) ds in
      inr (insert_at (Z.to_nat r) newTxOut vout, r, nFeeRet, ds')
    else if nChangePosRequest `mod` 4294967296 >? Z.of_nat (length vout) then
      inl "Change index out of range"%string
    else
      inr (insert_at (Z.to_nat nChangePosRequest) newTxOut vout,
           nChangePosRequest, nFeeRet, ds)
  else inr (vout, -1, nFeeRet, ds).

(** [change_position->nValue += delta]. *)
Definition adjust_change (pos : Z) (delta : MCAmount) (vout : list MCTxOut)
    : list MCTxOut :=
  match vout !! Z.to_nat pos with
  | Some c => <[Z.to_nat pos := {| nValue := nValue c + delta;
                                   scriptPubKey := scriptPubKey c |}]> vout
  | None => vout
  end.

Record loop_state := {
  nFeeRet : MCAmount;
  pick_new_inputs : bool;
  setCoins : list MCOutPoint;
  nValueIn : MCAmount;
  draws : list Z
}.

Inductive step_result :=
| Fail (strFailReason : string)
| Continue (st : loop_state)
| Break (vout : list MCTxOut) (nChangePosInOut : Z) (fee : MCAmount)
        (coins : list MCOutPoint).

(** One round of the [while (true)] loop of [CreateTransaction]; [nSend] is
    the total [nValue] of the amounts to send. *)
Definition iteration (env : TxEnv) (coin_control : MCCoinControl)
    (vecSend : list MCRecipient) (nSend nSubtractFeeFromAmount : Z)
    (nChangePosRequest : Z) (scriptChange : bytes) (discard_rate : MCFeeRate)
    (sls : option SmartLuaState) (st : loop_state) : step_result :=
  let nValueToSelect :=
    if nSubtractFeeFromAmount =? 0 then nSend + nFeeRet st else nSend in
  match payees env (nFeeRet st) nSubtractFeeFromAmount true vecSend with
  | inl reason => Fail reason
  | inr outs =>
      match (if pick_new_inputs st then SelectCoins env nValueToSelect
             else Some (setCoins st, nValueIn st)) with
      | None => Fail "Insufficient funds"
      | Some (coins, valueIn) =>
          let nChange := valueIn - nValueToSelect in
          match place_change env discard_rate scriptChange nChangePosRequest
                             nChange (nFeeRet st) outs (draws st) with
          | inl reason => Fail reason
          | inr (vout1, pos, fee1, ds1) =>
              if negb (DummySignTx env coins) then Fail "Signing transaction failed"
              else
                let nBytes := GetVirtualTransactionSize env coins vout1 sls in
                let vout2 := vout1 ++ match sls with
                                      | Some l => recipients l
                                      | None => []
                                      end in
                let nFeeNeeded :=
                  (GetMinimumFee (fees env) nBytes coin_control (Some NONE)).1 in
                if nFeeNeeded <? GetFee (fees env) (minRelayTxFee (fees env)) nBytes
                then Fail "Transaction too large for fee policy"
                else if fee1 >=? nFeeNeeded then
                  let fee_needed_with_change :=
                    (GetMinimumFee (fees env)
                       (nBytes + change_prototype_size env + 2) coin_control None).1 in
                  let minimum_value_for_change :=
                    GetDustThreshold env scriptChange discard_rate in
                  if (pos =? -1) && (nSubtractFeeFromAmount =? 0)
                     && pick_new_inputs st
                     && (fee1 >=? fee_needed_with_change + minimum_value_for_change)
                  then Continue {| nFeeRet := fee_needed_with_change;
                                   pick_new_inputs := false;
                                   setCoins := coins; nValueIn := valueIn;
                                   draws := ds1 |}
                  else if (fee1 >? nFeeNeeded) && negb (pos =? -1)
                          && (nSubtractFeeFromAmount =? 0)
                  then Break (adjust_change pos (fee1 - nFeeNeeded) vout2) pos
                             nFeeNeeded coins
                  else Break vout2 pos fee1 coins
                else if negb (pick_new_inputs st)
                then Fail "Transaction fee and change calculation failed"
                else if negb (pos =? -1) && (nSubtractFeeFromAmount =? 0)
                        && (default 0 (nValue <$> vout2 !! Z.to_nat pos)
                            >=? MIN_FINAL_CHANGE env + (nFeeNeeded - fee1))
                then Break (adjust_change pos (- (nFeeNeeded - fee1)) vout2) pos
                           nFeeNeeded coins
                else Continue {| nFeeRet := nFeeNeeded;
                                 pick_new_inputs :=
                                   if 0 <? nSubtractFeeFromAmount then false
                                   else pick_new_inputs st;
                                 setCoins := coins; nValueIn := valueIn;
                                 draws := ds1 |}
          end
      end
  end.

Fixpoint create_loop (fuel : nat) (env : TxEnv) (coin_control : MCCoinControl)
    (vecSend : list MCRecipient) (nSend nSubtractFeeFromAmount : Z)
    (nChangePosRequest : Z) (scriptChange : bytes) (discard_rate : MCFeeRate)
    (sls : option SmartLuaState) (st : loop_state) : option step_result :=
  match fuel with
  | O => None
  | S fuel' =>
      match iteration env coin_control vecSend nSend nSubtractFeeFromAmount
                      nChangePosRequest scriptChange discard_rate sls st with
      | Continue st' =>
          create_loop fuel' env coin_control vecSend nSend nSubtractFeeFromAmount
                      nChangePosRequest scriptChange discard_rate sls st'
      | r => Some r
      end
  end.

(** The first loop: the total to send and the number of recipients the fee
    is subtracted from; nothing when an amount is negative. *)
Fixpoint sum_recipients (vecSend : list MCRecipient) (nSend nSubtract : Z)
    : option (Z * Z) :=
  match vecSend with
  | [] => Some (nSend, nSubtract)
  | recipient :: rest =>
      if (nSend <? 0) || (nAmount recipient <? 0) then None
      else sum_recipients rest (nSend + nAmount recipient)
             (if fSubtractFeeFromAmount recipient then nSubtract + 1 else nSubtract)
  end.

(** How [CreateTransaction] ends: a failure with its reason, or the
    transaction built, its outputs, the change position and the fee. *)
Inductive create_result :=
| Failed (strFailReason : string)
| Built (vout : list MCTxOut) (nChangePosInOut : Z) (nFeeRet : MCAmount)
        (vin : list MCOutPoint).

(** The script substitution of a contract publication. *)
Definition substitute (env : TxEnv) (o : MCTxOut) : MCTxOut :=
  match publish_scripts env with
  | Some (oldScript, newScript) =>
      if bytes_eqb (scriptPubKey o) oldScript
      then {| nValue := nValue o; scriptPubKey := newScript |} else o
  | None => o
  end.

(** [MCWallet::CreateTransaction]; nothing when [fuel] rounds of the loop
    did not settle the fee.  The lock time and the payload moved by
    [MoveTransactionData] are left out: they do not enter the outputs. *)
Definition CreateTransaction (fuel : nat) (env : TxEnv) (coin_control : MCCoinControl)
    (vecSend : list MCRecipient) (nChangePosRequest : Z) (sign : bool)
    (sls : option SmartLuaState) (ds : list Z) : option create_result :=
  match sum_recipients vecSend 0 0 with
  | None => Some (Failed "Transaction amounts must not be negative")
  | Some (nSend, nSubtractFeeFromAmount) =>
      if bool_decide (vecSend = []) && negb (isDataTransaction env)
         && negb (IsSmartContract env)
      then Some (Failed "Transaction must have at least one recipient")
      else
        match change_script env with
        | None => Some (Failed "Keypool ran out, please call keypoolrefill first")
        | Some scriptChange =>
            let discard_rate := GetDiscardRate env in
            match create_loop fuel env coin_control vecSend nSend
                    nSubtractFeeFromAmount nChangePosRequest scriptChange
                    discard_rate sls
                    {| nFeeRet := 0; pick_new_inputs := true; setCoins := [];
                       nValueIn := 0; draws := ds |} with
            | None => None
            | Some (Fail reason) => Some (Failed reason)
            | Some (Continue _) => None
            | Some (Break vout pos fee coins) =>
                let vout' := substitute env <$> vout in
                if sign && negb (sign_ok env)
                then Some (Failed "Signing transaction failed")
                else if sign && IsSmartContract env && negb (sign_contract_ok env)
                then Some (Failed "Signing contract failed")
                else if (GetTransactionWeight env coins vout'
                         >=? MAX_STANDARD_TX_WEIGHT env) && negb (IsProve env)
                then Some (Failed "Transaction too large")
                else if walletrejectlongchains env && negb (chain_limits_ok env)
                then Some (Failed "Transaction has too long of a mempool chain")
                else Some (Built vout' pos fee coins)
            end
        end
  end.

(** The outputs of a built transaction, before the script substitution:
    the payee outputs [outs], the change output at [pos] if there is one,
    then the outputs [extra] of the contract execution.  The change output
    pays to the change script; it was not dust at the discard rate when it
    was made, or it holds [MIN_FINAL_CHANGE] at least. *)
Definition outputs_shape (env : TxEnv) (discard_rate : MCFeeRate)
    (scriptChange : bytes) (outs extra vout : list MCTxOut) (pos : Z) : Prop :=
  if pos =? -1 then vout = outs ++ extra
  else exists c,
      vout = insert_at (Z.to_nat pos) c outs ++ extra
      /\ (Z.to_nat pos <= length outs)%nat
      /\ scriptPubKey c = scriptChange
      /\ (IsDust env c discard_rate = false \/ MIN_FINAL_CHANGE env <= nValue c).

Definition contract_outputs (sls : option SmartLuaState) : list MCTxOut :=
  match sls with Some l => recipients l | None => [] end.

(** The total of the output values. *)
Definition total_out (l : list MCTxOut) : MCAmount :=
  foldr (fun o acc => nValue o + acc) 0 l.

(** The total of the amounts to send, and the number of recipients the fee
    is subtracted from. *)
Definition amount_total (l : list MCRecipient) : MCAmount :=
  foldr (fun r acc => nAmount r + acc) 0 l.

Definition subtract_count (l : list MCRecipient) : Z :=
  foldr (fun r acc => if fSubtractFeeFromAmount r then acc + 1 else acc) 0 l.

(** [nValueToSelect] for a running fee. *)
Definition value_to_select (nSend nSubtractFeeFromAmount nFeeRet : Z) : Z :=
  if nSubtractFeeFromAmount =? 0 then nSend + nFeeRet else nSend.

(** The coins come from a call of [SelectCoins]. *)
Definition selected (env : TxEnv) (coins : list MCOutPoint) (valueIn : MCAmount)
    : Prop :=
  exists target, SelectCoins env target = Some (coins, valueIn).

(** [SelectCoins] returns coins worth its target at least. *)
Definition covers_target (env : TxEnv) : Prop :=
  forall target coins valueIn,
    SelectCoins env target = Some (coins, valueIn) -> target <= valueIn.

(** The coins a state of the loop retains were selected, and cover what is
    to be selected for its fee when [SelectCoins] covers its target. *)
Definition retained_ok (env : TxEnv) (vecSend : list MCRecipient)
    (script : bytes) (rate : MCFeeRate) (st : loop_state) : Prop :=
  pick_new_inputs st = false ->
  selected env (setCoins st) (nValueIn st)
  /\ (covers_target env -> 0 <= GetDustThreshold env script rate ->
      value_to_select (amount_total vecSend) (subtract_count vecSend) (nFeeRet st)
      <= nValueIn st).

(** What the inputs hold is in the outputs and the fee: [fee] and the
    outputs [vout], the outputs [extra] of the contract execution apart,
    take up the value of the selected coins [vin]. *)
Definition value_kept (env : TxEnv) (script : bytes) (rate : MCFeeRate)
    (extra vout : list MCTxOut) (pos fee : Z) (vin : list MCOutPoint) : Prop :=
  exists valueIn,
    selected env vin valueIn
    /\ valueIn <= fee + (total_out vout - total_out extra)
    /\ (pos <> -1 -> fee + (total_out vout - total_out extra) = valueIn)
    /\ (covers_target env -> 0 <= GetDustThreshold env script rate ->
        fee + (total_out vout - total_out extra) = valueIn).

(** A wallet setting to run the model: dust is what is worth less than the
    fee for 182 bytes, every input adds 148 bytes and every output 34, one
    coin of 100000 is at hand. *)
Definition example_tx_env (contract : bool) : TxEnv :=
  {| fees := default_env; dustRelayFee := 3000; m_discard_rate := 10000;
     discard_estimate := 0;
     GetDustThreshold := fun _ rate => GetFee_perK rate 182;
     MIN_FINAL_CHANGE := 500000;
     isDataTransaction := false; IsSmartContract := contract;
     change_script := Some [118; 169];
     change_prototype_size := 34;
     SelectCoins := fun target =>
       if target <=? 100000 then Some ([{| hash := 1; n := 0 |}], 100000) else None;
     DummySignTx := fun _ => true;
     GetVirtualTransactionSize := fun vin vout _ =>
       10 + 148 * Z.of_nat (length vin) + 34 * Z.of_nat (length vout);
     publish_scripts := None; sign_ok := true; sign_contract_ok := true;
     GetTransactionWeight := fun vin vout =>
       4 * (10 + 148 * Z.of_nat (length vin) + 34 * Z.of_nat (length vout));
     MAX_STANDARD_TX_WEIGHT := 400000; IsProve := false;
     walletrejectlongchains := false; chain_limits_ok := true |}.

Definition no_coin_control : MCCoinControl :=
  {| m_feerate := None; fOverrideFeeRate := false; m_confirm_target := None;
     signalRbf := false; m_fee_mode := UNSET |}.

Definition pay (v : MCAmount) : MCRecipient :=
  {| r_scriptPubKey := [118; 170]; nAmount := v; fSubtractFeeFromAmount := false |}.

(** A contract call whose execution sends one base unit to a script. *)
Definition contract_state : SmartLuaState :=
  {| recipients := [{| nValue := 1; scriptPubKey := [118; 171] |}];
     runningTimes := 1; deltaDataLen := 0 |}.

End CreateTx.

(** ** Spent outputs and conflicts *)

Module Conflicts.
Import Abandon.

(** [mapTxSpends] is a [std::multimap]: its entries are kept in key order,
    entries of equal keys in any order. *)
Fixpoint spends_sorted (m : list (MCOutPoint * uint256)) : bool :=
  match m with
  | [] => true
  | e :: m' => forallb (fun e' => negb (outpoint_ltb e'.1 e.1)) m' && spends_sorted m'
  end.

(** The entries from an iterator up to [upper_bound(k)]. *)
Fixpoint upto_upper_bound (k : MCOutPoint) (iter : list (MCOutPoint * uint256))
    : list (MCOutPoint * uint256) :=
  match iter with
  | [] => []
  | e :: iter' => if outpoint_ltb k e.1 then [] else e :: upto_upper_bound k iter'
  end.

(** [std::multimap::equal_range]. *)
Definition equal_range (k : MCOutPoint) (m : list (MCOutPoint * uint256))
    : list (MCOutPoint * uint256) :=
  upto_upper_bound k (lower_bound k m).

(** The test of [IsSpent] on one spender: confirmed, or unconfirmed and not
    abandoned. *)
Definition spends (env : ChainEnv) (t : MCWalletTx) : bool :=
  let depth := GetDepthInMainChain env t in
  (0 <? depth) || ((depth =? 0) && negb (isAbandoned t)).

Fixpoint spent_in (env : ChainEnv) (mw : gmap uint256 MCWalletTx)
    (range : list (MCOutPoint * uint256)) : bool :=
  match range with
  | [] => false
  | (_, wtxid) :: range' =>
      match mw !! wtxid with
      | Some t => if spends env t then true else spent_in env mw range'
      | None => spent_in env mw range'
      end
  end.

(** [MCWallet::IsSpent]. *)
Definition IsSpent (env : ChainEnv) (w : MCWallet) (h : uint256) (i : Z) : bool :=
  spent_in env (mapWallet w) (equal_range {| hash := h; n := i |} (mapTxSpends w)).

(** [MCWallet::HasWalletSpend]. *)
Definition HasWalletSpend (w : MCWallet) (txid : uint256) : bool :=
  match lower_bound {| hash := txid; n := 0 |} (mapTxSpends w) with
  | [] => false
  | e :: _ => hash e.1 =? txid
  end.

(** [MCWallet::TransactionCanBeAbandoned]. *)
Definition TransactionCanBeAbandoned (env : ChainEnv) (w : MCWallet)
    (hashTx : uint256) : bool :=
  match mapWallet w !! hashTx with
  | None => false
  | Some wtx =>
      negb (isAbandoned wtx) && (GetDepthInMainChain env wtx <=? 0)
      && negb (in_mempool env hashTx)
  end.

(** The [while (!todo.empty())] loop of [MarkConflicted]: the spenders are
    looked up under [now]. *)
Fixpoint conflict_loop (fuel : nat) (env : ChainEnv) (hashBlock : uint256)
    (conflictconfirms : Z) (todo : list uint256) (done : gset uint256)
    (w : MCWallet) : outcome MCWallet :=
  match todo with
  | [] => Returned w
  | now :: todo' =>
      match fuel with
      | O => Aborted "out of fuel"
      | S fuel' =>
          let done' := {[now]} ∪ done in
          match mapWallet w !! now with
          | None => Aborted "assert(mapWallet.count(now))"
          | Some wtx =>
              let currentconfirm := GetDepthInMainChain env wtx in
              if conflictconfirms <? currentconfirm then
                let wtx' := {| vin := vin wtx; hashBlock := hashBlock;
                               nIndex := -1; fDirty := true |} in
                let m1 := <[now := wtx']> (mapWallet w) in
                let todo'' :=
                  queue_spenders now
                    (lower_bound {| hash := now; n := 0 |} (mapTxSpends w))
                    done' todo' in
                conflict_loop fuel' env hashBlock conflictconfirms todo'' done'
                  {| mapWallet := dirty_inputs m1 (vin wtx');
                     mapTxSpends := mapTxSpends w;
                     db_tx := <[now := wtx']> (db_tx w);
                     notified := notified w |}
              else conflict_loop fuel' env hashBlock conflictconfirms todo' done' w
          end
      end
  end.

(** [MCWallet::MarkConflicted]. *)
Definition MarkConflicted (fuel : nat) (env : ChainEnv) (hashBlock hashTx : uint256)
    (w : MCWallet) : outcome MCWallet :=
  let conflictconfirms :=
    match block_depth env hashBlock with
    | Some d => - d
    | None => 0
    end in
  if conflictconfirms >=? 0 then Returned w
  else conflict_loop fuel env hashBlock conflictconfirms [hashTx] ∅ w.

(** The depth of a wallet transaction, 0 standing for one the wallet does
    not hold. *)
Definition depth_of (env : ChainEnv) (w : MCWallet) (h : uint256) : Z :=
  match mapWallet w !! h with
  | Some t => GetDepthInMainChain env t
  | None => 0
  end.

(** [x] is reached from [hashTx] through spends of transactions that a call
    of [MarkConflicted] with [conflictconfirms] has to mark. *)
Inductive reaches (env : ChainEnv) (w : MCWallet) (conflictconfirms : Z)
    (hashTx : uint256) : uint256 -> Prop :=
| reaches_self : reaches env w conflictconfirms hashTx hashTx
| reaches_spender (x y : uint256) (i : Z) :
    reaches env w conflictconfirms hashTx x ->
    conflictconfirms < depth_of env w x ->
    0 <= i ->
    ({| hash := x; n := i |}, y) ∈ mapTxSpends w ->
    reaches env w conflictconfirms hashTx y.

(** [std::set<uint256>]: the elements in increasing order. *)
Fixpoint increasing (l : list uint256) : Prop :=
  match l with
  | [] => True
  | x :: l' => (forall y, y ∈ l' -> x < y) /\ increasing l'
  end.

(** How a call of [AbandonTransaction] or [MarkConflicted] may change a
    wallet transaction: the inputs stay, and the block and index either
    stay or become [hb] and -1. *)
Definition updated (hb : uint256) (t t' : MCWalletTx) : Prop :=
  vin t' = vin t
  /\ ((hashBlock t' = hashBlock t /\ nIndex t' = nIndex t)
      \/ (hashBlock t' = hb /\ nIndex t' = -1)).

(** How such a call may change the wallet: the same transactions, each
    [updated], and the same [mapTxSpends]. *)
Definition evolves (hb : uint256) (w w' : MCWallet) : Prop :=
  mapTxSpends w' = mapTxSpends w
  /\ forall x, option_Forall2 (updated hb) (mapWallet w !! x) (mapWallet w' !! x).

(** What holds between the rounds of [MarkConflicted] for a block at depth
    [d], started on the wallet [w0]: the transactions done are in the
    wallet at depth [-d] or below, the others are as deep as at the start,
    and every spender of a transaction that had to be marked is done or
    queued. *)
Definition conflict_inv (env : ChainEnv) (d : Z) (hashTx : uint256)
    (w0 : MCWallet) (todo : list uint256) (done : gset uint256)
    (w : MCWallet) : Prop :=
  mapTxSpends w = mapTxSpends w0
  /\ (forall x, x ∈ done ->
        is_Some (mapWallet w !! x) /\ depth_of env w x <= - d)
  /\ (forall x, x ∉ done -> depth_of env w x = depth_of env w0 x)
  /\ (forall x y i, x ∈ done -> - d < depth_of env w0 x -> 0 <= i ->
        ({| hash := x; n := i |}, y) ∈ mapTxSpends w0 -> y ∈ done \/ y ∈ todo)
  /\ (hashTx ∈ done \/ hashTx ∈ todo).

(** A chain in which block 50 is the tip. *)
Definition tip_chain : ChainEnv :=
  {| block_depth := fun h => if h =? 50 then Some 1 else None;
     in_mempool := fun _ => false |}.

(** A wallet whose transaction 7 conflicts with block 50. *)
Definition conflicted_wallet : MCWallet :=
  {| mapWallet := {[ 7 := {| vin := []; hashBlock := 50; nIndex := -1;
                             fDirty := false |} ]};
     mapTxSpends := []; db_tx := ∅; notified := [] |}.

End Conflicts.

(** ** The key pool *)

Module KeyPool.

(** A public key stands for its identifier ([GetID()]), as in
    [HD.GenerateNewKey]; 0 is the default-constructed key, which is not
    valid. *)
Definition MCPubKey := Z.

Record MCKeyPool := {
  nTime : Z;
  vchPubKey : MCPubKey;
  fInternal : bool
}.

(** The part of [MCWallet] the key pool lives in.  [keys] is the part key
    generation touches; [vMasterKey_empty] says that the keystore holds no
    master key in memory; the two pools are [std::set<int64_t>], held as
    the lists of their elements in increasing order; [db_pool] holds what
    [WritePool] has persisted. *)
Record MCWallet := {
  keys : HD.MCWallet;
  vMasterKey_empty : bool;
  setInternalKeyPool : list Z;
  setExternalKeyPool : list Z;
  m_max_keypool_index : Z;
  m_pool_key_to_index : gmap Z Z;
  db_pool : gmap Z MCKeyPool
}.

(** The [-keypool] argument and whether [WritePool] succeeds. *)
Record PoolEnv := {
  keypool_arg : Z;
  write_pool_ok : bool
}.

Definition int64_max : Z := 9223372036854775807.

(** [std::set<int64_t>::insert]. *)
Definition set_insert : Z -> list Z -> list Z := Abandon.todo_insert.

(** The keystore's [IsLocked] (crypter.h is not part of the tree): a wallet
    that is not encrypted is never locked, as [TopUpKeyPool] on a fresh
    wallet relies on; an encrypted one is locked while it holds no master
    key. *)
Definition IsLocked (w : MCWallet) : bool :=
  if HD.fCrypted (keys w) then vMasterKey_empty w else false.

Definition hd_split (w : MCWallet) : bool :=
  HD.IsHDEnabled (keys w) && HD.CanSupportFeature (keys w) HD.FEATURE_HD_SPLIT.

Definition pool_of (internal : bool) (w : MCWallet) : list Z :=
  if internal then setInternalKeyPool w else setExternalKeyPool w.

Definition with_pool (internal : bool) (pool : list Z) (w : MCWallet) : MCWallet :=
  {| keys := keys w; vMasterKey_empty := vMasterKey_empty w;
     setInternalKeyPool := if internal then pool else setInternalKeyPool w;
     setExternalKeyPool := if internal then setExternalKeyPool w else pool;
     m_max_keypool_index := m_max_keypool_index w;
     m_pool_key_to_index := m_pool_key_to_index w;
     db_pool := db_pool w |}.

(** The [for] loop of [TopUpKeyPool]: [i] counts down, and the keys are
    internal from the round in which [i < missingInternal]. *)
Fixpoint topup_loop (fuel : nat) (b : HD.Bip32) (kenv : HD.KeyEnv) (penv : PoolEnv)
    (missingInternal : Z) (rounds : nat) (internal : bool) (w : MCWallet)
    : outcome MCWallet :=
  match rounds with
  | O => Returned w
  | S i =>
      let internal := if Z.of_nat i <? missingInternal then true else internal in
      if negb (m_max_keypool_index w <? int64_max)
      then Aborted "assert(m_max_keypool_index < std::numeric_limits<int64_t>::max())"
      else
        let index := m_max_keypool_index w + 1 in
        match HD.GenerateNewKey fuel b kenv internal (keys w) with
        | Aborted why => Aborted why
        | Returned (pubkey, ks) =>
            if negb (write_pool_ok penv)
            then Aborted "TopUpKeyPool: writing generated key failed"
            else
              topup_loop fuel b kenv penv missingInternal i internal
                {| keys := ks; vMasterKey_empty := vMasterKey_empty w;
                   setInternalKeyPool :=
                     if internal then set_insert index (setInternalKeyPool w)
                     else setInternalKeyPool w;
                   setExternalKeyPool :=
                     if internal then setExternalKeyPool w
                     else set_insert index (setExternalKeyPool w);
                   m_max_keypool_index := index;
                   m_pool_key_to_index := <[pubkey := index]> (m_pool_key_to_index w);
                   db_pool :=
                     <[index := {| nTime := HD.GetTime kenv; vchPubKey := pubkey;
                                   fInternal := internal |}]> (db_pool w) |}
        end
  end.

(** The size [TopUpKeyPool] fills a pool to. *)
Definition target_size (penv : PoolEnv) (kpSize : Z) : Z :=
  let nTargetSize :=
    if kpSize >? 0 then kpSize else HD.uint32 (Z.max (keypool_arg penv) 0) in
  Z.max nTargetSize 1.

(** [MCWallet::TopUpKeyPool]. *)
Definition TopUpKeyPool (fuel : nat) (b : HD.Bip32) (kenv : HD.KeyEnv)
    (penv : PoolEnv) (kpSize : Z) (w : MCWallet) : outcome (bool * MCWallet) :=
  if IsLocked w then Returned (false, w) else
  let missingExternal :=
    Z.max (target_size penv kpSize - Z.of_nat (length (setExternalKeyPool w))) 0 in
  let missingInternal :=
    Z.max (target_size penv kpSize - Z.of_nat (length (setInternalKeyPool w))) 0 in
  let missingInternal :=
    if negb (HD.IsHDEnabled (keys w))
       || negb (HD.CanSupportFeature (keys w) HD.FEATURE_HD_SPLIT)
    then 0 else missingInternal in
  match topup_loop fuel b kenv penv missingInternal
          (Z.to_nat (missingInternal + missingExternal)) false w with
  | Returned w' => Returned (true, w')
  | Aborted why => Aborted why
  end.

(** [MCWallet::LoadKeyPool]. *)
Definition LoadKeyPool (nIndex : Z) (keypool : MCKeyPool) (w : MCWallet) : MCWallet :=
  let ks := keys w in
  let keyid := vchPubKey keypool in
  {| keys :=
       {| HD.hdChain := HD.hdChain ks; HD.mapKeys := HD.mapKeys ks;
          HD.mapKeyMetadata :=
            match HD.mapKeyMetadata ks !! keyid with
            | Some _ => HD.mapKeyMetadata ks
            | None =>
                <[keyid := {| HD.nCreateTime := nTime keypool; HD.hdKeypath := "";
                              HD.hdMasterKeyID := 0 |}]> (HD.mapKeyMetadata ks)
            end;
          HD.nWalletVersion := HD.nWalletVersion ks;
          HD.nWalletMaxVersion := HD.nWalletMaxVersion ks;
          HD.nTimeFirstKey := HD.nTimeFirstKey ks; HD.fCrypted := HD.fCrypted ks;
          HD.db_hdchain := HD.db_hdchain ks; HD.db_keys := HD.db_keys ks;
          HD.db_minversion := HD.db_minversion ks |};
     vMasterKey_empty := vMasterKey_empty w;
     setInternalKeyPool :=
       if fInternal keypool then set_insert nIndex (setInternalKeyPool w)
       else setInternalKeyPool w;
     setExternalKeyPool :=
       if fInternal keypool then setExternalKeyPool w
       else set_insert nIndex (setExternalKeyPool w);
     m_max_keypool_index := Z.max (m_max_keypool_index w) nIndex;
     m_pool_key_to_index := <[keyid := nIndex]> (m_pool_key_to_index w);
     db_pool := db_pool w |}.

(** [MCWallet::ReserveKeyFromKeyPool]: [nIndex], [keypool] and the wallet
    afterwards.  [keypool] comes in by reference; an index of -1 says that
    the pool was empty. *)
Definition ReserveKeyFromKeyPool (fuel : nat) (b : HD.Bip32) (kenv : HD.KeyEnv)
    (penv : PoolEnv) (keypool : MCKeyPool) (fRequestedInternal : bool)
    (w : MCWallet) : outcome (Z * MCKeyPool * MCWallet) :=
  let keypool :=
    {| nTime := nTime keypool; vchPubKey := 0; fInternal := fInternal keypool |} in
  let topped :=
    if negb (IsLocked w) then
      match TopUpKeyPool fuel b kenv penv 0 w with
      | Returned (_, w1) => Returned w1
      | Aborted why => Aborted why
      end
    else Returned w in
  match topped with
  | Aborted why => Aborted why
  | Returned w1 =>
      let fReturningInternal := hd_split w1 && fRequestedInternal in
      match pool_of fReturningInternal w1 with
      | [] => Returned (-1, keypool, w1)
      | nIndex :: rest =>
          let w2 := with_pool fReturningInternal rest w1 in
          match db_pool w2 !! nIndex with
          | None => Aborted "ReserveKeyFromKeyPool: read failed"
          | Some keypool =>
              if negb (HD.HaveKey (keys w2) (vchPubKey keypool))
              then Aborted "ReserveKeyFromKeyPool: unknown key in key pool"
              else if negb (eqb (fInternal keypool) fReturningInternal)
              then Aborted "ReserveKeyFromKeyPool: keypool entry misclassified"
              else if vchPubKey keypool =? 0
              then Aborted "assert(keypool.vchPubKey.IsValid())"
              else
                Returned (nIndex, keypool,
                  {| keys := keys w2; vMasterKey_empty := vMasterKey_empty w2;
                     setInternalKeyPool := setInternalKeyPool w2;
                     setExternalKeyPool := setExternalKeyPool w2;
                     m_max_keypool_index := m_max_keypool_index w2;
                     m_pool_key_to_index :=
                       delete (vchPubKey keypool) (m_pool_key_to_index w2);
                     db_pool := db_pool w2 |})
          end
      end
  end.

(** [MCWallet::KeepKey]. *)
Definition KeepKey (nIndex : Z) (w : MCWallet) : MCWallet :=
  {| keys := keys w; vMasterKey_empty := vMasterKey_empty w;
     setInternalKeyPool := setInternalKeyPool w;
     setExternalKeyPool := setExternalKeyPool w;
     m_max_keypool_index := m_max_keypool_index w;
     m_pool_key_to_index := m_pool_key_to_index w;
     db_pool := delete nIndex (db_pool w) |}.

(** [MCWallet::ReturnKey]. *)
Definition ReturnKey (nIndex : Z) (fInternal : bool) (pubkey : MCPubKey)
    (w : MCWallet) : MCWallet :=
  {| keys := keys w; vMasterKey_empty := vMasterKey_empty w;
     setInternalKeyPool :=
       if fInternal then set_insert nIndex (setInternalKeyPool w)
       else setInternalKeyPool w;
     setExternalKeyPool :=
       if fInternal then setExternalKeyPool w
       else set_insert nIndex (setExternalKeyPool w);
     m_max_keypool_index := m_max_keypool_index w;
     m_pool_key_to_index := <[pubkey := nIndex]> (m_pool_key_to_index w);
     db_pool := db_pool w |}.

(** [MCWallet::GetKeyFromPool]: the value returned, [result] when it is
    assigned, and the wallet afterwards. *)
Definition GetKeyFromPool (fuel : nat) (b : HD.Bip32) (kenv : HD.KeyEnv)
    (penv : PoolEnv) (internal : bool) (w : MCWallet)
    : outcome (bool * option MCPubKey * MCWallet) :=
  let keypool := {| nTime := HD.GetTime kenv; vchPubKey := 0; fInternal := false |} in
  match ReserveKeyFromKeyPool fuel b kenv penv keypool internal w with
  | Aborted why => Aborted why
  | Returned (nIndex, keypool, w1) =>
      if nIndex =? -1 then
        if IsLocked w1 then Returned (false, None, w1)
        else
          match HD.GenerateNewKey fuel b kenv internal (keys w1) with
          | Aborted why => Aborted why
          | Returned (pubkey, ks) =>
              Returned (true, Some pubkey,
                {| keys := ks; vMasterKey_empty := vMasterKey_empty w1;
                   setInternalKeyPool := setInternalKeyPool w1;
                   setExternalKeyPool := setExternalKeyPool w1;
                   m_max_keypool_index := m_max_keypool_index w1;
                   m_pool_key_to_index := m_pool_key_to_index w1;
                   db_pool := db_pool w1 |})
          end
      else Returned (true, Some (vchPubKey keypool), KeepKey nIndex w1)
  end.

(** The [while] loop of [MarkReserveKeysAsUsed] over the chosen pool: the
    indices up to [keypool_id] are erased, from the pool, from the database
    and, when the entry can be read, from [m_pool_key_to_index]. *)
Fixpoint mark_used (keypool_id : Z) (pool : list Z) (key_to_index : gmap Z Z)
    (db : gmap Z MCKeyPool) : list Z * gmap Z Z * gmap Z MCKeyPool :=
  match pool with
  | [] => ([], key_to_index, db)
  | index :: rest =>
      if index >? keypool_id then (pool, key_to_index, db)
      else
        let key_to_index' :=
          match db !! index with
          | Some keypool => delete (vchPubKey keypool) key_to_index
          | None => key_to_index
          end in
        mark_used keypool_id rest key_to_index' (delete index db)
  end.

(** [MCWallet::MarkReserveKeysAsUsed]. *)
Definition MarkReserveKeysAsUsed (keypool_id : Z) (w : MCWallet) : outcome MCWallet :=
  let internal := bool_decide (keypool_id ∈ setInternalKeyPool w) in
  if negb internal && negb (bool_decide (keypool_id ∈ setExternalKeyPool w))
  then Aborted "assert(setExternalKeyPool.count(keypool_id))"
  else
    let '(pool, key_to_index, db) :=
      mark_used keypool_id (pool_of internal w) (m_pool_key_to_index w) (db_pool w) in
    Returned
      {| keys := keys w; vMasterKey_empty := vMasterKey_empty w;
         setInternalKeyPool := if internal then pool else setInternalKeyPool w;
         setExternalKeyPool := if internal then setExternalKeyPool w else pool;
         m_max_keypool_index := m_max_keypool_index w;
         m_pool_key_to_index := key_to_index;
         db_pool := db |}.

(** [MCWallet::NewKeyPool]. *)
Definition NewKeyPool (fuel : nat) (b : HD.Bip32) (kenv : HD.KeyEnv)
    (penv : PoolEnv) (w : MCWallet) : outcome (bool * MCWallet) :=
  let db1 := foldl (fun db nIndex => delete nIndex db) (db_pool w)
                   (setInternalKeyPool w) in
  let db2 := foldl (fun db nIndex => delete nIndex db) db1 (setExternalKeyPool w) in
  TopUpKeyPool fuel b kenv penv 0
    {| keys := keys w; vMasterKey_empty := vMasterKey_empty w;
       setInternalKeyPool := []; setExternalKeyPool := [];
       m_max_keypool_index := m_max_keypool_index w;
       m_pool_key_to_index := ∅;
       db_pool := db2 |}.

(** The pools as the wallet keeps them: both increasing, and no index above
    [m_max_keypool_index]. *)
Definition pool_ok (w : MCWallet) : Prop :=
  Conflicts.increasing (setInternalKeyPool w)
  /\ Conflicts.increasing (setExternalKeyPool w)
  /\ (forall internal j, j ∈ pool_of internal w -> j <= m_max_keypool_index w).

(** Every index of a pool is backed by a database entry of that pool, whose
    key is valid, held by the wallet, and mapped back to the index. *)
Definition pool_backed (w : MCWallet) : Prop :=
  forall internal j, j ∈ pool_of internal w ->
    exists kp, db_pool w !! j = Some kp /\ fInternal kp = internal
               /\ vchPubKey kp <> 0
               /\ HD.HaveKey (keys w) (vchPubKey kp) = true
               /\ m_pool_key_to_index w !! vchPubKey kp = Some j.

(** An unlocked HD wallet with an empty pool, and a locked wallet holding
    the external keys 3 and 5 and the internal key 4. *)
Definition empty_pool_wallet : MCWallet :=
  {| keys := HD.hd_wallet; vMasterKey_empty := true;
     setInternalKeyPool := []; setExternalKeyPool := [];
     m_max_keypool_index := 0; m_pool_key_to_index := ∅; db_pool := ∅ |}.

Definition plain_env : PoolEnv := {| keypool_arg := 2; write_pool_ok := true |}.

Definition locked_pool_wallet : MCWallet :=
  {| keys :=
       {| HD.hdChain := HD.hdChain HD.hd_wallet;
          HD.mapKeys := {[ 4294967296 + 42 := [42]; 103 := [3]; 104 := [4];
                           105 := [5] ]};
          HD.mapKeyMetadata := ∅;
          HD.nWalletVersion := 139900; HD.nWalletMaxVersion := 139900;
          HD.nTimeFirstKey := 0; HD.fCrypted := true;
          HD.db_hdchain := None; HD.db_keys := ∅; HD.db_minversion := None |};
     vMasterKey_empty := true;
     setInternalKeyPool := [4]; setExternalKeyPool := [3; 5];
     m_max_keypool_index := 5;
     m_pool_key_to_index := {[ 103 := 3; 104 := 4; 105 := 5 ]};
     db_pool := {[ 3 := {| nTime := 10; vchPubKey := 103; fInternal := false |};
                   4 := {| nTime := 20; vchPubKey := 104; fInternal := true |};
                   5 := {| nTime := 30; vchPubKey := 105; fInternal := false |} ]} |}.

End KeyPool.

(** * Properties *)

Module EncryptionFacts.
Import Encryption.

Lemma floor_iterations_ge (n : Z) : 25000 <= floor_iterations n.
Proof. unfold floor_iterations. destruct (Z.ltb_spec n 25000); lia. Qed.

Lemma Unlock_db (cr : MCCrypter) (pass : SecureString) (w : MCWallet) :
  db_mkey (Unlock cr pass w).2 = db_mkey w.
Proof.
  unfold Unlock.
  destruct (Unlock_loop cr pass (mapMasterKeys w) (keystore w)) as [ok ks].
  reflexivity.
Qed.

Lemma KS_Unlock_false (k : bytes) (ks ks' : MCCryptoKeyStore) :
  KS_Unlock k ks = (false, ks') -> ks' = ks.
Proof.
  unfold KS_Unlock. destruct (ks_secret ks) as [s|]; [|congruence].
  destruct (bytes_eqb s k); congruence.
Qed.

Lemma KS_Unlock_true (k : bytes) (ks ks' : MCCryptoKeyStore) :
  KS_Unlock k ks = (true, ks') ->
  KS_IsLocked ks' = false /\ KS_IsCrypted ks' = true.
Proof.
  unfold KS_Unlock, KS_IsLocked, KS_IsCrypted.
  destruct (ks_secret ks) as [s|] eqn:Hs; [|congruence].
  destruct (bytes_eqb s k); [|congruence].
  intros [= <-]. simpl. rewrite ?Hs. done.
Qed.

Lemma KS_Lock_locked (ks : MCCryptoKeyStore) :
  KS_IsCrypted ks = true -> KS_IsLocked (KS_Lock ks) = true.
Proof. unfold KS_IsLocked, KS_IsCrypted. simpl. by intros ->. Qed.

(** Case analysis on one round of the passphrase-change loop. *)
Ltac change_step cr oldp mk w :=
  destruct (SetKeyFromPassphrase cr oldp (vchSalt mk) (nDeriveIterations mk)
              (nDerivationMethod mk)) as [ck|];
  [ destruct (Decrypt cr ck (vchCryptedKey mk)) as [vmk|];
    [ destruct (KS_Unlock vmk (keystore w)) as [[|] ks] eqn:Hks | ] | ].

(** What the loop persists when it leaves through [return true]. *)
Lemma Change_loop_persists (cr : MCCrypter) (fp : Calibration) (env : ChangeEnv)
    (oldp newp : SecureString) (fWasLocked : bool)
    (todo done : list (Z * MCMasterKey)) (w w' : MCWallet) :
  Change_loop cr fp env oldp newp fWasLocked done todo w = (ExitChanged, w') ->
  exists id mk0 mk,
    (id, mk0) ∈ todo /\ db_mkey w' = <[id := mk]> (db_mkey w)
    /\ 25000 <= nDeriveIterations mk.
Proof.
  revert done w. induction todo as [|[id mk] rest IH]; intros done w; simpl.
  - discriminate.
  - change_step cr oldp mk w; try discriminate.
    + match goal with
      | |- context [SetKeyFromPassphrase cr newp ?s ?n ?m] =>
          destruct (SetKeyFromPassphrase cr newp s n m) as [ck'|]
      end; [|discriminate].
      destruct (Encrypt cr ck' vmk) as [crypted|]; [|discriminate].
      intros [= <-].
      eexists id, mk, _. split; [left|split].
      * destruct fWasLocked; reflexivity.
      * simpl. apply floor_iterations_ge.
    + intros H. apply IH in H as (id' & mk0 & mk' & Hin & Hdb & Hge).
      exists id', mk0, mk'. split; [right; exact Hin|]. split; [exact Hdb|exact Hge].
Qed.

(** How each [return] of the loop leaves the lock, entered with the wallet
    locked.  The two returns that follow the unlocking are taken only when
    the crypter fails for the new passphrase. *)
Lemma Change_loop_lock (cr : MCCrypter) (fp : Calibration) (env : ChangeEnv)
    (oldp newp : SecureString) (fWasLocked : bool)
    (todo done : list (Z * MCMasterKey)) (w w' : MCWallet) (e : change_exit) :
  IsLocked w = true ->
  Change_loop cr fp env oldp newp fWasLocked done todo w = (e, w') ->
  match e with
  | ExitDeriveOld | ExitDecryptOld | ExitNoKey => IsLocked w' = true
  | ExitChanged => IsLocked w' = fWasLocked
  | ExitDeriveNew | ExitEncryptNew => IsLocked w' = false /\ ~ crypter_total cr
  end.
Proof.
  revert done w. induction todo as [|[id mk] rest IH]; intros done w Hl; simpl.
  - intros [= <- <-]. exact Hl.
  - destruct (SetKeyFromPassphrase cr oldp (vchSalt mk) (nDeriveIterations mk)
                (nDerivationMethod mk)) as [ck|] eqn:Hold;
      [|intros [= <- <-]; exact Hl].
    destruct (Decrypt cr ck (vchCryptedKey mk)) as [vmk|];
      [|intros [= <- <-]; exact Hl].
    destruct (KS_Unlock vmk (keystore w)) as [[|] ks] eqn:Hks.
    + pose proof (KS_Unlock_true _ _ _ Hks) as [Hu Hc].
      match goal with
      | |- context [SetKeyFromPassphrase cr newp ?s ?n ?m] =>
          destruct (SetKeyFromPassphrase cr newp s n m) as [ck'|] eqn:Hnew
      end.
      * destruct (Encrypt cr ck' vmk) as [crypted|] eqn:Henc.
        -- intros [= <- <-]. destruct fWasLocked; [|exact Hu].
           by apply KS_Lock_locked.
        -- intros [= <- <-]. split; [exact Hu|].
           intros [_ Htot]. destruct (Htot ck' vmk) as [c Hc']. congruence.
      * intros [= <- <-]. split; [exact Hu|].
        intros [Htot _]. simpl in Hnew.
        destruct (Htot oldp newp (vchSalt mk) (nDeriveIterations mk)
                    (floor_iterations
                       (fp_average fp
                          (fp_scale fp (nDeriveIterations mk) (ch_dt_first env))
                          (ch_dt_second env)))
                    (nDerivationMethod mk)) as [c Hc'];
          [by rewrite Hold|apply floor_iterations_ge|congruence].
    + apply KS_Unlock_false in Hks as ->. apply IH.
      destruct w; exact Hl.
Qed.

(** C5. Whatever the two measured intervals, a successful [EncryptWallet]
    and a successful [ChangeWalletPassphrase] persist exactly one master-key
    record, and its derivation-iteration count is at least 25000. *)
Theorem persisted_iterations_at_least_25000 (cr : MCCrypter) (fp : Calibration) :
  (forall (env : EncryptEnv) (pass : SecureString) (w w' : MCWallet),
      EncryptWallet cr fp env pass w = Returned (true, w') ->
      exists mk, db_mkey w' = <[nMasterKeyMaxID w + 1 := mk]> (db_mkey w)
                 /\ 25000 <= nDeriveIterations mk)
  /\
  (forall (env : ChangeEnv) (oldp newp : SecureString) (w w' : MCWallet),
      ChangeWalletPassphrase cr fp env oldp newp w = (true, w') ->
      exists id mk0 mk,
        (id, mk0) ∈ mapMasterKeys w /\ db_mkey w' = <[id := mk]> (db_mkey w)
        /\ 25000 <= nDeriveIterations mk).
Proof.
  split.
  - intros env pass w w'. unfold EncryptWallet.
    destruct (IsCrypted w); [discriminate|].
    destruct (SetKeyFromPassphrase cr pass _ _ _) as [ck|]; [|discriminate].
    destruct (Encrypt cr ck _) as [crypted|]; [|discriminate].
    destruct (txn_begin_ok env); [|discriminate]. simpl negb. cbv iota.
    destruct (encrypt_keys_ok env); [|discriminate]. simpl negb. cbv iota.
    destruct (txn_commit_ok env); [|discriminate]. simpl negb. cbv iota.
    match goal with
    | |- context [if ?c then _ else _] => destruct c; [discriminate|]
    end.
    intros [= <-]. eexists. split.
    + cbn [Lock db_mkey]. rewrite Unlock_db. reflexivity.
    + simpl. apply floor_iterations_ge.
  - intros env oldp newp w w'. unfold ChangeWalletPassphrase, ChangeWalletPassphrase_at.
    destruct (Change_loop _ _ _ _ _ _ _ _ _) as [e w1] eqn:Hloop.
    intros [= He <-]. destruct e; try discriminate.
    apply Change_loop_persists in Hloop. exact Hloop.
Qed.

(** The floor at work: encrypting with two instantaneous trials. *)
Lemma persisted_iterations_witness :
  exists mk, db_mkey encrypted_wallet = <[1 := mk]> ∅
             /\ 25000 <= nDeriveIterations mk.
Proof.
  destruct (persisted_iterations_at_least_25000 toy_crypter toy_calibration)
    as [Henc _].
  destruct (Henc example_env "old" fresh_wallet
              (Lock encrypted_wallet)) as (mk & Hdb & Hge).
  - vm_compute. reflexivity.
  - exists mk. split; [exact Hdb|exact Hge].
Defined.




(** The two late returns in the model: with a crypter whose [Encrypt]
    reports failure, the call returns [false] and the wallet stays
    unlocked. *)
Example change_passphrase_late_failure :
  let r := ChangeWalletPassphrase failing_crypter toy_calibration
             example_change_env "old" "new" encrypted_wallet in
  r.1 = false /\ IsLocked r.2 = false.
Proof. vm_compute. split; reflexivity. Qed.

(** The crypter of the examples does not fail for a new passphrase. *)
Lemma toy_crypter_total : crypter_total toy_crypter.
Proof.
  split; [|by eexists]. intros p p' salt n n' m [ck Hck] Hn'. simpl in *.
  destruct (Z.leb_spec 1 n); [|done].
  destruct (Z.eqb_spec m 0) as [->|]; [|done].
  replace (1 <=? n') with true by (symmetry; apply Z.leb_le; lia). by eexists.
Qed.

End EncryptionFacts.

Module FeesFacts.
Import Fees.

Lemma clamp_fee_value (env : FeeEnv) (n fee : Z) (fc : option FeeReason) :
  (clamp_fee env n fee fc).1
  = Z.min (Z.max fee (GetRequiredFee env n)) (maxTxFee env).
Proof.
  unfold clamp_fee.
  destruct (Z.ltb_spec fee (GetRequiredFee env n)) as [Hlt|Hge].
  - rewrite (Z.max_r fee) by lia.
    destruct (Z.gtb_spec (GetRequiredFee env n) (maxTxFee env)); simpl; lia.
  - rewrite (Z.max_l fee) by lia.
    destruct (Z.gtb_spec fee (maxTxFee env)); simpl; lia.
Qed.

(** C2 (as amended). With an explicit coin-control fee rate,
    [GetMinimumFee] returns the fee of that rate for the size when the
    override flag is set; without the flag it returns that fee floored at
    the required fee and capped at the maximum fee.  Nothing else is read:
    not the confirmation target, the flat fee, the fallback fee, the
    estimator or the mempool minimum. *)
Theorem explicit_rate_fee (env : FeeEnv) (nTxBytes : Z) (cc : MCCoinControl)
    (feeCalc : option FeeReason) (rate : MCFeeRate) :
  m_feerate cc = Some rate ->
  (GetMinimumFee env nTxBytes cc feeCalc).1
  = if fOverrideFeeRate cc
    then GetFee env rate nTxBytes
    else Z.min (Z.max (GetFee env rate nTxBytes) (GetRequiredFee env nTxBytes))
               (maxTxFee env).
Proof.
  intros Hrate. unfold GetMinimumFee. rewrite Hrate.
  destruct (fOverrideFeeRate cc); [reflexivity|apply clamp_fee_value].
Qed.

Lemma explicit_rate_fee_witness :
  (GetMinimumFee default_env 1000 (with_rate 500 true) None).1 = 500
  /\ (GetMinimumFee default_env 1000 (with_rate 500 false) None).1 = 1000.
Proof.
  split.
  - rewrite (explicit_rate_fee default_env 1000 (with_rate 500 true) None 500);
      reflexivity.
  - rewrite (explicit_rate_fee default_env 1000 (with_rate 500 false) None 500);
      reflexivity.
Defined.

(** C2 as stated fails: a supplied rate of 500 per kB for 1000 bytes is
    raised to the required fee of 1000. *)
Lemma explicit_rate_is_floored :
  m_feerate (with_rate 500 false) = Some 500
  /\ (GetMinimumFee default_env 1000 (with_rate 500 false) None).1
     <> GetFee default_env 500 1000.
Proof. split; [reflexivity|]. vm_compute. discriminate. Qed.

End FeesFacts.

Module RandomFacts.
Import Random.

Lemma swap_at_perm {A} (a b : nat) (l : list A) : swap_at a b l ≡ₚ l.
Proof.
  unfold swap_at. destruct (l !! a) as [x|] eqn:Ha; [|done].
  destruct (l !! b) as [y|] eqn:Hb; [|done].
  by apply Permutation_insert_swap.
Qed.

Lemma shuffle_from_perm {A} (steps k : nat) (ds : list Z) (v : list A) :
  (shuffle_from steps k ds v).1 ≡ₚ v.
Proof.
  revert k ds v. induction steps as [|steps IH]; intros k ds v; simpl; [done|].
  destruct (GetRandInt _ ds) as [r ds']. rewrite IH. apply swap_at_perm.
Qed.

Lemma random_shuffle_perm {A} (ds : list Z) (v : list A) :
  (random_shuffle ds v).1 ≡ₚ v.
Proof. apply shuffle_from_perm. Qed.

End RandomFacts.

Module CoinSelectionFacts.
Import Random CoinSelection RandomFacts.

Lemma total_value_perm (l k : list MCInputCoin) :
  l ≡ₚ k -> total_value l = total_value k.
Proof. induction 1; simpl; lia. Qed.

Lemma total_value_app (l k : list MCInputCoin) :
  total_value (l ++ k) = total_value l + total_value k.
Proof. induction l; simpl; lia. Qed.

Lemma total_value_nonneg (l : list MCInputCoin) :
  Forall (fun d => 0 <= value d) l -> 0 <= total_value l.
Proof. induction 1; simpl; lia. Qed.

Lemma total_value_bound (l : list MCInputCoin) (c : MCInputCoin) :
  Forall (fun d => 0 <= value d) l -> c ∈ l -> value c <= total_value l.
Proof.
  induction 1 as [|d l Hd Hl IH]; intros Hin.
  - by apply elem_of_nil in Hin.
  - pose proof (total_value_nonneg l Hl).
    apply elem_of_cons in Hin as [->|Hin]; simpl; [lia|].
    specialize (IH Hin). lia.
Qed.

Lemma outpoint_eqb_eq (a b : MCOutPoint) : outpoint_eqb a b = true -> a = b.
Proof.
  unfold outpoint_eqb. destruct a, b; simpl.
  intros [->%Z.eqb_eq ->%Z.eqb_eq]%andb_true_iff. reflexivity.
Qed.

(** ** The set of selected coins *)

Lemma set_insert_elem (c x : MCInputCoin) (s : list MCInputCoin) :
  x ∈ set_insert c s -> x = c \/ x ∈ s.
Proof.
  induction s as [|d s IH]; simpl.
  - intros ->%list_elem_of_singleton. by left.
  - destruct (outpoint_ltb _ _).
    + intros [->|H]%elem_of_cons; [by left|by right].
    + destruct (outpoint_eqb _ _); [by right|].
      intros [->|H]%elem_of_cons; [right; left|].
      destruct (IH H) as [->|?]; [by left|right; by right].
Qed.

Lemma set_insert_keeps (c d : MCInputCoin) (s : list MCInputCoin) :
  d ∈ s -> d ∈ set_insert c s.
Proof.
  induction s as [|e s IH]; simpl.
  { intros H. by apply elem_of_nil in H. }
  destruct (outpoint_ltb _ _); [by right|].
  destruct (outpoint_eqb _ _); [done|].
  intros [->|H]%elem_of_cons; [left|right; auto].
Qed.

Lemma set_insert_holds (c : MCInputCoin) (s : list MCInputCoin) :
  exists d, d ∈ set_insert c s /\ outpoint d = outpoint c.
Proof.
  induction s as [|e s IH]; simpl.
  - exists c. split; [left|done].
  - destruct (outpoint_ltb _ _); [exists c; split; [left|done]|].
    destruct (outpoint_eqb _ _) eqn:He.
    + exists e. split; [left|]. symmetry. by apply outpoint_eqb_eq.
    + destruct IH as (d & Hd & Ho). exists d. split; [by right|done].
Qed.

Lemma insert_all_spec (vValue : list MCInputCoin) (s0 : list MCInputCoin) (v0 : Z) :
  let r := foldl (fun acc c => (set_insert c acc.1, acc.2 + value c))
                 (s0, v0) vValue in
  r.2 = v0 + total_value vValue
  /\ (forall x, x ∈ r.1 -> x ∈ s0 \/ x ∈ vValue)
  /\ (forall x, x ∈ s0 -> x ∈ r.1)
  /\ (forall c, c ∈ vValue -> exists d, d ∈ r.1 /\ outpoint d = outpoint c).
Proof.
  revert s0 v0. induction vValue as [|c l IH]; intros s0 v0; simpl.
  - split; [lia|]. split; [by left|]. split; [done|].
    intros c Hc. by apply elem_of_nil in Hc.
  - destruct (IH (set_insert c s0) (v0 + value c)) as (Hv & Hsub & Hkeep & Hall).
    split; [simpl in Hv; lia|]. split; [|split].
    + intros x Hx. destruct (Hsub x Hx) as [Hx'|Hx'].
      * destruct (set_insert_elem _ _ _ Hx') as [->|?]; [right; left|by left].
      * right. by right.
    + intros x Hx. apply Hkeep. by apply set_insert_keeps.
    + intros x [->|Hx]%elem_of_cons; [|by apply Hall].
      destruct (set_insert_holds c s0) as (d & Hd & Ho).
      exists d. split; [by apply Hkeep|done].
Qed.

(** ** The first loop *)

Section Scan.
Context (env : SelectEnv) (target nConfMine nConfTheirs nMaxAncestors : Z).

Local Abbreviation cands := (candidates env nConfMine nConfTheirs nMaxAncestors).
Local Abbreviation lower :=
  (filter (fun c : MCInputCoin => value c < target + MIN_CHANGE env)).
Local Abbreviation do_scan := (scan env target nConfMine nConfTheirs nMaxAncestors).
Local Abbreviation pass := (passes env nConfMine nConfTheirs nMaxAncestors).

Lemma candidates_skip (o : MCOutput) (l : list MCOutput) :
  pass o = false -> cands (o :: l) = cands l.
Proof.
  intros H. unfold candidates. rewrite filter_cons_False; [done|]. by rewrite H.
Qed.

Lemma candidates_take (o : MCOutput) (l : list MCOutput) :
  pass o = true ->
  cands (o :: l) = match MCInputCoin_new (tx o) (i o) with
                   | Some c => c :: cands l
                   | None => cands l
                   end.
Proof.
  intros H. unfold candidates. rewrite filter_cons_True; [|done]. reflexivity.
Qed.

Lemma scan_skip (o : MCOutput) (rest : list MCOutput) lo v t :
  pass o = false -> do_scan (o :: rest) lo v t = do_scan rest lo v t.
Proof.
  unfold passes. simpl.
  destruct (fSpendable o); [|done]. simpl.
  destruct (nDepth o <? _); [done|]. simpl.
  destruct (TransactionWithinChainLimit env _ _); [discriminate|done].
Qed.

Lemma scan_take (o : MCOutput) (rest : list MCOutput) lo v t :
  pass o = true ->
  do_scan (o :: rest) lo v t
  = match MCInputCoin_new (tx o) (i o) with
    | None => CtorThrew
    | Some coin =>
        if value coin =? target then ExactMatch coin
        else if value coin <? target + MIN_CHANGE env then
          do_scan rest lo (v ++ [coin]) (t + value coin)
        else if match lo with None => true | Some l => value coin <? value l end
        then do_scan rest (Some coin) v t
        else do_scan rest lo v t
    end.
Proof.
  unfold passes. simpl.
  destruct (fSpendable o); [|discriminate]. simpl.
  destruct (nDepth o <? _); [discriminate|]. simpl.
  destruct (TransactionWithinChainLimit env _ _); [done|discriminate].
Qed.

Lemma scan_never_throws (vCoins : list MCOutput) lo v t :
  (forall o, o ∈ vCoins -> pass o = true -> well_formed o) ->
  do_scan vCoins lo v t <> CtorThrew.
Proof.
  revert lo v t. induction vCoins as [|o rest IH]; intros lo v t Hwf; [done|].
  assert (Hrest : forall o', o' ∈ rest -> pass o' = true -> well_formed o').
  { intros o' Ho'. apply Hwf. by right. }
  destruct (pass o) eqn:Hp.
  - rewrite scan_take by done.
    destruct (Hwf o) as (c & -> & _); [left|done|].
    destruct (value c =? target); [done|].
    destruct (value c <? _); [by apply IH|].
    destruct (match lo with None => true | Some l => value c <? value l end);
      by apply IH.
  - rewrite scan_skip by done. by apply IH.
Qed.

Lemma scan_exact (vCoins : list MCOutput) lo v t (c : MCInputCoin) :
  do_scan vCoins lo v t = ExactMatch c -> c ∈ cands vCoins /\ value c = target.
Proof.
  revert lo v t. induction vCoins as [|o rest IH]; intros lo v t; [done|].
  destruct (pass o) eqn:Hp.
  - rewrite scan_take, candidates_take by done.
    destruct (MCInputCoin_new (tx o) (i o)) as [coin|]; [|done].
    destruct (Z.eqb_spec (value coin) target) as [He|Hne].
    { intros [= <-]. split; [left|done]. }
    intros H.
    assert (c ∈ cands rest /\ value c = target) as [? ?].
    { destruct (value coin <? _); [by eapply IH|].
      destruct (match lo with None => true | Some l => value coin <? value l end);
        by eapply IH. }
    split; [by right|done].
  - rewrite scan_skip, candidates_skip by done. apply IH.
Qed.

Lemma scan_no_exact (vCoins : list MCOutput) (pre : list MCInputCoin) lo v t lo' v' t' :
  do_scan vCoins lo v t = NoExact lo' v' t' ->
  lowest_larger env target pre lo ->
  (forall c, c ∈ cands vCoins -> value c <> target)
  /\ v' = v ++ lower (cands vCoins)
  /\ t' = t + total_value (lower (cands vCoins))
  /\ lowest_larger env target (pre ++ cands vCoins) lo'.
Proof.
  revert pre lo v t. induction vCoins as [|o rest IH]; intros pre lo v t.
  - simpl. intros [= <- <- <-] Hlo. unfold candidates. rewrite filter_nil. simpl.
    rewrite !app_nil_r. split; [intros c Hc; by apply elem_of_nil in Hc|].
    split; [done|]. split; [lia|done].
  - destruct (pass o) eqn:Hp.
    2:{ rewrite scan_skip, candidates_skip by done. apply IH. }
    rewrite scan_take, candidates_take by done.
    destruct (MCInputCoin_new (tx o) (i o)) as [coin|]; [|done].
    destruct (Z.eqb_spec (value coin) target) as [He|Hne]; [done|].
    destruct (Z.ltb_spec (value coin) (target + MIN_CHANGE env)) as [Hlow|Hhigh].
    + intros H Hlo.
      destruct (IH (pre ++ [coin]) lo _ _ H) as (Hne' & -> & -> & Hlo').
      { destruct lo as [l|]; simpl in *.
        - destruct Hlo as (Hin & Hnl & Hmin). split; [apply elem_of_app; by left|].
          split; [done|]. intros c [Hc|Hc%list_elem_of_singleton]%elem_of_app Hc';
            [by apply Hmin|]. subst c. lia.
        - intros c [Hc|Hc%list_elem_of_singleton]%elem_of_app; [by apply Hlo|].
          by subst c. }
      rewrite filter_cons_True by done. simpl. rewrite <- !app_assoc in *. simpl in *.
      split; [|split; [done|split; [lia|done]]].
      intros c [->|Hc]%elem_of_cons; [done|by apply Hne'].
    + rewrite filter_cons_False by lia.
      assert (Hcons : forall l, pre ++ coin :: l = (pre ++ [coin]) ++ l)
        by (intros l; by rewrite <- app_assoc).
      destruct (match lo with None => true | Some l => value coin <? value l end) eqn:Hb.
      * intros H Hlo.
        destruct (IH (pre ++ [coin]) (Some coin) _ _ H) as (Hne' & -> & -> & Hlo').
        { simpl. split; [apply elem_of_app; right; left|]. split; [lia|].
          intros c [Hc|Hc%list_elem_of_singleton]%elem_of_app Hc'; [|subst c; lia].
          destruct lo as [l|]; simpl in Hlo.
          - destruct Hlo as (_ & _ & Hmin). apply Z.ltb_lt in Hb.
            specialize (Hmin c Hc Hc'). lia.
          - specialize (Hlo c Hc). lia. }
        rewrite Hcons. split; [|done].
        intros c [->|Hc]%elem_of_cons; [done|by apply Hne'].
      * intros H Hlo.
        destruct (IH (pre ++ [coin]) lo _ _ H) as (Hne' & -> & -> & Hlo').
        { destruct lo as [l|]; [|discriminate]. simpl in *.
          destruct Hlo as (Hin & Hnl & Hmin). apply Z.ltb_ge in Hb.
          split; [apply elem_of_app; by left|]. split; [done|].
          intros c [Hc|Hc%list_elem_of_singleton]%elem_of_app Hc';
            [by apply Hmin|by subst c]. }
        rewrite Hcons. split; [|done].
        intros c [->|Hc]%elem_of_cons; [done|by apply Hne'].
Qed.

End Scan.

Lemma candidates_perm (env : SelectEnv) (nConfMine nConfTheirs nMaxAncestors : Z)
    (l k : list MCOutput) :
  l ≡ₚ k ->
  candidates env nConfMine nConfTheirs nMaxAncestors l
  ≡ₚ candidates env nConfMine nConfTheirs nMaxAncestors k.
Proof. intros H. unfold candidates. by rewrite H. Qed.

Lemma candidates_nonneg (env : SelectEnv) (nConfMine nConfTheirs nMaxAncestors : Z)
    (vCoins : list MCOutput) (c : MCInputCoin) :
  (forall o, o ∈ vCoins ->
             passes env nConfMine nConfTheirs nMaxAncestors o = true -> well_formed o) ->
  c ∈ candidates env nConfMine nConfTheirs nMaxAncestors vCoins -> 0 <= value c.
Proof.
  intros Hwf (o & [Hp Ho]%list_elem_of_filter & Hc)%list_elem_of_omap.
  destruct (Hwf o Ho Hp) as (c' & Hc' & Hpos). congruence.
Qed.

(** C1. Over the candidates that pass the confirmation and ancestor-limit
    filters (well-formed outputs of non-negative value, [MIN_CHANGE] not
    negative): a candidate of exactly the target value is returned alone,
    with total equal to the target; otherwise, if the candidates below
    [target + MIN_CHANGE] sum to the target, all of them are returned;
    otherwise, if that sum is below the target, a candidate of least value
    among those of value at least the target is returned alone, and the
    call returns [false] when there is none. *)
Theorem SelectCoinsMinConf_tiers (env : SelectEnv) (rnd : Rand)
    (target nConfMine nConfTheirs nMaxAncestors : Z) (vCoins : list MCOutput) :
  0 <= MIN_CHANGE env ->
  (forall o, o ∈ vCoins ->
             passes env nConfMine nConfTheirs nMaxAncestors o = true -> well_formed o) ->
  let cands := candidates env nConfMine nConfTheirs nMaxAncestors vCoins in
  let lower := filter (fun c => value c < target + MIN_CHANGE env) cands in
  let r := SelectCoinsMinConf env rnd target nConfMine nConfTheirs nMaxAncestors vCoins in
  ((exists c, c ∈ cands /\ value c = target) ->
   exists c, c ∈ cands /\ value c = target /\ r = Returned (true, [c], target))
  /\
  ((forall c, c ∈ cands -> value c <> target) ->
   (total_value lower = target ->
    exists s, r = Returned (true, s, target)
              /\ (forall c, c ∈ s -> c ∈ lower)
              /\ (forall c, c ∈ lower -> exists d, d ∈ s /\ outpoint d = outpoint c))
   /\
   (total_value lower < target ->
    ((forall c, c ∈ cands -> value c < target) -> r = Returned (false, [], 0))
    /\
    ((exists c, c ∈ cands /\ target <= value c) ->
     exists c, c ∈ cands /\ target <= value c
               /\ (forall d, d ∈ cands -> target <= value d -> value c <= value d)
               /\ r = Returned (true, [c], value c)))).
Proof.
  intros Hmin Hwf cands lower r.
  pose proof (random_shuffle_perm (draws rnd) vCoins) as Hperm.
  pose proof (candidates_perm env nConfMine nConfTheirs nMaxAncestors _ _ Hperm)
    as Hcperm.
  assert (Hwf' : forall o, o ∈ (random_shuffle (draws rnd) vCoins).1 ->
            passes env nConfMine nConfTheirs nMaxAncestors o = true -> well_formed o).
  { intros o Ho. apply Hwf. by rewrite <- Hperm. }
  assert (Hpos : Forall (fun d => 0 <= value d) lower).
  { apply Forall_forall. intros c [_ Hc]%list_elem_of_filter.
    eapply candidates_nonneg; [exact Hwf|exact Hc]. }
  subst r. unfold SelectCoinsMinConf.
  set (shuffled := (random_shuffle (draws rnd) vCoins).1) in *.
  fold (candidates env nConfMine nConfTheirs nMaxAncestors shuffled) in Hcperm.
  destruct (scan env target nConfMine nConfTheirs nMaxAncestors shuffled None [] 0)
    as [coin|lo v t|] eqn:Hscan.
  - apply scan_exact in Hscan as [Hin Hval]. rewrite Hcperm in Hin.
    split.
    + intros _. exists coin. rewrite Hval. done.
    + intros Hne. by destruct (Hne coin Hin).
  - apply (scan_no_exact _ _ _ _ _ _ []) in Hscan as (Hne & Hv & Ht & Hlo);
      [|intros c Hc; by apply elem_of_nil in Hc].
    simpl in Hv, Ht, Hlo.
    assert (Hlow : filter (fun c => value c < target + MIN_CHANGE env)
                     (candidates env nConfMine nConfTheirs nMaxAncestors shuffled)
                   ≡ₚ lower) by (subst lower cands; by rewrite Hcperm).
    rewrite (total_value_perm _ _ Hlow) in Ht.
    split.
    + intros (c & Hc & Hval). unfold cands in Hc. rewrite <- Hcperm in Hc.
      by destruct (Hne c Hc).
    + intros _. split.
      * intros Hsum. replace (t =? target) with true by (symmetry; apply Z.eqb_eq; lia).
        destruct (insert_all_spec v [] 0) as (Hval & Hsub & _ & Hall).
        unfold insert_all.
        destruct (foldl _ _ v) as [s val]. simpl in *.
        exists s. split; [repeat f_equal; rewrite Hval, Hv, (total_value_perm _ _ Hlow); lia|].
        split.
        -- intros c Hc. destruct (Hsub c Hc) as [Hc'|Hc'];
             [by apply elem_of_nil in Hc'|]. rewrite <- Hlow. by rewrite <- Hv.
        -- intros c Hc. apply Hall. rewrite Hv. by rewrite Hlow.
      * intros Hsum.
        replace (t =? target) with false by (symmetry; apply Z.eqb_neq; lia).
        replace (t <? target) with true by (symmetry; apply Z.ltb_lt; lia).
        assert (Hsmall : forall c, c ∈ lower -> value c < target).
        { intros c Hc. pose proof (total_value_bound _ _ Hpos Hc). lia. }
        assert (Hbig : forall c, c ∈ cands -> target <= value c ->
                                 ~ value c < target + MIN_CHANGE env).
        { intros c Hc Hge Hlt.
          assert (c ∈ lower) by (apply list_elem_of_filter; done).
          specialize (Hsmall c H). lia. }
        destruct lo as [l|]; simpl in Hlo.
        -- destruct Hlo as (Hin & Hnl & Hleast). rewrite Hcperm in Hin.
           split.
           ++ intros Hall. specialize (Hall l Hin). lia.
           ++ intros _. exists l. split; [done|]. split; [lia|]. split; [|done].
              intros d Hd Hge. apply Hleast; [by rewrite Hcperm|by apply Hbig].
        -- split; [done|].
           intros (c & Hc & Hge). exfalso. apply (Hbig c Hc Hge).
           apply Hlo. by rewrite Hcperm.
  - by apply scan_never_throws in Hscan.
Qed.

(** The second example of the spec: outputs 2 and 3 sum to the target 5. *)
Example SelectCoinsMinConf_lower_sum :
  exists s, SelectCoinsMinConf example_select_env example_rand 5 1 6 0
              [coin_of 1 2; coin_of 2 3] = Returned (true, s, 5)
            /\ value <$> s = [2; 3].
Proof. eexists. split; vm_compute; reflexivity. Qed.

(** The example of the spec: outputs 1, 4 and 9, target 9. *)
Lemma SelectCoinsMinConf_tiers_witness :
  exists c, value c = 9
    /\ SelectCoinsMinConf example_select_env example_rand 9 1 6 0
         [coin_of 1 1; coin_of 2 4; coin_of 3 9] = Returned (true, [c], 9).
Proof.
  destruct (SelectCoinsMinConf_tiers example_select_env example_rand 9 1 6 0
              [coin_of 1 1; coin_of 2 4; coin_of 3 9]) as [Hexact _].
  - vm_compute. discriminate.
  - intros o Ho _.
    repeat (apply elem_of_cons in Ho as [->|Ho]);
      [eexists; split; [reflexivity|vm_compute; discriminate] ..|].
    by apply elem_of_nil in Ho.
  - destruct Hexact as (c & _ & Hv & Hr).
    + exists {| outpoint := {| hash := 3; n := 0 |};
                txout := {| nValue := 9; scriptPubKey := [] |} |}.
      split; [|reflexivity]. vm_compute. do 2 right. left.
    + exists c. split; [exact Hv|exact Hr].
Defined.

End CoinSelectionFacts.

Module CommitFacts.
Import Commit.

Lemma AddToWallet_records (env : CommitEnv) (wtxIn : MCWalletTx) (w : MCWallet) :
  is_Some (mapWallet (AddToWallet env wtxIn w).2 !! wtx_hash wtxIn).
Proof.
  unfold AddToWallet.
  destruct (mapWallet w !! wtx_hash wtxIn) as [old|].
  - destruct (merge_wtx wtxIn old) as [wtx1 upd]. simpl.
    destruct (upd && negb (write_tx_ok env)); simpl;
      [|destruct upd; simpl]; rewrite lookup_insert_eq; eauto.
  - simpl. destruct (negb (write_tx_ok env)); simpl;
      rewrite lookup_insert_eq; eauto.
Qed.

Lemma AddToWallet_pools (env : CommitEnv) (wtxIn : MCWalletTx) (w : MCWallet) :
  let w' := (AddToWallet env wtxIn w).2 in
  setInternalKeyPool w' = setInternalKeyPool w
  /\ setExternalKeyPool w' = setExternalKeyPool w
  /\ db_pool w' = db_pool w
  /\ fBroadcastTransactions w' = fBroadcastTransactions w.
Proof.
  unfold AddToWallet.
  destruct (mapWallet w !! wtx_hash wtxIn) as [old|].
  - destruct (merge_wtx wtxIn old) as [wtx1 upd]. simpl.
    destruct (upd && negb (write_tx_ok env)); simpl; [done|].
    destruct upd; done.
  - simpl. destruct (negb (write_tx_ok env)); done.
Qed.

Lemma notify_spent_keeps (l : list (uint256 * Z)) (w : MCWallet) (h : uint256) :
  is_Some (mapWallet w !! h) ->
  is_Some (mapWallet (foldl notify_spent w l) !! h).
Proof.
  revert w. induction l as [|p l IH]; intros w Hw; simpl; [done|].
  apply IH. simpl. destruct (decide (p.1 = h)) as [->|Hne].
  - rewrite lookup_insert_eq. eauto.
  - by rewrite lookup_insert_ne.
Qed.

Lemma notify_spent_pools (l : list (uint256 * Z)) (w : MCWallet) :
  let w' := foldl notify_spent w l in
  setInternalKeyPool w' = setInternalKeyPool w
  /\ setExternalKeyPool w' = setExternalKeyPool w
  /\ db_pool w' = db_pool w
  /\ fBroadcastTransactions w' = fBroadcastTransactions w.
Proof.
  revert w. induction l as [|p l IH]; intros w; simpl; [done|].
  destruct (IH (notify_spent w p)) as (-> & -> & -> & ->). done.
Qed.

(** What [AddToWallet] leaves behind, whether or not the database write
    succeeds: a record of the transaction under its hash (a new one, or the
    one held before with the news merged in), its spends, and every other
    record as it was. *)
Lemma AddToWallet_spec (env : CommitEnv) (wtxIn : MCWalletTx) (w : MCWallet) :
  let w' := (AddToWallet env wtxIn w).2 in
  let h := wtx_hash wtxIn in
  (exists t, mapWallet w' !! h = Some t
     /\ match mapWallet w !! h with
        | None =>
            same_transaction t wtxIn
            /\ nTimeReceived t = adjusted_time env
            /\ nOrderPos t = nOrderPosNext w
            /\ mapTxSpends w' = mapTxSpends w ++ ((fun o => (o, h)) <$> vin wtxIn)
            /\ nOrderPosNext w' = nOrderPosNext w + 1
            /\ (write_tx_ok env = true ->
                exists d, db_tx w' = <[h := d]> (db_tx w) /\ t = mark_dirty d)
            /\ (write_tx_ok env = false -> db_tx w' = db_tx w)
        | Some old =>
            same_transaction t (merge_wtx wtxIn old).1
            /\ mapTxSpends w' = mapTxSpends w
            /\ nOrderPosNext w' = nOrderPosNext w
        end)
  /\ (forall x, x <> h -> mapWallet w' !! x = mapWallet w !! x)
  /\ (forall x, is_Some (db_tx w !! x) -> is_Some (db_tx w' !! x)).
Proof.
  unfold AddToWallet.
  destruct (mapWallet w !! wtx_hash wtxIn) as [old|] eqn:Hold.
  - destruct (merge_wtx wtxIn old) as [wtx1 upd] eqn:Hm. simpl.
    destruct (upd && negb (write_tx_ok env)) eqn:Hfail; simpl.
    + split; [|split].
      * eexists. rewrite lookup_insert_eq. split; [done|]. by repeat split.
      * intros x Hx. by rewrite lookup_insert_ne.
      * done.
    + split; [|split].
      * eexists. rewrite lookup_insert_eq. split; [done|].
        destruct upd; by repeat split.
      * intros x Hx. rewrite lookup_insert_ne by done.
        destruct upd; simpl; by rewrite lookup_insert_ne.
      * intros x Hx. destruct upd; simpl; [|done].
        destruct (decide (wtx_hash wtxIn = x)) as [<-|Hne];
          [rewrite lookup_insert_eq; eauto|by rewrite lookup_insert_ne].
  - simpl. destruct (write_tx_ok env) eqn:Hw; simpl.
    + split; [|split].
      * eexists. rewrite lookup_insert_eq. split; [done|].
        repeat split; try done.
        -- intros _. eexists. split; done.
      * intros x Hx. by rewrite !lookup_insert_ne.
      * intros x Hx.
        destruct (decide (wtx_hash wtxIn = x)) as [<-|Hne];
          [rewrite lookup_insert_eq; eauto|by rewrite lookup_insert_ne].
    + split; [|split].
      * eexists. rewrite lookup_insert_eq. split; [done|]. by repeat split.
      * intros x Hx. by rewrite lookup_insert_ne.
      * done.
Qed.

Lemma notify_spent_same (l : list (uint256 * Z)) (w : MCWallet) :
  let w' := foldl notify_spent w l in
  mapTxSpends w' = mapTxSpends w
  /\ db_tx w' = db_tx w
  /\ nOrderPosNext w' = nOrderPosNext w
  /\ (forall x t, mapWallet w !! x = Some t -> mapWallet w' !! x = Some t).
Proof.
  revert w. induction l as [|p l IH]; intros w; simpl; [done|].
  destruct (IH (notify_spent w p)) as (-> & -> & -> & Hkeep).
  repeat split; try done.
  intros x t Hx. apply Hkeep. simpl.
  destruct (decide (p.1 = x)) as [->|Hne].
  - by rewrite lookup_insert_eq, Hx.
  - by rewrite lookup_insert_ne.
Qed.



End CommitFacts.

Module AbandonFacts.
Import Abandon.

(** A confirmed transaction, or one in the mempool, is refused and the
    wallet is returned as it was. *)
Lemma AbandonTransaction_refuses (fuel : nat) (env : ChainEnv) (hashTx : uint256)
    (w : MCWallet) (origtx : MCWalletTx) :
  mapWallet w !! hashTx = Some origtx ->
  0 < GetDepthInMainChain env origtx \/ in_mempool env hashTx = true ->
  AbandonTransaction fuel env hashTx w = Returned (false, w).
Proof.
  intros Hw Hc. unfold AbandonTransaction. rewrite Hw.
  destruct Hc as [Hd|Hm].
  - apply Z.ltb_lt in Hd. by rewrite Hd.
  - rewrite Hm. by rewrite orb_true_r.
Qed.

(** C3, evaluated on the chain 1 <- 2 <- 3 of unconfirmed transactions:
    abandoning 1 returns [true], marks 1 and its spender 2 (and persists
    both), and leaves 3, which spends an output of the abandoned 2, as it
    was: the second round looks up the spends of 1 again, not those of 2. *)
Theorem AbandonTransaction_misses_grandchild :
  exists w',
    AbandonTransaction 10 idle_chain 1 chain_wallet = Returned (true, w')
    /\ abandoned_in w' 1 = true
    /\ abandoned_in w' 2 = true
    /\ abandoned_in w' 3 = false
    /\ mapWallet w' !! 3 = mapWallet chain_wallet !! 3
    /\ is_Some (db_tx w' !! 1) /\ is_Some (db_tx w' !! 2) /\ db_tx w' !! 3 = None.
Proof.
  eexists. split; [vm_compute; reflexivity|].
  repeat split; try (vm_compute; reflexivity); vm_compute; eauto.
Qed.

End AbandonFacts.

Module HDFacts.
Import HD.

Lemma uint32_succ (c : Z) (m : nat) :
  uint32 (uint32 (c + 1) + Z.of_nat m) = uint32 (c + Z.of_nat (S m)).
Proof.
  unfold uint32. rewrite Zplus_mod_idemp_l. f_equal. lia.
Qed.

Lemma uint32_small (c : Z) : 0 <= c < 4294967296 -> uint32 (c + Z.of_nat 0) = c.
Proof. intros H. unfold uint32. rewrite Z.add_0_r. by apply Z.mod_small. Qed.

Lemma uint32_range (z : Z) : 0 <= uint32 z < 4294967296.
Proof. unfold uint32. apply Z.mod_pos_bound. lia. Qed.

(** The child index is in the hardened range. *)
Lemma hardened_index (k : Z) :
  0 <= k < 4294967296 ->
  2147483648 <= Z.lor k BIP32_HARDENED_KEY_LIMIT < 4294967296.
Proof.
  intros Hk. unfold BIP32_HARDENED_KEY_LIMIT.
  assert (Hnn : 0 <= Z.lor k 2147483648) by (apply Z.lor_nonneg; lia).
  assert (Hnz : Z.lor k 2147483648 <> 0).
  { intros H0. apply Z.lor_eq_0_iff in H0 as [_ H0]. discriminate. }
  assert (Hlog : Z.log2 (Z.lor k 2147483648) = 31).
  { rewrite Z.log2_lor by lia. change (Z.log2 2147483648) with 31.
    destruct (Z.eq_dec k 0) as [->|Hk0]; [reflexivity|].
    assert (Z.log2 k < 32) by (apply Z.log2_lt_pow2; lia). lia. }
  pose proof (Z.log2_spec (Z.lor k 2147483648)) as Hs.
  rewrite Hlog in Hs. change (2 ^ 31) with 2147483648 in Hs.
  change (2 ^ Z.succ 31) with 4294967296 in Hs. lia.
Qed.

Lemma bump_with_counter (internal : bool) (c : CHDChain) :
  bump internal c = with_counter internal (uint32 (counter_of internal c + 1)) c.
Proof. by destruct internal. Qed.

Lemma with_counter_twice (internal : bool) (u v : Z) (c : CHDChain) :
  with_counter internal v (with_counter internal u c) = with_counter internal v c.
Proof. by destruct internal. Qed.

Lemma counter_of_with_counter (internal : bool) (v : Z) (c : CHDChain) :
  counter_of internal (with_counter internal v c) = v.
Proof. by destruct internal. Qed.

(** The loop skips [j] known leaves and stops at the first unknown one. *)
Lemma derive_loop_skips (b : Bip32) (ck : bytes) (internal : bool)
    (have : Z -> bool) (j : nat) :
  forall (fuel : nat) (chain : CHDChain),
    let c := counter_of internal chain in
    let child k := Derive b ck (Z.lor k BIP32_HARDENED_KEY_LIMIT) in
    0 <= c < 4294967296 ->
    (j < fuel)%nat ->
    (forall m, (m < j)%nat ->
               have (key_id b (ext_secret b (child (uint32 (c + Z.of_nat m))))) = true) ->
    have (key_id b (ext_secret b (child (uint32 (c + Z.of_nat j))))) = false ->
    derive_loop fuel b ck internal have chain
    = Some (child (uint32 (c + Z.of_nat j)),
            keypath internal (uint32 (c + Z.of_nat j)),
            with_counter internal (uint32 (uint32 (c + Z.of_nat j) + 1)) chain).
Proof.
  induction j as [|j IH]; intros fuel chain c child Hc Hfuel Hknown Hnew.
  - destruct fuel as [|fuel]; [lia|]. simpl.
    rewrite (uint32_small c Hc) in *. fold c. fold (child c). rewrite Hnew.
    by rewrite bump_with_counter.
  - destruct fuel as [|fuel]; [lia|]. simpl. fold c. fold (child c).
    pose proof (Hknown 0%nat ltac:(lia)) as H0. rewrite (uint32_small c Hc) in H0.
    rewrite H0. rewrite bump_with_counter. fold c.
    rewrite IH.
    + rewrite counter_of_with_counter, with_counter_twice, !uint32_succ. reflexivity.
    + rewrite counter_of_with_counter. apply uint32_range.
    + lia.
    + intros m Hm. rewrite counter_of_with_counter, uint32_succ. apply Hknown. lia.
    + rewrite counter_of_with_counter, uint32_succ. exact Hnew.
Qed.

(** One call of [GenerateNewKey] on an HD wallet, in full. *)
Lemma GenerateNewKey_hd_step (b : Bip32) (env : KeyEnv) (w : MCWallet)
    (internal : bool) (j fuel : nat) (key : bytes) :
  IsHDEnabled w = true ->
  mapKeys w !! masterKeyID (hdChain w) = Some key ->
  write_hdchain_ok env = true ->
  add_key_ok env = true ->
  fCrypted w = true \/ write_key_ok env = true ->
  let chain := if CanSupportFeature w FEATURE_HD_SPLIT then internal else false in
  let c := counter_of chain (hdChain w) in
  let known k := HaveKey w (key_id b (ext_secret b (leaf b w chain k))) in
  0 <= c < 4294967296 ->
  (j < fuel)%nat ->
  (forall m, (m < j)%nat -> known (uint32 (c + Z.of_nat m)) = true) ->
  known (uint32 (c + Z.of_nat j)) = false ->
  let k := uint32 (c + Z.of_nat j) in
  let secret := ext_secret b (leaf b w chain k) in
  let id := key_id b secret in
  exists w',
    GenerateNewKey fuel b env internal w = Returned (id, w')
    /\ mapKeys w' = <[id := secret]> (mapKeys w)
    /\ hdKeypath <$> mapKeyMetadata w' !! id = Some (keypath chain k)
    /\ hdChain w' = with_counter chain (uint32 (k + 1)) (hdChain w)
    /\ db_hdchain w' = Some (hdChain w')
    /\ fCrypted w' = fCrypted w
    /\ nWalletMaxVersion w <= nWalletMaxVersion w'.
Proof.
  intros Hhd Hkey Hwc Hadd Hwk chain c known Hc Hfuel Hknown Hnew k secret id.
  unfold GenerateNewKey. rewrite Hhd. fold chain.
  unfold DeriveNewChildKey. rewrite Hkey.
  assert (Hassert : chain && negb (CanSupportFeature w FEATURE_HD_SPLIT) = false).
  { subst chain. destruct (CanSupportFeature w FEATURE_HD_SPLIT); [|done].
    by rewrite andb_false_r. }
  rewrite Hassert.
  unfold known, leaf in Hknown, Hnew. rewrite Hkey in Hknown, Hnew.
  rewrite (derive_loop_skips b _ chain (HaveKey w) j fuel (hdChain w) Hc Hfuel
             Hknown Hnew).
  rewrite Hwc. fold c. fold k.
  assert (Hsecret : ext_secret b
            (Derive b
               (Derive b (Derive b (SetMaster b key) BIP32_HARDENED_KEY_LIMIT)
                  (BIP32_HARDENED_KEY_LIMIT + (if chain then 1 else 0)))
               (Z.lor k BIP32_HARDENED_KEY_LIMIT)) = secret).
  { subst secret. unfold leaf. by rewrite Hkey. }
  rewrite Hsecret. fold id. rewrite Hadd. simpl negb. cbv iota.
  set (w1 := set_hdChain _ true w).
  set (w2 := if CanSupportFeature w FEATURE_COMPRPUBKEY
             then SetMinVersion FEATURE_COMPRPUBKEY w1 else w1).
  assert (H2 : hdChain w2 = hdChain w1 /\ mapKeys w2 = mapKeys w1
               /\ db_hdchain w2 = db_hdchain w1 /\ fCrypted w2 = fCrypted w1
               /\ nWalletMaxVersion w1 <= nWalletMaxVersion w2).
  { subst w2. destruct (CanSupportFeature w FEATURE_COMPRPUBKEY); [|repeat split; lia].
    unfold SetMinVersion. destruct (nWalletVersion w1 >=? FEATURE_COMPRPUBKEY);
      simpl; repeat split; lia. }
  destruct H2 as (Hc2 & Hk2 & Hd2 & Hf2 & Hv2).
  assert (Hw : negb (fCrypted w2) && negb (write_key_ok env) = false).
  { rewrite Hf2. simpl. destruct Hwk as [->| ->]; [done|by rewrite andb_false_r]. }
  rewrite Hw. eexists. split; [reflexivity|]. simpl.
  rewrite Hk2, Hc2, Hd2, Hf2. simpl.
  rewrite lookup_insert_eq. simpl. repeat split; try done.
Qed.

(** An external derivation at counter [c] whose leaf is new to the wallet. *)
Lemma GenerateNewKey_external_fresh (b : Bip32) (env : KeyEnv) (w : MCWallet)
    (fuel : nat) (key : bytes) (c : Z) :
  masterKeyID (hdChain w) <> 0 ->
  mapKeys w !! masterKeyID (hdChain w) = Some key ->
  write_hdchain_ok env = true ->
  add_key_ok env = true ->
  fCrypted w = true \/ write_key_ok env = true ->
  nExternalChainCounter (hdChain w) = c ->
  0 <= c < 4294967295 ->
  (0 < fuel)%nat ->
  let secret := ext_secret b (leaf b w false c) in
  let id := key_id b secret in
  HaveKey w id = false ->
  exists w',
    GenerateNewKey fuel b env false w = Returned (id, w')
    /\ hdKeypath <$> mapKeyMetadata w' !! id = Some (keypath false c)
    /\ mapKeys w' = <[id := secret]> (mapKeys w)
    /\ masterKeyID (hdChain w') = masterKeyID (hdChain w)
    /\ nExternalChainCounter (hdChain w') = c + 1
    /\ fCrypted w' = fCrypted w
    /\ db_hdchain w' = Some (hdChain w').
Proof.
  intros Hm Hkey Hwc Hadd Hwk Hc Hr Hfuel secret id Hnew.
  assert (Hhd : IsHDEnabled w = true).
  { unfold IsHDEnabled. apply negb_true_iff. by apply Z.eqb_neq. }
  assert (Hch : (if CanSupportFeature w FEATURE_HD_SPLIT then false else false) = false)
    by (by destruct (CanSupportFeature w FEATURE_HD_SPLIT)).
  destruct (GenerateNewKey_hd_step b env w false 0 fuel key Hhd Hkey Hwc Hadd Hwk)
    as (w' & Hret & Hkeys & Hpath & Hchain & Hdb & Hcr & _).
  - rewrite Hch. simpl. lia.
  - exact Hfuel.
  - intros m Hlt. lia.
  - rewrite Hch. simpl counter_of. rewrite uint32_small by lia. rewrite Hc. exact Hnew.
  - rewrite Hch in *. simpl counter_of in *. rewrite uint32_small in * by lia.
    rewrite Hc in *. exists w'. repeat split; try done.
    + by rewrite Hchain.
    + rewrite Hchain. simpl. unfold uint32. apply Z.mod_small. lia.
Qed.

Lemma leaf_same_master (b : Bip32) (w w' : MCWallet) (internal : bool) (k : Z) :
  masterKeyID (hdChain w') = masterKeyID (hdChain w) ->
  mapKeys w' !! masterKeyID (hdChain w) = mapKeys w !! masterKeyID (hdChain w) ->
  leaf b w' internal k = leaf b w internal k.
Proof. intros Hm Hk. unfold leaf. by rewrite Hm, Hk. Qed.

Lemma HaveKey_insert (w w' : MCWallet) (id x : Z) (secret : bytes) :
  mapKeys w' = <[id := secret]> (mapKeys w) -> x <> id ->
  HaveKey w x = false -> HaveKey w' x = false.
Proof. intros Hk Hne <-. unfold HaveKey. by rewrite Hk, lookup_insert_ne. Qed.

Lemma HaveKey_false (w : MCWallet) (x : Z) :
  HaveKey w x = false -> mapKeys w !! x = None.
Proof.
  unfold HaveKey. intros H%bool_decide_eq_false.
  destruct (mapKeys w !! x); [|done]. destruct H. eauto.
Qed.

(** C6. On an HD wallet whose master key is at hand and whose database
    accepts the writes: [GenerateNewKey] derives its leaf at the hardened
    child index of path m/0'/0'/k' (external) or m/0'/1'/k' (internal, and
    only when the chain-split feature is supported), where [k] is the first
    counter value from the current one whose leaf the wallet does not know;
    it leaves the counter at [k + 1] and the HD chain record it persisted is
    the updated one.  Three successive external derivations from counter 0
    that meet no known key produce m/0'/0'/0', m/0'/0'/1', m/0'/0'/2'. *)
Theorem GenerateNewKey_hd (b : Bip32) (env : KeyEnv) (w : MCWallet) (key : bytes) :
  masterKeyID (hdChain w) <> 0 ->
  mapKeys w !! masterKeyID (hdChain w) = Some key ->
  write_hdchain_ok env = true ->
  add_key_ok env = true ->
  fCrypted w = true \/ write_key_ok env = true ->
  (forall (internal : bool) (j fuel : nat),
     let chain := if CanSupportFeature w FEATURE_HD_SPLIT then internal else false in
     let c := counter_of chain (hdChain w) in
     let known k := HaveKey w (key_id b (ext_secret b (leaf b w chain k))) in
     0 <= c < 4294967296 ->
     (j < fuel)%nat ->
     (forall m, (m < j)%nat -> known (uint32 (c + Z.of_nat m)) = true) ->
     known (uint32 (c + Z.of_nat j)) = false ->
     let k := uint32 (c + Z.of_nat j) in
     let secret := ext_secret b (leaf b w chain k) in
     exists w',
       GenerateNewKey fuel b env internal w = Returned (key_id b secret, w')
       /\ mapKeys w' !! key_id b secret = Some secret
       /\ hdKeypath <$> mapKeyMetadata w' !! key_id b secret = Some (keypath chain k)
       /\ 2147483648 <= Z.lor k BIP32_HARDENED_KEY_LIMIT < 4294967296
       /\ (chain = true -> internal = true /\ CanSupportFeature w FEATURE_HD_SPLIT = true)
       /\ counter_of chain (hdChain w') = uint32 (k + 1)
       /\ counter_of (negb chain) (hdChain w') = counter_of (negb chain) (hdChain w)
       /\ db_hdchain w' = Some (hdChain w'))
  /\
  (nExternalChainCounter (hdChain w) = 0 ->
   let id k := key_id b (ext_secret b (leaf b w false k)) in
   HaveKey w (id 0) = false -> HaveKey w (id 1) = false -> HaveKey w (id 2) = false ->
   id 0 <> id 1 -> id 0 <> id 2 -> id 1 <> id 2 ->
   forall fuel, (0 < fuel)%nat ->
   successive_paths fuel b env 3 w
   = ["m/0'/0'/0'"; "m/0'/0'/1'"; "m/0'/0'/2'"]%string).
Proof.
  intros Hm Hkey Hwc Hadd Hwk. split.
  - intros internal j fuel chain c known Hc Hfuel Hknown Hnew k secret.
    assert (Hhd : IsHDEnabled w = true).
    { unfold IsHDEnabled. apply negb_true_iff. by apply Z.eqb_neq. }
    destruct (GenerateNewKey_hd_step b env w internal j fuel key Hhd Hkey Hwc Hadd
                Hwk Hc Hfuel Hknown Hnew)
      as (w' & Hret & Hkeys & Hpath & Hchain & Hdb & _ & _).
    exists w'. split; [exact Hret|]. split; [by rewrite Hkeys, lookup_insert_eq|].
    split; [exact Hpath|]. split; [apply hardened_index, uint32_range|].
    split; [|split; [|split; [|exact Hdb]]].
    + subst chain. destruct (CanSupportFeature w FEATURE_HD_SPLIT); [|discriminate].
      intros ->. done.
    + fold chain k in Hchain. rewrite Hchain. apply counter_of_with_counter.
    + fold chain k in Hchain. rewrite Hchain. by destruct chain.
  - intros Hc0 id H0 H1 H2 H01 H02 H12 fuel Hfuel.
    pose proof (HaveKey_false _ _ H0) as Hn0.
    assert (Hm0 : masterKeyID (hdChain w) <> id 0) by (intros E; congruence).
    pose proof (HaveKey_false _ _ H1) as Hn1.
    assert (Hm1 : masterKeyID (hdChain w) <> id 1) by (intros E; congruence).
    (* first derivation *)
    destruct (GenerateNewKey_external_fresh b env w fuel key 0 Hm Hkey Hwc Hadd Hwk
                Hc0 ltac:(lia) Hfuel H0)
      as (w1 & Hr1 & Hp1 & Hk1 & Hmk1 & Hcn1 & Hcr1 & _).
    assert (Hkey1 : mapKeys w1 !! masterKeyID (hdChain w1) = Some key).
    { rewrite Hmk1, Hk1, lookup_insert_ne; [done|]. intros E. by apply Hm0. }
    assert (Hl1 : forall k, leaf b w1 false k = leaf b w false k).
    { intros k. apply leaf_same_master; [done|]. rewrite Hk1, lookup_insert_ne; [done|].
      intros E. by apply Hm0. }
    (* second derivation *)
    assert (Hmz1 : masterKeyID (hdChain w1) <> 0) by congruence.
    assert (Hwk1 : fCrypted w1 = true \/ write_key_ok env = true)
      by (rewrite Hcr1; exact Hwk).
    assert (Hc1 : nExternalChainCounter (hdChain w1) = 1) by lia.
    assert (Hnew1 : HaveKey w1 (key_id b (ext_secret b (leaf b w1 false 1))) = false).
    { rewrite Hl1. eapply HaveKey_insert; [exact Hk1| |exact H1].
      intros E. by apply H01. }
    destruct (GenerateNewKey_external_fresh b env w1 fuel key 1 Hmz1 Hkey1 Hwc Hadd
                Hwk1 Hc1 ltac:(lia) Hfuel Hnew1)
      as (w2 & Hr2 & Hp2 & Hk2 & Hmk2 & Hcn2 & Hcr2 & _).
    rewrite Hl1 in Hr2, Hp2, Hk2.
    assert (Hkey2 : mapKeys w2 !! masterKeyID (hdChain w2) = Some key).
    { rewrite Hmk2, Hk2, lookup_insert_ne; [done|]. rewrite Hmk1. intros E. by apply Hm1. }
    assert (Hl2 : forall k, leaf b w2 false k = leaf b w false k).
    { intros k. rewrite <- Hl1. apply leaf_same_master; [done|].
      rewrite Hk2, lookup_insert_ne; [done|]. rewrite Hmk1. intros E. by apply Hm1. }
    (* third derivation *)
    assert (Hmz2 : masterKeyID (hdChain w2) <> 0) by congruence.
    assert (Hwk2 : fCrypted w2 = true \/ write_key_ok env = true)
      by (rewrite Hcr2; exact Hwk1).
    assert (Hc2 : nExternalChainCounter (hdChain w2) = 2) by lia.
    assert (Hnew2 : HaveKey w2 (key_id b (ext_secret b (leaf b w2 false 2))) = false).
    { rewrite Hl2. eapply HaveKey_insert; [exact Hk2|intros E; by apply H12|].
      eapply HaveKey_insert; [exact Hk1|intros E; by apply H02|exact H2]. }
    destruct (GenerateNewKey_external_fresh b env w2 fuel key 2 Hmz2 Hkey2 Hwc Hadd
                Hwk2 Hc2 ltac:(lia) Hfuel Hnew2)
      as (w3 & Hr3 & Hp3 & _).
    rewrite Hl2 in Hr3, Hp3.
    simpl. rewrite Hr1, Hp1. simpl. rewrite Hr2, Hp2. simpl. rewrite Hr3, Hp3.
    reflexivity.
Qed.

Lemma GenerateNewKey_hd_witness :
  successive_paths 1 toy_bip32 toy_env 3 hd_wallet
  = ["m/0'/0'/0'"; "m/0'/0'/1'"; "m/0'/0'/2'"]%string.
Proof.
  refine (proj2 (GenerateNewKey_hd toy_bip32 toy_env hd_wallet [42] _ _ _ _ _)
            _ _ _ _ _ _ _ 1%nat _);
    first [ right; reflexivity | lia | vm_compute; reflexivity
          | vm_compute; discriminate ].
Defined.

End HDFacts.

Module AddrManFacts.
Import Random AddrMan RandomFacts.

Lemma fresh_not_terrible (pol : TerriblePolicy) (now : Z) (r : PeerAddressRecord) :
  0 <= horizon pol -> 0 <= max_failures pol -> fresh now r ->
  IsTerrible pol now r = false.
Proof.
  intros Hh Hf [Ht Ha]. unfold IsTerrible. rewrite Ht, Ha.
  apply orb_false_iff. split; rewrite Z.gtb_ltb; apply Z.ltb_ge; lia.
Qed.

Lemma filter_keeps_all {A} (P : A -> Prop) `{forall x, Decision (P x)} (l : list A) :
  (forall x, x ∈ l -> P x) -> filter P l = l.
Proof.
  induction l as [|x l IH]; intros Hall; [done|].
  rewrite filter_cons_True by (apply Hall; left).
  f_equal. apply IH. intros y Hy. apply Hall. by right.
Qed.

Lemma quota_le (n : nat) : (23 * n / 100 <= n)%nat.
Proof.
  apply Nat.Div0.div_le_upper_bound. lia.
Qed.

(** C7 (as amended).  [GetAddr] returns stored addresses, none of them
    terrible, as many as the smaller of floor(23% of the number of stored
    addresses) and the number of stored addresses that are not terrible.
    So it returns nothing on an empty manager, exactly floor(23%) when all
    stored addresses are fresh, and 461 when 2006 fresh ones are stored. *)
Theorem GetAddr_quota (pol : TerriblePolicy) (now : Z) (ds : list Z) (am : MCAddrMan) :
  let r := GetAddr pol now ds am in
  let quota := (23 * size am / 100)%nat in
  let usable := filter (fun x => IsTerrible pol now x = false)
                       (map_to_list (mapInfo am)).*2 in
  length r = (quota `min` length usable)%nat
  /\ (forall x, x ∈ r ->
                IsTerrible pol now x = false /\ exists id, mapInfo am !! id = Some x)
  /\ (size am = 0%nat -> r = [])
  /\ (0 <= horizon pol -> 0 <= max_failures pol ->
      (forall id x, mapInfo am !! id = Some x -> fresh now x) ->
      length r = quota /\ (size am = 2006%nat -> length r = 461%nat)).
Proof.
  intros r quota usable. subst r. unfold GetAddr. fold quota.
  pose proof (random_shuffle_perm ds (map_to_list (mapInfo am)).*2) as Hperm.
  set (shuffled := (random_shuffle ds (map_to_list (mapInfo am)).*2).1) in *.
  assert (Hlen : length (filter (fun x => IsTerrible pol now x = false) shuffled)
                 = length usable).
  { subst usable. by rewrite Hperm. }
  assert (Hsize : length (map_to_list (mapInfo am)).*2 = size am).
  { rewrite length_fmap. apply length_map_to_list. }
  split; [by rewrite length_take, Hlen|]. split; [|split].
  - intros x Hx%subseteq_take. apply list_elem_of_filter in Hx as [Ht Hx].
    split; [done|]. rewrite Hperm in Hx.
    apply list_elem_of_fmap in Hx as ([id y] & -> & Hy).
    exists id. by apply elem_of_map_to_list.
  - intros H0. subst quota. rewrite H0. reflexivity.
  - intros Hh Hf Hfresh.
    assert (Hall : usable = (map_to_list (mapInfo am)).*2).
    { subst usable. apply filter_keeps_all.
      intros x ([id y] & -> & Hy)%list_elem_of_fmap.
      apply fresh_not_terrible; [done..|]. eapply Hfresh.
      by apply elem_of_map_to_list. }
    assert (Hq : length (take quota
                   (filter (fun x => IsTerrible pol now x = false) shuffled)) = quota).
    { rewrite length_take, Hlen, Hall, Hsize. pose proof (quota_le (size am)).
      subst quota. lia. }
    split; [exact Hq|]. intros H2006. rewrite Hq. subst quota. by rewrite H2006.
Qed.

Lemma manager_of_fresh (seen : Z) (n id : nat) (x : PeerAddressRecord) :
  mapInfo (manager_of seen n) !! id = Some x -> fresh seen x.
Proof.
  intros H%elem_of_list_to_map_2.
  apply list_elem_of_fmap in H as (k & [= _ ->] & _). done.
Qed.

Lemma GetAddr_quota_witness :
  length (GetAddr month_policy 100 [7; 1; 12; 5] (manager_of 100 2006)) = 461%nat.
Proof.
  destruct (GetAddr_quota month_policy 100 [7; 1; 12; 5] (manager_of 100 2006))
    as (_ & _ & _ & Hfresh).
  apply Hfresh.
  - vm_compute. discriminate.
  - vm_compute. discriminate.
  - intros id x. apply manager_of_fresh.
  - vm_compute. reflexivity.
Defined.

(** C7 as stated fails: of five stored addresses last seen long ago, none
    is returned, while 23% of five, rounded down, is one. *)
Lemma GetAddr_all_terrible :
  size (manager_of 0 5) = 5%nat
  /\ length (GetAddr month_policy 1000000000 [] (manager_of 0 5))
     <> (23 * size (manager_of 0 5) / 100)%nat.
Proof. split; [vm_compute; reflexivity|vm_compute; discriminate]. Qed.

Lemma Good_occupied (place : Placement) (a : NetworkAddress) (am : MCAddrMan) (occ : nat) :
  vvTried am !! place (nKey am) (ip a) = Some occ -> Good place a am = am.
Proof.
  intros Hocc. unfold Good. destruct (find_new am a) as [[pos id]|]; [|done].
  by rewrite Hocc.
Qed.

(** The state of the ports test itself: an address that has no entry of
    its own in the new table is not promoted either. *)
Lemma Good_unknown_address (place : Placement) (a : NetworkAddress) (am : MCAddrMan) :
  find_new am a = None -> Good place a am = am.
Proof. intros Hnone. unfold Good. by rewrite Hnone. Qed.

Lemma Select_can_return (am : MCAddrMan) (r : PeerAddressRecord) :
  r ∈ entries am (vvNew am) -> exists ds, Select true ds am = Some r.
Proof.
  intros Hr. pose proof Hr as [k Hk]%list_elem_of_lookup.
  pose proof (lookup_lt_Some _ _ _ Hk) as Hlt.
  exists [Z.of_nat k]. unfold Select.
  destruct (entries am (vvNew am)) as [|e pool] eqn:Hpool; [simpl in Hlt; lia|].
  simpl GetRandInt. cbn [fst]. simpl in Hlt.
  rewrite Z.mod_small by lia. by rewrite Nat2Z.id.
Qed.

Lemma Select_only (am : MCAddrMan) (r : PeerAddressRecord) (ds : list Z) :
  entries am (vvNew am) = [r] -> Select true ds am = Some r.
Proof.
  intros Hone. unfold Select. rewrite Hone. destruct ds as [|d ds]; simpl; [done|].
  by rewrite Z.mod_1_r.
Qed.

(** C8.  When the tried position of an address is taken, [Good] on an
    address of the same IP and another port changes nothing: the manager
    has the size it had, the tried table is what it was (the occupant keeps
    its place and nothing is promoted), and the stored record of that IP
    stays in the new table, where [Select] with [newOnly] can still return
    it, and does return it when it is the only entry there. *)
Theorem Good_other_port_not_promoted (place : Placement) (am : MCAddrMan)
    (a a' : NetworkAddress) (occ : nat) (r : PeerAddressRecord) :
  ip a' = ip a -> port a' <> port a ->
  vvTried am !! place (nKey am) (ip a) = Some occ ->
  r ∈ entries am (vvNew am) -> addr r = a ->
  let am' := Good place a' am in
  size am' = size am
  /\ vvTried am' = vvTried am
  /\ vvTried am' !! place (nKey am') (ip a) = Some occ
  /\ r ∈ entries am' (vvNew am')
  /\ (exists ds, Select true ds am' = Some r)
  /\ (entries am (vvNew am) = [r] -> forall ds, Select true ds am' = Some r).
Proof.
  intros Hip _ Hocc Hr _ am'. subst am'.
  rewrite (Good_occupied place a' am occ) by (by rewrite Hip).
  repeat split; try done.
  - by apply Select_can_return.
  - intros Hone ds. by apply Select_only.
Qed.

Lemma Good_other_port_witness :
  let am' := Good one_position {| ip := 4194369793; port := 8334 |} ports_manager in
  size am' = 2%nat
  /\ exists r, addr r = {| ip := 4194369793; port := 8333 |}
               /\ forall ds, Select true ds am' = Some r.
Proof.
  set (r := {| addr := {| ip := 4194369793; port := 8333 |};
               nTime := 100; source := 0; nAttempts := 0 |}).
  destruct (Good_other_port_not_promoted one_position ports_manager
              {| ip := 4194369793; port := 8333 |}
              {| ip := 4194369793; port := 8334 |} 1%nat r)
    as (Hsize & _ & _ & _ & _ & Honly).
  - reflexivity.
  - vm_compute. discriminate.
  - vm_compute. reflexivity.
  - vm_compute. left.
  - reflexivity.
  - split; [rewrite Hsize; vm_compute; reflexivity|].
    exists r. split; [reflexivity|]. apply Honly. vm_compute. reflexivity.
Defined.

End AddrManFacts.

Module CreateTxFacts.
Import Random Fees CreateTx.

Lemma payees_ok (env : TxEnv) (fee nSub : Z) (vecSend : list MCRecipient) :
  forall (fFirst : bool) (outs : list MCTxOut),
    payees env fee nSub fFirst vecSend = inr outs ->
    Forall (fun o => IsDust env o (dustRelayFee env) = false) outs
    /\ length outs = length vecSend.
Proof.
  induction vecSend as [|r rest IH]; intros fFirst outs; simpl.
  - intros [= <-]. split; [constructor|done].
  - destruct (IsDust env _ _) eqn:Hd; [discriminate|].
    destruct (payees env fee nSub _ rest) as [e|outs'] eqn:Hp; [discriminate|].
    intros [= <-]. destruct (IH _ _ Hp) as [Hf Hl].
    split; [by constructor|simpl; by rewrite Hl].
Qed.

Lemma lookup_insert_at {A} (k : nat) (c : A) (outs extra : list A) :
  (k <= length outs)%nat -> (insert_at k c outs ++ extra) !! k = Some c.
Proof.
  intros Hk. unfold insert_at. rewrite <- app_assoc. simpl.
  apply list_lookup_middle. rewrite length_take. lia.
Qed.

Lemma update_insert_at {A} (k : nat) (c c' : A) (outs extra : list A) :
  (k <= length outs)%nat ->
  <[k := c']> (insert_at k c outs ++ extra) = insert_at k c' outs ++ extra.
Proof.
  intros Hk. unfold insert_at. rewrite <- !app_assoc. simpl.
  assert (Hlen : length (take k outs) = k) by (rewrite length_take; lia).
  rewrite <- (Nat.add_0_r k) at 1. rewrite <- Hlen at 1.
  by rewrite insert_app_r.
Qed.

Lemma adjust_insert_at (pos delta : Z) (c : MCTxOut) (outs extra : list MCTxOut) :
  (Z.to_nat pos <= length outs)%nat ->
  adjust_change pos delta (insert_at (Z.to_nat pos) c outs ++ extra)
  = insert_at (Z.to_nat pos)
      {| nValue := nValue c + delta; scriptPubKey := scriptPubKey c |} outs ++ extra.
Proof.
  intros Hk. unfold adjust_change. rewrite lookup_insert_at by done.
  by apply update_insert_at.
Qed.

Lemma GetRandInt_range (nMax : Z) (ds : list Z) :
  0 < nMax -> 0 <= (GetRandInt nMax ds).1 < nMax.
Proof.
  intros H. destruct ds as [|d ds]; simpl; [lia|]. by apply Z.mod_pos_bound.
Qed.

(** The change step either leaves the payee outputs alone (position -1) or
    inserts, at a position within them, a change output that is not dust at
    the discard rate. *)
Lemma place_change_ok (env : TxEnv) (rate : MCFeeRate) (script : bytes)
    (req nChange fee : Z) (outs : list MCTxOut) (ds : list Z)
    (vout1 : list MCTxOut) (pos fee1 : Z) (ds1 : list Z) :
  -2147483648 <= req < 2147483648 ->
  Z.of_nat (length outs) < 2147483648 ->
  place_change env rate script req nChange fee outs ds = inr (vout1, pos, fee1, ds1) ->
  (pos = -1 /\ vout1 = outs)
  \/ (pos <> -1 /\ (Z.to_nat pos <= length outs)%nat
      /\ vout1 = insert_at (Z.to_nat pos)
                   {| nValue := nChange; scriptPubKey := script |} outs
      /\ IsDust env {| nValue := nChange; scriptPubKey := script |} rate = false).
Proof.
  intros Hreq Hlen. unfold place_change.
  destruct (0 <? nChange); [|intros [= <- <- <- <-]; by left].
  destruct (IsDust env _ rate) eqn:Hd; [intros [= <- <- <- <-]; by left|].
  destruct (Z.eqb_spec req (-1)) as [->|Hne].
  - pose proof (GetRandInt_range (Z.of_nat (length outs) + 1) ds ltac:(lia)) as Hr.
    destruct (GetRandInt _ ds) as [r ds'] eqn:Hg. simpl in Hr.
    intros [= <- <- <- <-]. right. repeat split; try done; lia.
  - destruct (Z.gtb_spec (req `mod` 4294967296) (Z.of_nat (length outs)))
      as [Hgt|Hle]; [discriminate|].
    intros [= <- <- <- <-]. right. split; [done|].
    assert (0 <= req <= Z.of_nat (length outs)).
    { destruct (Z.le_gt_cases 0 req) as [Hpos|Hneg].
      - rewrite Z.mod_small in Hle by lia. lia.
      - exfalso.
        assert (req `mod` 4294967296 = req + 4294967296).
        { symmetry. apply (Z.mod_unique_pos _ _ (-1)); lia. }
        lia. }
    repeat split; try done; lia.
Qed.

(** A round that leaves the loop leaves it with outputs of the expected
    shape. *)
Lemma iteration_break (env : TxEnv) (cc : MCCoinControl) (vecSend : list MCRecipient)
    (nSend nSub req : Z) (script : bytes) (rate : MCFeeRate)
    (sls : option SmartLuaState) (st : loop_state)
    (vout : list MCTxOut) (pos fee : Z) (coins : list MCOutPoint) :
  -2147483648 <= req < 2147483648 ->
  Z.of_nat (length vecSend) < 2147483648 ->
  iteration env cc vecSend nSend nSub req script rate sls st
  = Break vout pos fee coins ->
  exists outs,
    Forall (fun o => IsDust env o (dustRelayFee env) = false) outs
    /\ length outs = length vecSend
    /\ outputs_shape env rate script outs (contract_outputs sls) vout pos.
Proof.
  intros Hreq Hlen. unfold iteration.
  destruct (payees env (nFeeRet st) nSub true vecSend) as [e|outs] eqn:Hp;
    [discriminate|].
  destruct (payees_ok _ _ _ _ _ _ Hp) as [Hnd Hl].
  destruct (if pick_new_inputs st then _ else _) as [[coins' valueIn]|];
    [|discriminate].
  destruct (place_change _ _ _ _ _ _ _ _) as [e|[[[vout1 pos1] fee1] ds1]] eqn:Hc;
    [discriminate|].
  apply place_change_ok in Hc; [|done|by rewrite Hl].
  destruct (negb (DummySignTx env coins')); [discriminate|].
  fold (contract_outputs sls).
  set (nFeeNeeded := (GetMinimumFee _ _ cc (Some NONE)).1).
  destruct (nFeeNeeded <? _); [discriminate|].
  assert (Hplain : outputs_shape env rate script outs (contract_outputs sls)
                     (vout1 ++ contract_outputs sls) pos1).
  { unfold outputs_shape. destruct Hc as [[-> ->]|(Hne & Hk & -> & Hd)]; [done|].
    apply Z.eqb_neq in Hne. rewrite Hne. eexists. repeat split; try done. by left. }
  destruct (Z.geb_spec fee1 nFeeNeeded) as [Hge|Hlt].
  - match goal with |- context [if ?c then Continue _ else _] => destruct c end;
      [discriminate|].
    destruct ((fee1 >? nFeeNeeded) && negb (pos1 =? -1) && (nSub =? 0)) eqn:Hinc.
    + intros [= <- <- <- <-]. exists outs. split; [done|]. split; [done|].
      apply andb_true_iff in Hinc as [[Hgt Hneg]%andb_true_iff _].
      apply negb_true_iff in Hneg.
      destruct Hc as [[-> _]|(Hne & Hk & -> & Hd)]; [discriminate|].
      unfold outputs_shape. rewrite Hneg. rewrite adjust_insert_at by done.
      eexists. repeat split; try done. left.
      unfold IsDust in *. simpl in *. apply Z.ltb_ge. apply Z.ltb_ge in Hd.
      apply Z.gtb_lt in Hgt. lia.
    + intros [= <- <- <- <-]. by exists outs.
  - destruct (negb (pick_new_inputs st)); [discriminate|].
    match goal with |- context [if ?c then Break _ _ _ _ else _] =>
      destruct c eqn:Hred end; [|discriminate].
    intros [= <- <- <- <-]. exists outs. split; [done|]. split; [done|].
    apply andb_true_iff in Hred as [[Hneg _]%andb_true_iff Hbig].
    apply negb_true_iff in Hneg.
    destruct Hc as [[-> _]|(Hne & Hk & -> & Hd)]; [discriminate|].
    rewrite lookup_insert_at in Hbig by done. simpl in Hbig.
    unfold outputs_shape. rewrite Hneg. rewrite adjust_insert_at by done.
    eexists. repeat split; try done. right. simpl.
    apply Z.geb_le in Hbig. lia.
Qed.

Lemma create_loop_break (fuel : nat) (env : TxEnv) (cc : MCCoinControl)
    (vecSend : list MCRecipient) (nSend nSub req : Z) (script : bytes)
    (rate : MCFeeRate) (sls : option SmartLuaState) (st : loop_state)
    (vout : list MCTxOut) (pos fee : Z) (coins : list MCOutPoint) :
  -2147483648 <= req < 2147483648 ->
  Z.of_nat (length vecSend) < 2147483648 ->
  create_loop fuel env cc vecSend nSend nSub req script rate sls st
  = Some (Break vout pos fee coins) ->
  exists outs,
    Forall (fun o => IsDust env o (dustRelayFee env) = false) outs
    /\ length outs = length vecSend
    /\ outputs_shape env rate script outs (contract_outputs sls) vout pos.
Proof.
  intros Hreq Hlen. revert st. induction fuel as [|fuel IH]; intros st; simpl;
    [discriminate|].
  destruct (iteration env cc vecSend nSend nSub req script rate sls st)
    as [reason|st'|vout' pos' fee' coins'] eqn:Hit.
  - discriminate.
  - apply IH.
  - intros [= <- <- <- <-]. by eapply iteration_break.
Qed.

Lemma substitute_none (env : TxEnv) (l : list MCTxOut) :
  publish_scripts env = None -> substitute env <$> l = l.
Proof.
  intros Hn. induction l as [|o l IH]; [done|].
  rewrite fmap_cons, IH. unfold substitute. by rewrite Hn.
Qed.

Lemma total_out_app (l k : list MCTxOut) :
  total_out (l ++ k) = total_out l + total_out k.
Proof. induction l; simpl; lia. Qed.

Lemma total_out_insert_at (k : nat) (c : MCTxOut) (l : list MCTxOut) :
  total_out (insert_at k c l) = nValue c + total_out l.
Proof.
  unfold insert_at. rewrite total_out_app. simpl.
  rewrite <- (take_drop k l) at 3. rewrite total_out_app. lia.
Qed.

Lemma total_out_substitute (env : TxEnv) (l : list MCTxOut) :
  total_out (substitute env <$> l) = total_out l.
Proof.
  induction l as [|o l IH]; [done|]. rewrite fmap_cons. simpl. rewrite IH.
  f_equal. unfold substitute. destruct (publish_scripts env) as [[a b]|]; [|done].
  by destruct (bytes_eqb _ _).
Qed.

Lemma sum_recipients_spec (l : list MCRecipient) (a b s c : Z) :
  sum_recipients l a b = Some (s, c) ->
  s = a + amount_total l /\ c = b + subtract_count l.
Proof.
  revert a b. induction l as [|r l IH]; intros a b; simpl.
  - intros [= <- <-]. lia.
  - destruct (_ || _); [done|]. intros H. apply IH in H as [-> ->].
    destruct (fSubtractFeeFromAmount r); lia.
Qed.

Lemma subtract_count_nonneg (l : list MCRecipient) : 0 <= subtract_count l.
Proof. induction l as [|r l IH]; simpl; [lia|]. destruct (fSubtractFeeFromAmount r); lia. Qed.

Lemma payees_total (env : TxEnv) (fee nSub : Z) (vecSend : list MCRecipient) :
  forall (fFirst : bool) (outs : list MCTxOut),
    payees env fee nSub fFirst vecSend = inr outs ->
    total_out outs
    = amount_total vecSend - subtract_count vecSend * (fee `quot` nSub)
      - (if fFirst && (0 <? subtract_count vecSend) then fee `rem` nSub else 0).
Proof.
  induction vecSend as [|r rest IH]; intros fFirst outs; simpl.
  - intros [= <-]. simpl. rewrite andb_false_r. lia.
  - destruct (IsDust env _ _); [done|].
    destruct (payees env fee nSub _ rest) as [e|outs'] eqn:Hp; [done|].
    intros [= <-]. simpl. rewrite (IH _ _ Hp).
    pose proof (subtract_count_nonneg rest) as Hc.
    destruct (fSubtractFeeFromAmount r); simpl.
    + replace (0 <? subtract_count rest + 1) with true
        by (symmetry; apply Z.ltb_lt; lia).
      destruct fFirst; simpl; lia.
    + destruct (fFirst && (0 <? subtract_count rest)); lia.
Qed.

(** The payee outputs and the running fee add up to the value to select. *)
Lemma payees_value (env : TxEnv) (fee : Z) (vecSend : list MCRecipient)
    (outs : list MCTxOut) :
  payees env fee (subtract_count vecSend) true vecSend = inr outs ->
  total_out outs + fee
  = value_to_select (amount_total vecSend) (subtract_count vecSend) fee.
Proof.
  intros H. rewrite (payees_total _ _ _ _ _ _ H). unfold value_to_select.
  pose proof (subtract_count_nonneg vecSend) as Hc. simpl.
  destruct (Z.eqb_spec (subtract_count vecSend) 0) as [->|Hne].
  - simpl. lia.
  - replace (0 <? subtract_count vecSend) with true
      by (symmetry; apply Z.ltb_lt; lia).
    pose proof (Z.quot_rem' fee (subtract_count vecSend)). lia.
Qed.

Lemma place_change_value (env : TxEnv) (rate : MCFeeRate) (script : bytes)
    (req nChange fee : Z) (outs : list MCTxOut) (ds : list Z)
    (vout1 : list MCTxOut) (pos fee1 : Z) (ds1 : list Z) :
  -2147483648 <= req < 2147483648 ->
  Z.of_nat (length outs) < 2147483648 ->
  place_change env rate script req nChange fee outs ds = inr (vout1, pos, fee1, ds1) ->
  (Z.to_nat pos <= length outs)%nat
  /\ total_out vout1 + fee1 = total_out outs + fee + Z.max nChange 0
  /\ (pos <> -1 -> 0 < nChange).
Proof.
  intros Hreq Hlen H.
  pose proof (place_change_ok _ _ _ _ _ _ _ _ _ _ _ _ Hreq Hlen H) as Hok.
  assert (Hbound : (Z.to_nat pos <= length outs)%nat).
  { destruct Hok as [[-> _]|(_ & Hk & _)]; [simpl; lia|done]. }
  split; [done|]. clear Hok Hbound.
  unfold place_change in H.
  destruct (Z.ltb_spec 0 nChange) as [Hpos|Hneg].
  - destruct (IsDust env _ rate).
    + injection H as <- <- <- <-. split; [lia|done].
    + assert (Hins : vout1 = insert_at (Z.to_nat pos)
                               {| nValue := nChange; scriptPubKey := script |} outs
                     /\ fee1 = fee).
      { destruct (req =? -1).
        - destruct (GetRandInt _ ds) as [r ds']. by injection H as <- <- <- _.
        - destruct (_ >? _); [done|]. by injection H as <- <- <- _. }
      destruct Hins as [-> ->]. split; [|done].
      rewrite total_out_insert_at. simpl. lia.
  - injection H as <- <- <- <-. split; [lia|done].
Qed.

Lemma total_out_adjust (pos delta : Z) (c : MCTxOut) (outs extra : list MCTxOut) :
  (Z.to_nat pos <= length outs)%nat ->
  total_out (adjust_change pos delta (insert_at (Z.to_nat pos) c outs ++ extra))
  = total_out (insert_at (Z.to_nat pos) c outs ++ extra) + delta.
Proof.
  intros Hk. rewrite adjust_insert_at by done.
  rewrite !total_out_app, !total_out_insert_at. simpl. lia.
Qed.

Section Rounds.
Context (env : TxEnv) (cc : MCCoinControl) (vecSend : list MCRecipient)
        (req : Z) (script : bytes) (rate : MCFeeRate) (sls : option SmartLuaState).
Hypothesis Hreq : -2147483648 <= req < 2147483648.
Hypothesis Hlen : Z.of_nat (length vecSend) < 2147483648.

Local Abbreviation nSend := (amount_total vecSend).
Local Abbreviation nSub := (subtract_count vecSend).
Local Abbreviation need := (value_to_select (amount_total vecSend) (subtract_count vecSend)).
Local Abbreviation round := (iteration env cc vecSend (amount_total vecSend)
                               (subtract_count vecSend) req script rate sls).
Local Abbreviation ok := (retained_ok env vecSend script rate).
Local Abbreviation kept := (value_kept env script rate (contract_outputs sls)).

Lemma iteration_value (st : loop_state) :
  ok st ->
  match round st with
  | Fail _ => True
  | Continue st' => ok st'
  | Break vout pos fee coins => kept vout pos fee coins
  end.
Proof.
  intros Hst. unfold iteration.
  destruct (payees env (nFeeRet st) nSub true vecSend) as [e|outs] eqn:Hp; [done|].
  pose proof (payees_value _ _ _ _ Hp) as Hval.
  destruct (payees_ok _ _ _ _ _ _ Hp) as [_ Hl].
  fold (need (nFeeRet st)).
  assert (Hsel : forall coins valueIn,
    (if pick_new_inputs st then SelectCoins env (need (nFeeRet st))
     else Some (setCoins st, nValueIn st)) = Some (coins, valueIn) ->
    selected env coins valueIn
    /\ (covers_target env -> 0 <= GetDustThreshold env script rate ->
        need (nFeeRet st) <= valueIn)).
  { destruct (pick_new_inputs st) eqn:Hpick.
    - intros c v H. split; [by eexists|]. intros Hcov _. by eapply Hcov.
    - intros c v [= <- <-]. by apply Hst. }
  destruct (if pick_new_inputs st then _ else _) as [[coins valueIn]|]; [|done].
  destruct (Hsel _ _ eq_refl) as [Hfrom Hcover]. clear Hsel.
  destruct (place_change _ _ _ _ _ _ _ _) as [e|[[[vout1 pos1] fee1] ds1]] eqn:Hc;
    [done|].
  pose proof Hc as Hshape.
  apply place_change_ok in Hshape; [|done|by rewrite Hl].
  apply place_change_value in Hc as (Hk & Htot & Hchange); [|done|by rewrite Hl].
  destruct (negb (DummySignTx env coins)); [done|].
  fold (contract_outputs sls).
  set (nFeeNeeded := (GetMinimumFee _ _ cc (Some NONE)).1).
  destruct (nFeeNeeded <? _); [done|].
  assert (Hv : total_out vout1 + fee1 = Z.max valueIn (need (nFeeRet st))) by lia.
  assert (Hplain : forall fee vout,
            fee + total_out vout
            = fee1 + total_out vout1 + total_out (contract_outputs sls) ->
            kept vout pos1 fee coins).
  { intros fee vout Heq. exists valueIn. split; [done|].
    split; [lia|]. split.
    - intros Hne. specialize (Hchange Hne). lia.
    - intros Hcov Hthr. specialize (Hcover Hcov Hthr). lia. }
  assert (Hadj : forall delta, pos1 <> -1 ->
            total_out (adjust_change pos1 delta (vout1 ++ contract_outputs sls))
            = total_out vout1 + total_out (contract_outputs sls) + delta).
  { intros delta Hne. destruct Hshape as [[? _]|(_ & _ & -> & _)]; [done|].
    rewrite total_out_adjust by done. rewrite total_out_app. lia. }
  destruct (Z.geb_spec fee1 nFeeNeeded) as [Hge|Hlt].
  - match goal with |- context [if ?c then Continue _ else _] =>
      destruct c eqn:Hcont end.
    + intros _. simpl. split; [done|]. intros Hcov Hthr.
      specialize (Hcover Hcov Hthr).
      apply andb_true_iff in Hcont as [[[Hpos Hsub]%andb_true_iff _]%andb_true_iff Hbig].
      apply Z.eqb_eq in Hpos, Hsub. apply Z.geb_le in Hbig.
      destruct Hshape as [[_ ->]|[? _]]; [|done].
      unfold value_to_select in *. rewrite Hsub in *. simpl in *. lia.
    + destruct ((fee1 >? nFeeNeeded) && negb (pos1 =? -1) && (nSub =? 0)) eqn:Hinc.
      * apply andb_true_iff in Hinc as [[_ Hneg]%andb_true_iff _].
        apply negb_true_iff, Z.eqb_neq in Hneg.
        apply Hplain. rewrite Hadj by done. lia.
      * apply Hplain. rewrite total_out_app. lia.
  - destruct (pick_new_inputs st) eqn:Hpick; [|done]. simpl negb. cbv iota.
    match goal with |- context [if ?c then Break _ _ _ _ else _] =>
      destruct c eqn:Hred end.
    + apply andb_true_iff in Hred as [[Hneg _]%andb_true_iff _].
      apply negb_true_iff, Z.eqb_neq in Hneg.
      apply Hplain. rewrite Hadj by done. lia.
    + intros Hp'. simpl in *. split; [done|]. intros Hcov Hthr.
      specialize (Hcover Hcov Hthr).
      destruct (Z.ltb_spec 0 nSub) as [Hs|Hs]; [|done].
      unfold value_to_select in *.
      destruct (Z.eqb_spec nSub 0); [lia|]. lia.
Qed.

Lemma create_loop_value (fuel : nat) (st : loop_state)
    (vout : list MCTxOut) (pos fee : Z) (coins : list MCOutPoint) :
  ok st ->
  create_loop fuel env cc vecSend nSend nSub req script rate sls st
  = Some (Break vout pos fee coins) ->
  kept vout pos fee coins.
Proof.
  revert st. induction fuel as [|fuel IH]; intros st Hst; simpl; [done|].
  pose proof (iteration_value st Hst) as Hround.
  destruct (round st) as [reason|st'|vout' pos' fee' coins'].
  - done.
  - by apply IH.
  - by intros [= <- <- <- <-].
Qed.

End Rounds.


(** Where the dust threshold of the change script does not exceed
    [MIN_FINAL_CHANGE], a change output of that shape is not dust. *)
Lemma change_output_not_dust (env : TxEnv) (rate : MCFeeRate) (script : bytes)
    (outs extra vout : list MCTxOut) (pos : Z) :
  GetDustThreshold env script rate <= MIN_FINAL_CHANGE env ->
  pos <> -1 ->
  outputs_shape env rate script outs extra vout pos ->
  exists c, vout !! Z.to_nat pos = Some c /\ IsDust env c rate = false.
Proof.
  intros Hthr Hpos. unfold outputs_shape. apply Z.eqb_neq in Hpos. rewrite Hpos.
  intros (c & -> & Hk & Hs & Hd). exists c. split; [by apply lookup_insert_at|].
  destruct Hd as [Hd|Hd]; [done|]. unfold IsDust. rewrite Hs. apply Z.ltb_ge. lia.
Qed.


(** A change that would be dust: paying 95000 out of a coin of 100000
    leaves no change output, and the whole remainder of 5000 is the fee. *)
Example CreateTransaction_folds_dust :
  CreateTransaction 10 (example_tx_env false) no_coin_control [pay 95000] (-1)
    true None [1; 0; 1]
  = Some (Built [{| nValue := 95000; scriptPubKey := [118; 170] |}] (-1) 5000
            [{| hash := 1; n := 0 |}]).
Proof. vm_compute. reflexivity. Qed.


End CreateTxFacts.

Module ConflictsFacts.
Import Abandon Conflicts.

Ltac order_facts :=
  unfold outpoint_ltb in *; simpl in *;
  rewrite ?orb_true_iff, ?orb_false_iff, ?andb_true_iff, ?andb_false_iff,
          ?Z.ltb_lt, ?Z.ltb_ge, ?Z.eqb_eq, ?Z.eqb_neq in *.

(** ** The ordered containers *)

Lemma todo_insert_elem (h x : uint256) (todo : list uint256) :
  x ∈ todo_insert h todo <-> x = h \/ x ∈ todo.
Proof.
  induction todo as [|y todo IH]; simpl.
  - rewrite list_elem_of_singleton. split; [by left|].
    intros [?|H]; [done|by apply elem_of_nil in H].
  - destruct (Z.ltb_spec h y); [by rewrite elem_of_cons|].
    destruct (Z.eqb_spec h y) as [->|Hne].
    + rewrite elem_of_cons. tauto.
    + rewrite !elem_of_cons, IH. tauto.
Qed.

Lemma queue_spenders_keeps (now : uint256) iter (done : gset uint256) todo x :
  x ∈ todo -> x ∈ queue_spenders now iter done todo.
Proof.
  revert todo. induction iter as [|[p s] iter IH]; intros todo Hx; simpl; [done|].
  destruct (hash p =? now); [|done]. apply IH.
  case_bool_decide; [done|]. apply todo_insert_elem. by right.
Qed.

Lemma queue_spenders_elem (now : uint256) iter (done : gset uint256) todo x :
  x ∈ queue_spenders now iter done todo ->
  x ∈ todo \/ ((x ∉ done) /\ exists p, (p, x) ∈ iter /\ hash p = now).
Proof.
  revert todo. induction iter as [|[p s] iter IH]; intros todo; simpl; [by left|].
  destruct (Z.eqb_spec (hash p) now) as [He|Hne]; [|by left].
  intros [Hx|(Hd & q & Hq & Hh)]%IH.
  - case_bool_decide as Hs; [by left|].
    apply todo_insert_elem in Hx as [->|Hx]; [|by left].
    right. split; [done|]. exists p. split; [left|done].
  - right. split; [done|]. exists q. split; [by right|done].
Qed.

Lemma spends_sorted_cons e m :
  spends_sorted (e :: m) = true ->
  (forall e', e' ∈ m -> outpoint_ltb e'.1 e.1 = false) /\ spends_sorted m = true.
Proof.
  simpl. intros [Hall Hs]%andb_true_iff. split; [|done].
  intros e' He'. rewrite forallb_forall in Hall.
  apply negb_true_iff, Hall. by apply list_elem_of_In.
Qed.

Lemma lower_bound_sorted k m :
  spends_sorted m = true -> spends_sorted (lower_bound k m) = true.
Proof.
  induction m as [|e m IH]; [done|]. intros Hs.
  pose proof (spends_sorted_cons _ _ Hs) as [_ Hm]. simpl lower_bound.
  destruct (outpoint_ltb e.1 k); [by apply IH|done].
Qed.

Lemma lower_bound_elem k m e :
  e ∈ m -> outpoint_ltb e.1 k = false -> e ∈ lower_bound k m.
Proof.
  induction m as [|d m IH]; [done|]. simpl.
  intros [->|He]%elem_of_cons Hk.
  - rewrite Hk. left.
  - destruct (outpoint_ltb d.1 k); [by apply IH|by right].
Qed.

Lemma lower_bound_sub k m e : e ∈ lower_bound k m -> e ∈ m.
Proof.
  induction m as [|d m IH]; [done|]. simpl.
  destruct (outpoint_ltb d.1 k); [|done]. intros He. right. by apply IH.
Qed.

Lemma lower_bound_ge k m e :
  spends_sorted m = true -> e ∈ lower_bound k m -> outpoint_ltb e.1 k = false.
Proof.
  induction m as [|d m IH]; [intros _ H; by apply elem_of_nil in H|].
  intros Hs. pose proof (spends_sorted_cons _ _ Hs) as [Hd Hm]. simpl.
  destruct (outpoint_ltb d.1 k) eqn:Hk; [by apply IH|].
  intros [->|He]%elem_of_cons; [done|].
  specialize (Hd e He). destruct e as [[eh en] es], d as [[dh dn] ds], k as [kh kn].
  order_facts. lia.
Qed.

Lemma queue_spenders_in (now : uint256) l (done : gset uint256) todo p s :
  spends_sorted l = true -> (forall e, e ∈ l -> now <= hash e.1) ->
  (p, s) ∈ l -> hash p = now -> s ∉ done ->
  s ∈ queue_spenders now l done todo.
Proof.
  revert todo. induction l as [|[q t] l IH]; intros todo Hs Hge Hin Hp Hd.
  { by apply elem_of_nil in Hin. }
  pose proof (spends_sorted_cons _ _ Hs) as [Hq Hl]. simpl.
  apply elem_of_cons in Hin as [[= <- <-]|Hin].
  - rewrite Hp, Z.eqb_refl. apply queue_spenders_keeps.
    rewrite bool_decide_eq_false_2 by done. apply todo_insert_elem. by left.
  - assert (hash q = now) as ->.
    { specialize (Hq _ Hin). specialize (Hge (q, t)). simpl in *.
      assert (now <= hash q) by (apply Hge; left).
      destruct p, q. order_facts. lia. }
    rewrite Z.eqb_refl. apply IH; try done.
    intros e He. apply Hge. by right.
Qed.

(** Every entry of [mapTxSpends] that spends an output of [now] is met by
    the walk from [lower_bound(MCOutPoint(now, 0))]. *)
Lemma queue_spenders_direct (now : uint256) m (done : gset uint256) todo i s :
  spends_sorted m = true -> 0 <= i ->
  ({| hash := now; n := i |}, s) ∈ m -> s ∉ done ->
  s ∈ queue_spenders now (lower_bound {| hash := now; n := 0 |} m) done todo.
Proof.
  intros Hs Hi Hin Hd.
  apply (queue_spenders_in now _ done todo {| hash := now; n := i |} s);
    [by apply lower_bound_sorted| |
     apply lower_bound_elem; [done|order_facts; lia] | done | done].
  intros e He. apply (lower_bound_ge _ _ _ Hs) in He.
  destruct e as [[eh en] es]. order_facts. lia.
Qed.

Lemma upto_upper_bound_sub k l e : e ∈ upto_upper_bound k l -> e ∈ l.
Proof.
  induction l as [|d l IH]; [done|]. simpl.
  destruct (outpoint_ltb k d.1); [intros H; by apply elem_of_nil in H|].
  intros [->|He]%elem_of_cons; [left|right; by apply IH].
Qed.

Lemma upto_upper_bound_le k l e :
  e ∈ upto_upper_bound k l -> outpoint_ltb k e.1 = false.
Proof.
  induction l as [|d l IH]; [intros H; by apply elem_of_nil in H|]. simpl.
  destruct (outpoint_ltb k d.1) eqn:Hk; [intros H; by apply elem_of_nil in H|].
  intros [->|He]%elem_of_cons; [done|by apply IH].
Qed.

(** The entries of [equal_range(k)] are entries of the map under the key
    [k]. *)
Lemma equal_range_key k m e :
  spends_sorted m = true -> e ∈ equal_range k m -> e ∈ m /\ e.1 = k.
Proof.
  intros Hs He. unfold equal_range in He.
  pose proof (upto_upper_bound_le _ _ _ He) as Hle.
  apply upto_upper_bound_sub in He.
  pose proof (lower_bound_ge _ _ _ Hs He) as Hge.
  split; [by eapply lower_bound_sub|].
  destruct e as [[eh en] es], k as [kh kn]. order_facts.
  f_equal; lia.
Qed.

Lemma upto_upper_bound_elem k l e :
  spends_sorted l = true -> e ∈ l -> outpoint_ltb k e.1 = false ->
  e ∈ upto_upper_bound k l.
Proof.
  induction l as [|d l IH]; [intros _ H; by apply elem_of_nil in H|].
  intros Hs. pose proof (spends_sorted_cons _ _ Hs) as [Hd Hl]. simpl.
  intros [->|He]%elem_of_cons Hk; [rewrite Hk; left|].
  replace (outpoint_ltb k d.1) with false; [right; by apply IH|].
  symmetry. specialize (Hd e He).
  destruct e as [[eh en] es], d as [[dh dn] ds], k as [kh kn].
  destruct ((kh <? dh) || (kh =? dh) && (kn <? dn)) eqn:Hc; [|done].
  order_facts. lia.
Qed.

Lemma equal_range_elem k m s :
  spends_sorted m = true -> (k, s) ∈ m -> (k, s) ∈ equal_range k m.
Proof.
  intros Hs Hin. unfold equal_range.
  assert (Hirr : outpoint_ltb k k = false).
  { destruct k as [kh kn]. order_facts. lia. }
  apply upto_upper_bound_elem; [by apply lower_bound_sorted| |done].
  by apply lower_bound_elem.
Qed.

Lemma spent_in_true env mw range :
  spent_in env mw range = true <->
  exists k s t, (k, s) ∈ range /\ mw !! s = Some t /\ spends env t = true.
Proof.
  induction range as [|[k s] range IH]; simpl.
  - split; [done|]. intros (k & s & t & H & _). by apply elem_of_nil in H.
  - destruct (mw !! s) as [t|] eqn:Ht.
    + destruct (spends env t) eqn:Hsp.
      * split; [|done]. intros _. exists k, s, t. split; [left|done].
      * rewrite IH. split.
        -- intros (k' & s' & t' & Hin & H). exists k', s', t'. split; [by right|done].
        -- intros (k' & s' & t' & [[= -> ->]|Hin]%elem_of_cons & Hl & Hs);
             [congruence|]. by exists k', s', t'.
    + rewrite IH. split.
      * intros (k' & s' & t' & Hin & H). exists k', s', t'. split; [by right|done].
      * intros (k' & s' & t' & [[= -> ->]|Hin]%elem_of_cons & Hl & Hs);
          [congruence|]. by exists k', s', t'.
Qed.

(** [IsSpent] answers [true] exactly for an outpoint that some transaction
    of the wallet spends while being confirmed, or unconfirmed and not
    abandoned; a spender that is abandoned, conflicted, or not in the
    wallet does not count. *)
Theorem IsSpent_iff (env : ChainEnv) (w : MCWallet) (h : uint256) (i : Z) :
  spends_sorted (mapTxSpends w) = true ->
  IsSpent env w h i = true <->
  exists s t, ({| hash := h; n := i |}, s) ∈ mapTxSpends w
              /\ mapWallet w !! s = Some t
              /\ (0 < GetDepthInMainChain env t
                  \/ (GetDepthInMainChain env t = 0 /\ isAbandoned t = false)).
Proof.
  intros Hs. unfold IsSpent. rewrite spent_in_true.
  assert (Hsp : forall t, spends env t = true <->
            0 < GetDepthInMainChain env t
            \/ (GetDepthInMainChain env t = 0 /\ isAbandoned t = false)).
  { intros t. unfold spends.
    rewrite orb_true_iff, andb_true_iff, Z.ltb_lt, Z.eqb_eq, negb_true_iff. tauto. }
  split.
  - intros (k & s & t & [Hin Hk]%equal_range_key & Ht & Hsp'); [|done].
    simpl in Hk. subst k. exists s, t. split; [done|]. split; [done|].
    by apply Hsp.
  - intros (s & t & Hin & Ht & Hc). exists {| hash := h; n := i |}, s, t.
    split; [by apply equal_range_elem|]. split; [done|]. by apply Hsp.
Qed.

Lemma IsSpent_iff_witness :
  IsSpent idle_chain chain_wallet 1 0 = true
  /\ IsSpent idle_chain chain_wallet 3 0 = false.
Proof.
  split.
  - apply (IsSpent_iff idle_chain chain_wallet 1 0); [reflexivity|].
    exists 2, (unconfirmed [{| hash := 1; n := 0 |}]).
    split; [left|]. split; [reflexivity|]. right. split; reflexivity.
  - destruct (IsSpent idle_chain chain_wallet 3 0) eqn:H; [|done].
    apply (IsSpent_iff idle_chain chain_wallet 3 0) in H as (s & t & Hin & _);
      [|reflexivity].
    unfold chain_wallet in Hin. simpl in Hin.
    apply elem_of_cons in Hin as [Hin|Hin]; [discriminate|].
    apply elem_of_cons in Hin as [Hin|Hin]; [discriminate|].
    by apply elem_of_nil in Hin.
Defined.

(** [HasWalletSpend] answers [true] exactly when [mapTxSpends] records a
    spend of an output of the transaction. *)
Theorem HasWalletSpend_iff (w : MCWallet) (txid : uint256) :
  spends_sorted (mapTxSpends w) = true ->
  HasWalletSpend w txid = true <->
  exists i s, 0 <= i /\ ({| hash := txid; n := i |}, s) ∈ mapTxSpends w.
Proof.
  intros Hs. unfold HasWalletSpend.
  pose proof (lower_bound_sorted {| hash := txid; n := 0 |} _ Hs) as Hsl.
  pose proof (lower_bound_ge {| hash := txid; n := 0 |} (mapTxSpends w)) as Hge.
  pose proof (lower_bound_sub {| hash := txid; n := 0 |} (mapTxSpends w)) as Hsub.
  pose proof (lower_bound_elem {| hash := txid; n := 0 |} (mapTxSpends w)) as Hel.
  destruct (lower_bound _ _) as [|e l].
  - split; [done|]. intros (i & s & Hi & Hin).
    specialize (Hel _ Hin). simpl in Hel.
    assert (H : ({| hash := txid; n := i |}, s) ∈ []) by (apply Hel; order_facts; lia).
    by apply elem_of_nil in H.
  - split.
    + intros He%Z.eqb_eq. destruct e as [[eh en] es]. simpl in He. subst eh.
      exists en, es. split; [|apply Hsub; left].
      specialize (Hge (({| hash := txid; n := en |}, es)) Hs). simpl in Hge.
      assert (H : outpoint_ltb {| hash := txid; n := en |} {| hash := txid; n := 0 |}
                  = false) by (apply Hge; left).
      order_facts. lia.
    + intros (i & s & Hi & Hin). apply Z.eqb_eq.
      assert (Hin' : ({| hash := txid; n := i |}, s) ∈ e :: l).
      { apply Hel; [done|]. order_facts. lia. }
      assert (Hlow : outpoint_ltb e.1 {| hash := txid; n := 0 |} = false).
      { apply Hge; [done|left]. }
      apply elem_of_cons in Hin' as [<-|Hin']; [done|].
      pose proof (spends_sorted_cons _ _ Hsl) as [Hd _].
      specialize (Hd _ Hin'). destruct e as [[eh en] es]. order_facts. lia.
Qed.

Lemma HasWalletSpend_iff_witness :
  HasWalletSpend chain_wallet 2 = true.
Proof.
  apply (HasWalletSpend_iff chain_wallet 2); [reflexivity|].
  exists 0, 3. split; [lia|]. right. left.
Defined.

(** ** What the two loops may change *)

Lemma updated_refl hb t : updated hb t t.
Proof. split; [done|by left]. Qed.

Lemma updated_trans hb t1 t2 t3 :
  updated hb t1 t2 -> updated hb t2 t3 -> updated hb t1 t3.
Proof.
  intros [Hv1 H1] [Hv2 H2]. split; [congruence|].
  destruct H2 as [[? ?]|?]; [|by right].
  destruct H1 as [[? ?]|[? ?]]; [left|right]; split; congruence.
Qed.

Lemma evolves_refl hb w : evolves hb w w.
Proof.
  split; [done|]. intros x. destruct (mapWallet w !! x); constructor.
  apply updated_refl.
Qed.

Lemma evolves_trans hb w1 w2 w3 :
  evolves hb w1 w2 -> evolves hb w2 w3 -> evolves hb w1 w3.
Proof.
  intros [Hs1 H1] [Hs2 H2]. split; [congruence|]. intros x.
  specialize (H1 x). specialize (H2 x).
  destruct H1 as [t1 t2 H12|]; inversion H2; subst; constructor.
  by eapply updated_trans.
Qed.

Lemma evolves_lookup hb w w' x t :
  evolves hb w w' -> mapWallet w !! x = Some t ->
  exists t', mapWallet w' !! x = Some t' /\ updated hb t t'.
Proof.
  intros [_ H] Hx. specialize (H x). rewrite Hx in H. inversion H; subst. eauto.
Qed.

Lemma evolves_lookup_None hb w w' x :
  evolves hb w w' -> mapWallet w !! x = None -> mapWallet w' !! x = None.
Proof. intros [_ H] Hx. specialize (H x). rewrite Hx in H. by inversion H. Qed.

Lemma dirty_inputs_lookup hb m ins x :
  option_Forall2 (updated hb) (m !! x) (dirty_inputs m ins !! x).
Proof.
  unfold dirty_inputs. revert m. induction ins as [|txin ins IH]; intros m; simpl.
  - destruct (m !! x); constructor. apply updated_refl.
  - specialize (IH (match m !! hash txin with
                    | Some t => <[hash txin := MarkDirty t]> m
                    | None => m end)).
    destruct (m !! hash txin) as [t|] eqn:Ht; [|done].
    destruct (decide (hash txin = x)) as [<-|Hne].
    + rewrite lookup_insert_eq in IH. rewrite Ht.
      inversion IH as [a b Hab|]; subst. constructor.
      destruct Hab as [Hv Hc]. split; [done|]. exact Hc.
    + by rewrite lookup_insert_ne in IH.
Qed.

(** One marking step: [now] gets block [hb] and index -1, the transactions
    it spends from are marked dirty. *)
Lemma mark_step_evolves hb w now wtx db note :
  mapWallet w !! now = Some wtx ->
  evolves hb w
    {| mapWallet :=
         dirty_inputs (<[now := {| vin := vin wtx; hashBlock := hb;
                                   nIndex := -1; fDirty := true |}]> (mapWallet w))
                      (vin wtx);
       mapTxSpends := mapTxSpends w; db_tx := db; notified := note |}.
Proof.
  intros Hnow. split; [done|]. intros x. simpl.
  pose proof (dirty_inputs_lookup hb
    (<[now := {| vin := vin wtx; hashBlock := hb; nIndex := -1; fDirty := true |}]>
       (mapWallet w)) (vin wtx) x) as H.
  destruct (decide (now = x)) as [<-|Hne].
  - rewrite lookup_insert_eq in H. rewrite Hnow.
    inversion H as [a b Hab|]; subst. constructor.
    eapply updated_trans; [|exact Hab]. split; [done|by right].
  - by rewrite lookup_insert_ne in H.
Qed.

Lemma mark_step_lookup hb w now wtx :
  exists t, dirty_inputs (<[now := {| vin := vin wtx; hashBlock := hb;
                                      nIndex := -1; fDirty := true |}]> (mapWallet w))
                         (vin wtx) !! now = Some t
            /\ hashBlock t = hb /\ nIndex t = -1.
Proof.
  pose proof (dirty_inputs_lookup hb
    (<[now := {| vin := vin wtx; hashBlock := hb; nIndex := -1; fDirty := true |}]>
       (mapWallet w)) (vin wtx) now) as H.
  rewrite lookup_insert_eq in H. inversion H as [a b [_ Hab]|]; subst.
  exists b. split; [done|]. simpl in Hab. destruct Hab as [[? ?]|[? ?]]; done.
Qed.

Lemma depth_same_core env t t' :
  hashBlock t' = hashBlock t -> nIndex t' = nIndex t ->
  GetDepthInMainChain env t' = GetDepthInMainChain env t.
Proof.
  intros Hb Hi. unfold GetDepthInMainChain, hashUnset. by rewrite Hb, Hi.
Qed.

Lemma depth_abandoned env t :
  hashBlock t = ABANDON_HASH -> GetDepthInMainChain env t = 0.
Proof. intros H. unfold GetDepthInMainChain, hashUnset. by rewrite H. Qed.

Lemma spends_abandoned env t : hashBlock t = ABANDON_HASH -> spends env t = false.
Proof.
  intros H. unfold spends. rewrite (depth_abandoned env t H).
  unfold isAbandoned. by rewrite H.
Qed.

Lemma spends_updated env t t' :
  updated ABANDON_HASH t t' -> spends env t = false -> spends env t' = false.
Proof.
  intros [_ [[Hb Hi]|[Hb _]]] Hs; [|by apply spends_abandoned].
  unfold spends, isAbandoned in *.
  by rewrite (depth_same_core env t t' Hb Hi), Hb.
Qed.

(** ** The loop of [AbandonTransaction] *)

Lemma abandon_loop_evolves fuel env hashTx todo done w w' :
  abandon_loop fuel env hashTx todo done w = Returned w' ->
  evolves ABANDON_HASH w w'
  /\ forall x, x ∈ todo ->
       exists t, mapWallet w' !! x = Some t /\ spends env t = false.
Proof.
  revert todo done w. induction fuel as [|fuel IH]; intros todo done w.
  { destruct todo; simpl; [|done]. intros [= <-].
    split; [apply evolves_refl|]. intros x Hx. by apply elem_of_nil in Hx. }
  destruct todo as [|now todo']; simpl.
  { intros [= <-]. split; [apply evolves_refl|].
    intros x Hx. by apply elem_of_nil in Hx. }
  destruct (mapWallet w !! now) as [wtx|] eqn:Hnow; [|done].
  destruct (Z.ltb_spec 0 (GetDepthInMainChain env wtx)) as [|Hle]; [done|].
  destruct ((GetDepthInMainChain env wtx =? 0) && negb (isAbandoned wtx)) eqn:Hc.
  - destruct (in_mempool env now); [done|]. intros Hloop.
    apply IH in Hloop as [Hev Htodo].
    pose proof (mark_step_evolves ABANDON_HASH w now wtx
                  (<[now := {| vin := vin wtx; hashBlock := ABANDON_HASH;
                               nIndex := -1; fDirty := true |}]> (db_tx w))
                  (notified w ++ [(now, CT_UPDATED)]) Hnow) as Hstep.
    split; [by eapply evolves_trans|].
    intros x [->|Hx]%elem_of_cons.
    + destruct (mark_step_lookup ABANDON_HASH w now wtx) as (t & Ht & Hb & _).
      destruct (evolves_lookup _ _ _ _ _ Hev Ht) as (t' & Ht' & Hup).
      exists t'. split; [done|].
      eapply spends_updated; [exact Hup|by apply spends_abandoned].
    + apply Htodo. by apply queue_spenders_keeps.
  - intros Hloop. apply IH in Hloop as [Hev Htodo]. split; [done|].
    intros x [->|Hx]%elem_of_cons; [|by apply Htodo].
    destruct (evolves_lookup _ _ _ _ _ Hev Hnow) as (t' & Ht' & Hup).
    exists t'. split; [done|]. eapply spends_updated; [exact Hup|].
    unfold spends. apply andb_false_iff in Hc.
    replace (0 <? GetDepthInMainChain env wtx) with false
      by (symmetry; apply Z.ltb_ge; lia).
    simpl. apply andb_false_iff. exact Hc.
Qed.

Lemma abandon_loop_db fuel env hashTx todo done w w' x :
  abandon_loop fuel env hashTx todo done w = Returned w' ->
  (exists t, db_tx w !! x = Some t /\ isAbandoned t = true /\ nIndex t = -1) ->
  exists t, db_tx w' !! x = Some t /\ isAbandoned t = true /\ nIndex t = -1.
Proof.
  revert todo done w. induction fuel as [|fuel IH]; intros todo done w.
  { destruct todo; simpl; [|done]. by intros [= <-]. }
  destruct todo as [|now todo']; simpl; [by intros [= <-]|].
  destruct (mapWallet w !! now) as [wtx|] eqn:Hnow; [|done].
  destruct (0 <? GetDepthInMainChain env wtx); [done|].
  destruct ((GetDepthInMainChain env wtx =? 0) && negb (isAbandoned wtx)).
  - destruct (in_mempool env now); [done|]. intros Hloop Hdb.
    eapply IH; [exact Hloop|]. simpl.
    destruct (decide (now = x)) as [->|Hne].
    + rewrite lookup_insert_eq. eexists. split; [done|]. done.
    + by rewrite lookup_insert_ne.
  - apply IH.
Qed.

Lemma spent_in_false env mw range :
  (forall k s t, (k, s) ∈ range -> mw !! s = Some t -> spends env t = false) ->
  spent_in env mw range = false.
Proof.
  induction range as [|[k s] range IH]; intros H; simpl; [done|].
  assert (Hrest : spent_in env mw range = false).
  { apply IH. intros k' s' t Hin. apply (H k' s' t). by right. }
  destruct (mw !! s) as [t|] eqn:Ht; [|done].
  rewrite (H k s t); [done|left|done].
Qed.

Section Abandoned.
Context (fuel : nat) (env : ChainEnv) (hashTx : uint256) (w : MCWallet)
        (origtx : MCWalletTx) (r : bool * MCWallet).
Hypothesis Hheld : mapWallet w !! hashTx = Some origtx.
Hypothesis Hdepth : GetDepthInMainChain env origtx = 0.
Hypothesis Hfresh : isAbandoned origtx = false.
Hypothesis Hpool : in_mempool env hashTx = false.
Hypothesis Hret : AbandonTransaction fuel env hashTx w = Returned r.

(** The first round of the loop marks [hashTx] and queues its spenders. *)
Lemma abandon_first_round :
  exists fuel' w1,
    r.1 = true
    /\ abandon_loop fuel' env hashTx
         (queue_spenders hashTx
            (lower_bound {| hash := hashTx; n := 0 |} (mapTxSpends w))
            ({[hashTx]} ∪ ∅) [])
         ({[hashTx]} ∪ ∅) w1 = Returned r.2
    /\ evolves ABANDON_HASH w w1
    /\ mapTxSpends w1 = mapTxSpends w
    /\ (exists t, mapWallet w1 !! hashTx = Some t
                  /\ hashBlock t = ABANDON_HASH /\ nIndex t = -1)
    /\ (exists t, db_tx w1 !! hashTx = Some t
                  /\ isAbandoned t = true /\ nIndex t = -1).
Proof.
  unfold AbandonTransaction in Hret. rewrite Hheld, Hdepth, Hpool in Hret.
  simpl in Hret. destruct fuel as [|fuel']; [done|]. simpl in Hret.
  rewrite Hheld, Hdepth, Hfresh, Hpool in Hret. simpl in Hret.
  match type of Hret with
  | match abandon_loop _ _ _ ?q ?d ?w1 with _ => _ end = _ =>
      destruct (abandon_loop fuel' env hashTx q d w1) as [w'|] eqn:Hloop; [|done];
      exists fuel', w1
  end.
  injection Hret as <-. simpl. split; [done|]. split; [exact Hloop|].
  split; [by apply mark_step_evolves|]. split; [done|]. split.
  - apply mark_step_lookup.
  - rewrite lookup_insert_eq. eexists. split; [done|]. done.
Qed.

Lemma abandoned_result :
  r.1 = true
  /\ evolves ABANDON_HASH w r.2
  /\ (exists t, mapWallet r.2 !! hashTx = Some t
                /\ hashBlock t = ABANDON_HASH /\ nIndex t = -1)
  /\ (exists t, db_tx r.2 !! hashTx = Some t /\ isAbandoned t = true /\ nIndex t = -1)
  /\ (forall i s, spends_sorted (mapTxSpends w) = true -> 0 <= i ->
        ({| hash := hashTx; n := i |}, s) ∈ mapTxSpends w ->
        exists t, mapWallet r.2 !! s = Some t /\ spends env t = false).
Proof.
  destruct abandon_first_round as (fuel' & w1 & Hr & Hloop & Hev1 & Hsp & Hm & Hdb).
  pose proof (abandon_loop_evolves _ _ _ _ _ _ _ Hloop) as [Hev Htodo].
  destruct Hm as (t1 & Ht1 & Hb1 & Hi1).
  destruct (evolves_lookup _ _ _ _ _ Hev Ht1) as (t' & Ht' & Hup).
  assert (Hcore : hashBlock t' = ABANDON_HASH /\ nIndex t' = -1).
  { destruct Hup as [_ [[? ?]|[? ?]]]; split; congruence. }
  split; [done|]. split; [by eapply evolves_trans|].
  split; [by exists t'|].
  split; [by eapply abandon_loop_db|].
  intros i s Hs Hi Hin.
  destruct (decide (s = hashTx)) as [->|Hne].
  { exists t'. split; [done|]. apply spends_abandoned. tauto. }
  apply Htodo.
  apply (queue_spenders_direct hashTx _ _ _ i s Hs Hi Hin).
  intros [Hx%elem_of_singleton|Hx]%elem_of_union; [done|].
  by apply elem_of_empty in Hx.
Qed.

End Abandoned.

(** After [AbandonTransaction] returns for an unconfirmed transaction that
    is neither abandoned nor in the mempool, the call has returned [true],
    the transaction is abandoned in memory and on disk, it cannot be
    abandoned a second time, and the wallet holds the same transactions
    with the same inputs and the same [mapTxSpends]. *)
Theorem AbandonTransaction_marks (fuel : nat) (env : ChainEnv) (hashTx : uint256)
    (w : MCWallet) (origtx : MCWalletTx) (r : bool * MCWallet) :
  mapWallet w !! hashTx = Some origtx ->
  GetDepthInMainChain env origtx = 0 ->
  isAbandoned origtx = false ->
  in_mempool env hashTx = false ->
  AbandonTransaction fuel env hashTx w = Returned r ->
  r.1 = true
  /\ abandoned_in r.2 hashTx = true
  /\ (exists t, db_tx r.2 !! hashTx = Some t /\ isAbandoned t = true /\ nIndex t = -1)
  /\ TransactionCanBeAbandoned env r.2 hashTx = false
  /\ evolves ABANDON_HASH w r.2.
Proof.
  intros Hheld Hdepth Hfresh Hpool Hret.
  destruct (abandoned_result fuel env hashTx w origtx r Hheld Hdepth Hfresh Hpool Hret)
    as (Hr & Hev & (t & Ht & Hb & Hi) & Hdb & _).
  split; [done|]. unfold abandoned_in, TransactionCanBeAbandoned, isAbandoned.
  rewrite Ht, Hb, Hi. done.
Qed.

Lemma AbandonTransaction_marks_witness :
  exists w', AbandonTransaction 10 idle_chain 1 chain_wallet = Returned (true, w')
             /\ abandoned_in w' 1 = true
             /\ TransactionCanBeAbandoned idle_chain w' 1 = false.
Proof.
  destruct (AbandonTransaction 10 idle_chain 1 chain_wallet) as [r|why] eqn:Hr;
    [|vm_compute in Hr; discriminate].
  destruct (AbandonTransaction_marks 10 idle_chain 1 chain_wallet (unconfirmed []) r)
    as (H1 & H2 & _ & H4 & _);
    [reflexivity|reflexivity|reflexivity|reflexivity|exact Hr|].
  destruct r as [b w']. simpl in *. subst b. by exists w'.
Defined.

(** After such a call none of the outputs of the abandoned transaction
    counts as spent: every wallet transaction that spends one of them is
    itself abandoned, or conflicted. *)
Theorem AbandonTransaction_frees_outputs (fuel : nat) (env : ChainEnv)
    (hashTx : uint256) (w : MCWallet) (origtx : MCWalletTx) (r : bool * MCWallet)
    (i : Z) :
  mapWallet w !! hashTx = Some origtx ->
  GetDepthInMainChain env origtx = 0 ->
  isAbandoned origtx = false ->
  in_mempool env hashTx = false ->
  spends_sorted (mapTxSpends w) = true ->
  0 <= i ->
  AbandonTransaction fuel env hashTx w = Returned r ->
  IsSpent env r.2 hashTx i = false.
Proof.
  intros Hheld Hdepth Hfresh Hpool Hs Hi Hret.
  destruct (abandoned_result fuel env hashTx w origtx r Hheld Hdepth Hfresh Hpool Hret)
    as (_ & [Hsp _] & _ & _ & Hkids).
  unfold IsSpent. rewrite Hsp. apply spent_in_false.
  intros k s t [Hin Hk]%equal_range_key Ht; [|done]. simpl in Hk. subst k.
  destruct (Hkids i s Hs Hi Hin) as (t' & Ht' & Hno). congruence.
Qed.

Lemma AbandonTransaction_frees_outputs_witness :
  exists w', AbandonTransaction 10 idle_chain 1 chain_wallet = Returned (true, w')
             /\ IsSpent idle_chain chain_wallet 1 0 = true
             /\ IsSpent idle_chain w' 1 0 = false.
Proof.
  destruct (AbandonTransaction 10 idle_chain 1 chain_wallet) as [r|why] eqn:Hr;
    [|vm_compute in Hr; discriminate].
  pose proof (AbandonTransaction_frees_outputs 10 idle_chain 1 chain_wallet
                (unconfirmed []) r 0) as H.
  destruct r as [b w']. exists w'.
  split; [vm_compute in Hr; injection Hr as <- _; reflexivity|].
  split; [reflexivity|].
  apply H; [reflexivity|reflexivity|reflexivity|reflexivity|reflexivity|lia|exact Hr].
Defined.

(** After such a call the abandoned transaction no longer spends its
    inputs: an outpoint that no other wallet transaction spends is not
    spent. *)
Theorem AbandonTransaction_frees_inputs (fuel : nat) (env : ChainEnv)
    (hashTx : uint256) (w : MCWallet) (origtx : MCWalletTx) (r : bool * MCWallet)
    (prevout : MCOutPoint) :
  mapWallet w !! hashTx = Some origtx ->
  GetDepthInMainChain env origtx = 0 ->
  isAbandoned origtx = false ->
  in_mempool env hashTx = false ->
  spends_sorted (mapTxSpends w) = true ->
  (forall s, (prevout, s) ∈ mapTxSpends w -> s = hashTx) ->
  AbandonTransaction fuel env hashTx w = Returned r ->
  IsSpent env r.2 (hash prevout) (n prevout) = false.
Proof.
  intros Hheld Hdepth Hfresh Hpool Hs Honly Hret.
  destruct (abandoned_result fuel env hashTx w origtx r Hheld Hdepth Hfresh Hpool Hret)
    as (_ & [Hsp _] & (t & Ht & Hb & _) & _ & _).
  unfold IsSpent. rewrite Hsp. apply spent_in_false.
  intros k s t' [Hin Hk]%equal_range_key Ht'; [|done]. simpl in Hk. subst k.
  destruct prevout as [ph pn]. simpl in *.
  rewrite (Honly s Hin) in Ht'. replace t' with t by congruence.
  by apply spends_abandoned.
Qed.

Lemma AbandonTransaction_frees_inputs_witness :
  exists w', AbandonTransaction 10 idle_chain 2 chain_wallet = Returned (true, w')
             /\ IsSpent idle_chain chain_wallet 1 0 = true
             /\ IsSpent idle_chain w' 1 0 = false.
Proof.
  destruct (AbandonTransaction 10 idle_chain 2 chain_wallet) as [r|why] eqn:Hr;
    [|vm_compute in Hr; discriminate].
  pose proof (AbandonTransaction_frees_inputs 10 idle_chain 2 chain_wallet
                (unconfirmed [{| hash := 1; n := 0 |}]) r {| hash := 1; n := 0 |}) as H.
  destruct r as [b w']. exists w'.
  split; [vm_compute in Hr; injection Hr as <- _; reflexivity|].
  split; [reflexivity|].
  apply H; [reflexivity|reflexivity|reflexivity|reflexivity|reflexivity| |exact Hr].
  intros s Hin. unfold chain_wallet in Hin. simpl in Hin.
  apply elem_of_cons in Hin as [[= <-]|Hin]; [done|].
  apply elem_of_cons in Hin as [Hin|Hin]; [discriminate|].
  by apply elem_of_nil in Hin.
Defined.

(** [AbandonTransaction] changes the wallet only for a transaction at depth
    0 that is neither abandoned nor in the mempool.  For any other
    transaction of the wallet it leaves the wallet as it was, and still
    answers [true] when the transaction is not confirmed and not in the
    mempool: so for one that is abandoned already, and for a conflicted
    one, which [TransactionCanBeAbandoned] reports as abandonable. *)
Theorem AbandonTransaction_unchanged (fuel : nat) (env : ChainEnv)
    (hashTx : uint256) (w : MCWallet) (origtx : MCWalletTx) :
  mapWallet w !! hashTx = Some origtx ->
  (GetDepthInMainChain env origtx =? 0) && negb (isAbandoned origtx)
    && negb (in_mempool env hashTx) = false ->
  AbandonTransaction (S fuel) env hashTx w
  = Returned ((GetDepthInMainChain env origtx <=? 0) && negb (in_mempool env hashTx), w)
  /\ (GetDepthInMainChain env origtx < 0 -> in_mempool env hashTx = false ->
      TransactionCanBeAbandoned env w hashTx = true).
Proof.
  intros Hheld Hc. split.
  - unfold AbandonTransaction. rewrite Hheld.
    destruct (Z.ltb_spec 0 (GetDepthInMainChain env origtx)) as [Hpos|Hle].
    { simpl. by replace (_ <=? 0) with false by (symmetry; apply Z.leb_gt; lia). }
    replace (_ <=? 0) with true by (symmetry; apply Z.leb_le; lia).
    destruct (in_mempool env hashTx) eqn:Hpool; [done|]. simpl.
    rewrite Hheld.
    replace (0 <? GetDepthInMainChain env origtx) with false
      by (symmetry; apply Z.ltb_ge; lia).
    rewrite andb_true_r in Hc. rewrite Hc. by destruct fuel.
  - intros Hneg Hpool. unfold TransactionCanBeAbandoned. rewrite Hheld, Hpool.
    replace (_ <=? 0) with true by (symmetry; apply Z.leb_le; lia).
    unfold isAbandoned.
    destruct (Z.eqb_spec (hashBlock origtx) ABANDON_HASH) as [He|]; [|done].
    rewrite (depth_abandoned env origtx He) in Hneg. lia.
Qed.

Lemma AbandonTransaction_unchanged_witness :
  AbandonTransaction 1 tip_chain 7 conflicted_wallet = Returned (true, conflicted_wallet)
  /\ TransactionCanBeAbandoned tip_chain conflicted_wallet 7 = true.
Proof.
  destruct (AbandonTransaction_unchanged 0 tip_chain 7 conflicted_wallet
              {| vin := []; hashBlock := 50; nIndex := -1; fDirty := false |})
    as [H1 H2]; [reflexivity|reflexivity|].
  split; [exact H1|]. apply H2; [vm_compute; reflexivity|reflexivity].
Defined.

(** ** The loop of [MarkConflicted] *)

Lemma dirty_inputs_kept m ins x :
  option_Forall2 (fun t t' => vin t' = vin t /\ hashBlock t' = hashBlock t
                              /\ nIndex t' = nIndex t)
                 (m !! x) (dirty_inputs m ins !! x).
Proof.
  unfold dirty_inputs. revert m. induction ins as [|txin ins IH]; intros m; simpl.
  - by destruct (m !! x); constructor.
  - specialize (IH (match m !! hash txin with
                    | Some t => <[hash txin := MarkDirty t]> m
                    | None => m end)).
    destruct (m !! hash txin) as [t|] eqn:Ht; [|done].
    destruct (decide (hash txin = x)) as [<-|Hne].
    + rewrite lookup_insert_eq in IH. rewrite Ht.
      inversion IH as [a b Hab|]; subst. by constructor.
    + by rewrite lookup_insert_ne in IH.
Qed.

Lemma mark_step_depth_other env w now t' ins x :
  x <> now ->
  depth_of env {| mapWallet := dirty_inputs (<[now := t']> (mapWallet w)) ins;
                  mapTxSpends := mapTxSpends w; db_tx := db_tx w;
                  notified := notified w |} x
  = depth_of env w x.
Proof.
  intros Hne. unfold depth_of. simpl.
  pose proof (dirty_inputs_kept (<[now := t']> (mapWallet w)) ins x) as H.
  rewrite lookup_insert_ne in H by done.
  inversion H as [a b (_ & Hb & Hi)|]; [|done].
  by apply depth_same_core.
Qed.

Lemma depth_marked env hb d t :
  block_depth env hb = Some d -> hb <> 0 -> hb <> ABANDON_HASH ->
  hashBlock t = hb -> nIndex t = -1 -> GetDepthInMainChain env t = - d.
Proof.
  intros Hd H0 H1 Hb Hi. unfold GetDepthInMainChain, hashUnset.
  rewrite Hb, Hi, Hd.
  replace (hb =? 0) with false by (symmetry; by apply Z.eqb_neq).
  replace (hb =? ABANDON_HASH) with false by (symmetry; by apply Z.eqb_neq).
  simpl. lia.
Qed.

Section Conflicted.
Context (env : ChainEnv) (hb : uint256) (d : Z) (hashTx : uint256) (w0 : MCWallet).
Hypothesis Hblock : block_depth env hb = Some d.
Hypothesis Hnull : hb <> 0.
Hypothesis Hab : hb <> ABANDON_HASH.
Hypothesis Hsorted : spends_sorted (mapTxSpends w0) = true.

Local Abbreviation conflict_inv := (Conflicts.conflict_inv env d hashTx w0).

Lemma conflict_loop_inv fuel todo done w w' :
  conflict_inv todo done w ->
  conflict_loop fuel env hb (- d) todo done w = Returned w' ->
  exists done', conflict_inv [] done' w'.
Proof.
  revert todo done w. induction fuel as [|fuel IH]; intros todo done w Hinv.
  { destruct todo; simpl; [|done]. intros [= <-]. by exists done. }
  destruct todo as [|now todo']; simpl; [intros [= <-]; by exists done|].
  destruct Hinv as (Hsp & Hdone & Hrest & Hkids & Hroot).
  destruct (mapWallet w !! now) as [wtx|] eqn:Hnow; [|done].
  assert (Hdnow : depth_of env w now = GetDepthInMainChain env wtx)
    by (unfold depth_of; by rewrite Hnow).
  destruct (Z.ltb_spec (- d) (GetDepthInMainChain env wtx)) as [Hlt|Hge].
  - apply IH. clear IH.
    destruct (mark_step_lookup hb w now wtx) as (t & Ht & Hb & Hi).
    split; [done|]. split; [|split; [|split]].
    + intros x Hx. destruct (decide (x = now)) as [->|Hne].
      * unfold depth_of. simpl. rewrite Ht. split; [done|].
        rewrite (depth_marked env hb d t); [lia|done..].
      * apply elem_of_union in Hx as [Hx%elem_of_singleton|Hx]; [done|].
        destruct (Hdone x Hx) as [Hin Hd]. split.
        -- simpl.
           pose proof (dirty_inputs_kept
             (<[now := {| vin := vin wtx; hashBlock := hb; nIndex := -1;
                          fDirty := true |}]> (mapWallet w)) (vin wtx) x) as H.
           rewrite lookup_insert_ne in H by done.
           destruct Hin as [tx Htx]. rewrite Htx in H. inversion H. eauto.
        -- pose proof (mark_step_depth_other env w now
             {| vin := vin wtx; hashBlock := hb; nIndex := -1; fDirty := true |}
             (vin wtx) x Hne) as Heq.
           unfold depth_of in *. simpl in *. rewrite Heq. exact Hd.
    + intros x Hx.
      assert (x <> now) by (intros ->; apply Hx, elem_of_union; left;
                            by apply elem_of_singleton).
      assert (x ∉ done) by (intros ?; apply Hx, elem_of_union; by right).
      pose proof (mark_step_depth_other env w now
        {| vin := vin wtx; hashBlock := hb; nIndex := -1; fDirty := true |}
        (vin wtx) x H) as Heq.
      unfold depth_of in *. simpl in *. rewrite Heq. by apply Hrest.
    + intros x y i Hx Hdx Hi' Hin.
      destruct (decide (y ∈ {[now]} ∪ done)) as [Hy|Hy]; [by left|]. right.
      destruct (decide (x = now)) as [->|Hne].
      * rewrite Hsp.
        by apply (queue_spenders_direct now _ _ _ i y Hsorted Hi' Hin).
      * apply queue_spenders_keeps.
        apply elem_of_union in Hx as [Hx%elem_of_singleton|Hx]; [done|].
        destruct (Hkids x y i Hx Hdx Hi' Hin) as [Hyd|Hyt].
        -- exfalso. apply Hy, elem_of_union. by right.
        -- apply elem_of_cons in Hyt as [->|Hyt]; [|done].
           exfalso. apply Hy, elem_of_union. left. by apply elem_of_singleton.
    + destruct Hroot as [Hr|Hr]; [left; apply elem_of_union; by right|].
      apply elem_of_cons in Hr as [->|Hr].
      * left. apply elem_of_union. left. by apply elem_of_singleton.
      * right. by apply queue_spenders_keeps.
  - apply IH. clear IH.
    split; [done|]. split; [|split; [|split]].
    + intros x [Hx%elem_of_singleton|Hx]%elem_of_union; [|by apply Hdone].
      subst x. split; [by rewrite Hnow|]. lia.
    + intros x Hx. apply Hrest. intros ?. apply Hx, elem_of_union. by right.
    + intros x y i Hx Hdx Hi' Hin.
      assert (Hold : x ∈ done).
      { apply elem_of_union in Hx as [Hx%elem_of_singleton|Hx]; [|done].
        subst x. destruct (decide (now ∈ done)) as [|Hnd]; [done|].
        rewrite <- (Hrest now Hnd) in Hdx. lia. }
      destruct (Hkids x y i Hold Hdx Hi' Hin) as [Hyd|Hyt].
      * left. apply elem_of_union. by right.
      * apply elem_of_cons in Hyt as [->|Hyt]; [|by right].
        left. apply elem_of_union. left. by apply elem_of_singleton.
    + destruct Hroot as [Hr|Hr]; [left; apply elem_of_union; by right|].
      apply elem_of_cons in Hr as [->|Hr]; [|by right].
      left. apply elem_of_union. left. by apply elem_of_singleton.
Qed.

Lemma conflict_inv_reaches done w x :
  conflict_inv [] done w -> reaches env w0 (- d) hashTx x -> x ∈ done.
Proof.
  intros (_ & _ & _ & Hkids & Hroot). induction 1 as [|x y i _ IH Hd Hi Hin].
  - destruct Hroot as [?|H]; [done|by apply elem_of_nil in H].
  - destruct (Hkids x y i IH Hd Hi Hin) as [?|H]; [done|by apply elem_of_nil in H].
Qed.

End Conflicted.

(** [MarkConflicted] is transitive.  When the conflicting block is on the
    active chain at depth [d], every wallet transaction reached from
    [hashTx] through spends of transactions the call has to mark is, once
    the call returns, at depth [-d] or below: conflicted with that block,
    or with a deeper one as before. *)
Theorem MarkConflicted_transitive (fuel : nat) (env : ChainEnv)
    (hashBlock hashTx : uint256) (w w' : MCWallet) (d : Z) (x : uint256) :
  block_depth env hashBlock = Some d ->
  0 < d ->
  hashBlock <> 0 ->
  hashBlock <> ABANDON_HASH ->
  spends_sorted (mapTxSpends w) = true ->
  MarkConflicted fuel env hashBlock hashTx w = Returned w' ->
  reaches env w (- d) hashTx x ->
  exists t, mapWallet w' !! x = Some t /\ GetDepthInMainChain env t <= - d.
Proof.
  intros Hd Hpos H0 H1 Hs Hret Hreach. unfold MarkConflicted in Hret.
  rewrite Hd in Hret.
  replace (- d >=? 0) with false in Hret
    by (symmetry; rewrite Z.geb_leb; apply Z.leb_gt; lia).
  apply (conflict_loop_inv env hashBlock d hashTx w Hd H0 H1 Hs) in Hret
    as [done Hinv].
  - pose proof (conflict_inv_reaches env d hashTx w done w' x Hinv Hreach) as Hx.
    destruct Hinv as (_ & Hdone & _).
    destruct (Hdone x Hx) as [[t Ht] Hdepth]. exists t. split; [done|].
    unfold depth_of in Hdepth. by rewrite Ht in Hdepth.
  - split; [done|]. split; [|split; [|split]].
    + intros y Hy. by apply elem_of_empty in Hy.
    + done.
    + intros y z i Hy. by apply elem_of_empty in Hy.
    + right. left.
Qed.

Lemma MarkConflicted_transitive_witness :
  exists w', MarkConflicted 10 tip_chain 50 1 chain_wallet = Returned w'
             /\ exists t, mapWallet w' !! 3 = Some t
                          /\ GetDepthInMainChain tip_chain t <= -1.
Proof.
  destruct (MarkConflicted 10 tip_chain 50 1 chain_wallet) as [w'|why] eqn:Hr;
    [|vm_compute in Hr; discriminate].
  exists w'. split; [done|].
  apply (MarkConflicted_transitive 10 tip_chain 50 1 chain_wallet w' 1 3);
    [reflexivity|lia|discriminate|discriminate|reflexivity|exact Hr|].
  apply (reaches_spender _ _ _ _ 2 3 0); [|vm_compute; reflexivity|lia|right; left].
  apply (reaches_spender _ _ _ _ 1 2 0); [|vm_compute; reflexivity|lia|left].
  apply reaches_self.
Defined.

(** ** Both loops end *)

Lemma todo_insert_increasing h todo :
  increasing todo -> increasing (todo_insert h todo).
Proof.
  induction todo as [|x todo IH]; simpl.
  - intros _. split; [|done]. intros y Hy. by apply elem_of_nil in Hy.
  - intros [Hx Hinc].
    destruct (Z.ltb_spec h x) as [Hlt|Hge].
    { split; [|done]. intros y [->|Hy]%elem_of_cons; [done|].
      specialize (Hx y Hy). lia. }
    destruct (Z.eqb_spec h x) as [->|Hne]; [done|].
    split; [|by apply IH].
    intros y [->|Hy]%todo_insert_elem; [lia|by apply Hx].
Qed.

Lemma queue_spenders_increasing now iter (done : gset uint256) todo :
  increasing todo -> increasing (queue_spenders now iter done todo).
Proof.
  revert todo. induction iter as [|[p s] iter IH]; intros todo Hinc; simpl; [done|].
  destruct (hash p =? now); [|done]. apply IH.
  case_bool_decide; [done|]. by apply todo_insert_increasing.
Qed.

Lemma queue_spenders_fresh now iter (done : gset uint256) todo x :
  (forall y, y ∈ todo -> y ∉ done) ->
  x ∈ queue_spenders now iter done todo -> x ∉ done.
Proof.
  intros Htodo [Hx|[Hx _]]%queue_spenders_elem; [by apply Htodo|done].
Qed.

Lemma mark_step_dom hb w now wtx :
  mapWallet w !! now = Some wtx ->
  dom (dirty_inputs (<[now := {| vin := vin wtx; hashBlock := hb;
                                 nIndex := -1; fDirty := true |}]> (mapWallet w))
                    (vin wtx))
  = dom (mapWallet w).
Proof.
  intros Hnow. apply set_eq. intros x. rewrite !elem_of_dom.
  pose proof (mark_step_evolves hb w now wtx (db_tx w) (notified w) Hnow) as [_ H].
  specialize (H x). simpl in H.
  inversion H as [a b Hab Ha Hb|Ha Hb]; split; intros [? ?]; eauto; congruence.
Qed.

Lemma round_measure (D done : gset uint256) (now : uint256) (fuel : nat) :
  now ∈ D -> now ∉ done ->
  (size (D ∖ done) < S fuel)%nat -> (size (D ∖ ({[now]} ∪ done)) < fuel)%nat.
Proof.
  intros Hin Hnd Hlt.
  assert (size (D ∖ ({[now]} ∪ done)) < size (D ∖ done))%nat; [|lia].
  apply subset_size. split.
  - intros x [Hx Hn]%elem_of_difference. apply elem_of_difference. split; [done|].
    intros ?. apply Hn, elem_of_union. by right.
  - intros Hsub. assert (Hnow : now ∈ D ∖ done) by (by apply elem_of_difference).
    apply Hsub, elem_of_difference in Hnow as [_ Hn].
    apply Hn, elem_of_union. left. by apply elem_of_singleton.
Qed.

Lemma round_todo (now : uint256) todo' iter (done : gset uint256) :
  increasing (now :: todo') -> (forall y, y ∈ now :: todo' -> y ∉ done) ->
  forall y, y ∈ queue_spenders now iter ({[now]} ∪ done) todo' ->
            y ∉ {[now]} ∪ done.
Proof.
  intros [Hnow _] Hfresh y. apply queue_spenders_fresh.
  intros z Hz [Hz'%elem_of_singleton|Hz']%elem_of_union.
  - specialize (Hnow z Hz). lia.
  - apply (Hfresh z); [by right|done].
Qed.

Lemma abandon_loop_ends fuel env hashTx todo done w :
  increasing todo -> (forall y, y ∈ todo -> y ∉ done) ->
  (size (dom (mapWallet w) ∖ done) < fuel)%nat ->
  abandon_loop fuel env hashTx todo done w <> Aborted "out of fuel".
Proof.
  revert todo done w. induction fuel as [|fuel IH]; intros todo done w Hinc Hfresh Hsz;
    [lia|].
  destruct todo as [|now todo']; simpl; [done|].
  destruct (mapWallet w !! now) as [wtx|] eqn:Hnow; [|done].
  assert (Hm : (size (dom (mapWallet w) ∖ ({[now]} ∪ done)) < fuel)%nat).
  { apply round_measure; [by apply elem_of_dom|apply Hfresh; left|done]. }
  destruct (0 <? GetDepthInMainChain env wtx); [done|].
  destruct ((GetDepthInMainChain env wtx =? 0) && negb (isAbandoned wtx)).
  - destruct (in_mempool env now); [done|]. apply IH.
    + apply queue_spenders_increasing. by destruct Hinc.
    + by apply round_todo.
    + simpl. by rewrite (mark_step_dom ABANDON_HASH w now wtx Hnow).
  - apply IH; [by destruct Hinc| |done].
    intros y Hy. apply (round_todo now todo' [] done Hinc Hfresh y). exact Hy.
Qed.

Lemma conflict_loop_ends fuel env hb c todo done w :
  increasing todo -> (forall y, y ∈ todo -> y ∉ done) ->
  (size (dom (mapWallet w) ∖ done) < fuel)%nat ->
  conflict_loop fuel env hb c todo done w <> Aborted "out of fuel".
Proof.
  revert todo done w. induction fuel as [|fuel IH]; intros todo done w Hinc Hfresh Hsz;
    [lia|].
  destruct todo as [|now todo']; simpl; [done|].
  destruct (mapWallet w !! now) as [wtx|] eqn:Hnow; [|done].
  assert (Hm : (size (dom (mapWallet w) ∖ ({[now]} ∪ done)) < fuel)%nat).
  { apply round_measure; [by apply elem_of_dom|apply Hfresh; left|done]. }
  destruct (c <? GetDepthInMainChain env wtx).
  - apply IH.
    + apply queue_spenders_increasing. by destruct Hinc.
    + by apply round_todo.
    + simpl. by rewrite (mark_step_dom hb w now wtx Hnow).
  - apply IH; [by destruct Hinc| |done].
    intros y Hy. apply (round_todo now todo' [] done Hinc Hfresh y). exact Hy.
Qed.

(** The loops of [AbandonTransaction] and [MarkConflicted] take at most one
    round for each transaction of the wallet: given more rounds than the
    wallet has transactions, a call returns or fails one of the
    assertions of the source, and never runs out of rounds. *)
Theorem worklists_end (fuel : nat) (env : ChainEnv) (hashBlock hashTx : uint256)
    (w : MCWallet) :
  (size (mapWallet w) < fuel)%nat ->
  AbandonTransaction fuel env hashTx w <> Aborted "out of fuel"
  /\ MarkConflicted fuel env hashBlock hashTx w <> Aborted "out of fuel".
Proof.
  intros Hsz.
  assert (Hstart : (size (dom (mapWallet w) ∖ (∅ : gset uint256)) < fuel)%nat).
  { rewrite difference_empty_L, size_dom. exact Hsz. }
  assert (Hinc : increasing [hashTx]).
  { split; [|done]. intros y Hy. by apply elem_of_nil in Hy. }
  assert (Hfresh : forall y, y ∈ [hashTx] -> y ∉ (∅ : gset uint256)).
  { intros y _ Hy. by apply elem_of_empty in Hy. }
  split.
  - unfold AbandonTransaction. destruct (mapWallet w !! hashTx); [|done].
    destruct (_ || _); [done|].
    pose proof (abandon_loop_ends fuel env hashTx [hashTx] ∅ w Hinc Hfresh Hstart).
    destruct (abandon_loop _ _ _ _ _ _) as [w'|why]; [done|].
    intros [= ->]. by apply H.
  - unfold MarkConflicted. destruct (_ >=? 0); [done|].
    by apply conflict_loop_ends.
Qed.

Lemma worklists_end_witness :
  AbandonTransaction 4 idle_chain 1 chain_wallet <> Aborted "out of fuel"
  /\ MarkConflicted 4 tip_chain 50 1 chain_wallet <> Aborted "out of fuel".
Proof.
  split.
  - apply (worklists_end 4 idle_chain 50 1 chain_wallet). vm_compute. lia.
  - apply (worklists_end 4 tip_chain 50 1 chain_wallet). vm_compute. lia.
Defined.

End ConflictsFacts.

Module KeyPoolFacts.
Import KeyPool Conflicts ConflictsFacts.

Lemma set_insert_length (h : Z) (l : list Z) :
  h ∉ l -> length (set_insert h l) = S (length l).
Proof.
  unfold set_insert. induction l as [|x l IH]; simpl; [done|]. intros Hn.
  destruct (h <? x); [done|].
  destruct (Z.eqb_spec h x) as [->|Hne]; [exfalso; apply Hn; left|].
  simpl. f_equal. apply IH. intros ?. apply Hn. by right.
Qed.

Lemma set_insert_least (h : Z) (l : list Z) :
  (forall y, y ∈ l -> h < y) -> set_insert h l = h :: l.
Proof.
  unfold set_insert. destruct l as [|x l]; simpl; [done|]. intros H.
  replace (h <? x) with true; [done|]. symmetry. apply Z.ltb_lt, H. left.
Qed.

Lemma filter_all {A} (P : A -> Prop) `{forall x, Decision (P x)} (l : list A) :
  (forall y, y ∈ l -> P y) -> filter P l = l.
Proof.
  induction l as [|x l IH]; intros Hall; [done|].
  rewrite filter_cons_True by (apply Hall; left). f_equal.
  apply IH. intros y Hy. apply Hall. by right.
Qed.

Lemma erase_all_lookup (db : gmap Z MCKeyPool) (l : list Z) (j : Z) :
  foldl (fun db nIndex => delete nIndex db) db l !! j
  = if bool_decide (j ∈ l) then None else db !! j.
Proof.
  revert db. induction l as [|x l IH]; intros db; simpl; [done|].
  rewrite IH. destruct (decide (j = x)) as [->|Hne].
  - rewrite lookup_delete_eq. rewrite (bool_decide_eq_true_2 (x ∈ x :: l)) by left.
    by case_bool_decide.
  - rewrite lookup_delete_ne by done.
    case_bool_decide as H1; case_bool_decide as H2; try done.
    + exfalso. apply H2. by right.
    + apply elem_of_cons in H2 as [?|?]; done.
Qed.

(** ** Generating a key keeps the keys held *)

Lemma GenerateNewKey_mapKeys fuel b kenv internal ks id ks' :
  HD.GenerateNewKey fuel b kenv internal ks = Returned (id, ks') ->
  exists secret, HD.mapKeys ks' = <[id := secret]> (HD.mapKeys ks).
Proof.
  unfold HD.GenerateNewKey.
  set (md := {| HD.nCreateTime := _; HD.hdKeypath := _; HD.hdMasterKeyID := _ |}).
  assert (Hd : forall r secret md' w1,
            (if HD.IsHDEnabled ks
             then HD.DeriveNewChildKey fuel b kenv md r ks
             else Returned (HD.fresh_key kenv, md, ks)) = Returned (secret, md', w1) ->
            HD.mapKeys w1 = HD.mapKeys ks).
  { intros r secret md' w1. destruct (HD.IsHDEnabled ks); [|by intros [= _ _ <-]].
    unfold HD.DeriveNewChildKey.
    destruct (HD.mapKeys ks !! _); [|done].
    destruct (_ && _); [done|].
    destruct (HD.derive_loop _ _ _ _ _ _) as [[[? ?] ?]|]; [|done].
    destruct (HD.write_hdchain_ok kenv); [|done]. by intros [= _ _ <-]. }
  destruct (if HD.IsHDEnabled ks then _ else _) as [[[secret md'] w1]|] eqn:Hder;
    [|done].
  apply Hd in Hder.
  destruct (negb (HD.add_key_ok kenv)); [done|].
  destruct (_ && _); [done|].
  intros [= <- <-]. simpl. exists secret. f_equal. rewrite <- Hder.
  destruct (HD.CanSupportFeature ks _); [|done].
  unfold HD.SetMinVersion. by destruct (_ >=? _).
Qed.

(** ** Topping up *)

Lemma pool_ok_insert (internal : bool) (w : MCWallet) ks kti db :
  pool_ok w ->
  pool_ok {| keys := ks; vMasterKey_empty := vMasterKey_empty w;
             setInternalKeyPool :=
               if internal
               then set_insert (m_max_keypool_index w + 1) (setInternalKeyPool w)
               else setInternalKeyPool w;
             setExternalKeyPool :=
               if internal then setExternalKeyPool w
               else set_insert (m_max_keypool_index w + 1) (setExternalKeyPool w);
             m_max_keypool_index := m_max_keypool_index w + 1;
             m_pool_key_to_index := kti; db_pool := db |}.
Proof.
  intros (Hi & He & Hb). unfold pool_ok, pool_of. simpl.
  split; [destruct internal; [by apply todo_insert_increasing|done]|].
  split; [destruct internal; [done|by apply todo_insert_increasing]|].
  intros int j Hj.
  assert (j = m_max_keypool_index w + 1 \/ j ∈ pool_of int w) as [->|Hold].
  { unfold pool_of. destruct int, internal; try (by right);
      apply todo_insert_elem in Hj; tauto. }
  - lia.
  - specialize (Hb int j Hold). lia.
Qed.

Lemma HaveKey_grows (ks ks' : HD.MCWallet) (id k : Z) (secret : list Z) :
  HD.mapKeys ks' = <[id := secret]> (HD.mapKeys ks) ->
  HD.HaveKey ks' id = true
  /\ (HD.HaveKey ks k = true -> HD.HaveKey ks' k = true).
Proof.
  intros Hm. unfold HD.HaveKey. rewrite Hm. split.
  - apply bool_decide_eq_true_2. rewrite lookup_insert_eq. by eexists.
  - intros Hk. apply bool_decide_eq_true_1 in Hk. apply bool_decide_eq_true_2.
    destruct (decide (k = id)) as [->|Hne].
    + rewrite lookup_insert_eq. by eexists.
    + by rewrite lookup_insert_ne.
Qed.

Lemma topup_loop_spec fuel b kenv penv mI rounds internal w w' :
  0 <= mI -> pool_ok w ->
  topup_loop fuel b kenv penv mI rounds internal w = Returned w' ->
  pool_ok w'
  /\ vMasterKey_empty w' = vMasterKey_empty w
  /\ m_max_keypool_index w' = m_max_keypool_index w + Z.of_nat rounds
  /\ Z.of_nat (length (setExternalKeyPool w'))
     = Z.of_nat (length (setExternalKeyPool w))
       + (if internal then 0 else Z.max (Z.of_nat rounds - mI) 0)
  /\ Z.of_nat (length (setInternalKeyPool w'))
     = Z.of_nat (length (setInternalKeyPool w)) + Z.of_nat rounds
       - (if internal then 0 else Z.max (Z.of_nat rounds - mI) 0)
  /\ (forall int j, j ∈ pool_of int w' ->
        j ∈ pool_of int w \/ m_max_keypool_index w < j)
  /\ (forall int j, j ∈ pool_of int w -> j ∈ pool_of int w')
  /\ (forall j, j <= m_max_keypool_index w -> db_pool w' !! j = db_pool w !! j)
  /\ (forall k, HD.HaveKey (keys w) k = true -> HD.HaveKey (keys w') k = true)
  /\ (forall int j, j ∈ pool_of int w' -> m_max_keypool_index w < j ->
        exists kp, db_pool w' !! j = Some kp /\ fInternal kp = int
                   /\ nTime kp = HD.GetTime kenv
                   /\ HD.HaveKey (keys w') (vchPubKey kp) = true).
Proof.
  intros HmI. revert internal w.
  induction rounds as [|i IH]; intros internal w Hok.
  { simpl. intros [= <-]. split; [done|]. split; [done|]. split; [lia|].
    split; [destruct internal; lia|]. split; [destruct internal; lia|].
    split; [intros int j Hj; by left|]. split; [done|]. split; [done|].
    split; [done|]. intros int j Hj Hlt. destruct Hok as (_ & _ & Hbound).
    specialize (Hbound int j Hj). lia. }
  cbn [topup_loop].
  set (int' := if Z.of_nat i <? mI then true else internal).
  destruct (negb (m_max_keypool_index w <? int64_max)); [done|].
  destruct (HD.GenerateNewKey fuel b kenv int' (keys w)) as [[pubkey ks]|] eqn:Hgen;
    [|done].
  apply GenerateNewKey_mapKeys in Hgen as [secret Hkeys].
  destruct (HaveKey_grows (keys w) ks pubkey pubkey secret Hkeys) as [Hnewkey _].
  destruct (negb (write_pool_ok penv)); [done|].
  intros Hloop. apply IH in Hloop; [|by apply pool_ok_insert]. clear IH.
  destruct Hloop as (Hok' & Hl & Hm & Hext & Hint & Hnew & Hold & Hdb & Hhave & Hback).
  simpl in Hl, Hm, Hext, Hint, Hdb.
  destruct Hok as (Hinc_i & Hinc_e & Hbound).
  assert (Hfresh : forall int, m_max_keypool_index w + 1 ∉ pool_of int w).
  { intros int Hin. specialize (Hbound int _ Hin). lia. }
  split; [done|]. split; [done|]. split; [lia|].
  rewrite Nat2Z.inj_succ.
  assert (Hlen :
    Z.of_nat (length (setExternalKeyPool w')) =
      Z.of_nat (length (setExternalKeyPool w)) + (if int' then 0 else 1)
      + (if int' then 0 else Z.max (Z.of_nat i - mI) 0)
    /\ Z.of_nat (length (setInternalKeyPool w')) =
      Z.of_nat (length (setInternalKeyPool w)) + (if int' then 1 else 0)
      + Z.of_nat i - (if int' then 0 else Z.max (Z.of_nat i - mI) 0)).
  { pose proof (Hfresh true) as Hfi. pose proof (Hfresh false) as Hfe.
    unfold pool_of in Hfi, Hfe.
    destruct int'; simpl in Hext, Hint.
    - rewrite (set_insert_length _ _ Hfi) in Hint. lia.
    - rewrite (set_insert_length _ _ Hfe) in Hext. lia. }
  destruct Hlen as [Hle Hli].
  assert (Hstep : forall int j,
            j ∈ pool_of int w' ->
            (j = m_max_keypool_index w + 1 /\ int = int')
            \/ j ∈ pool_of int w \/ m_max_keypool_index w + 1 < j).
  { intros int j Hj. destruct (Hnew int j Hj) as [Hj'|Hj']; [|right; right; done].
    unfold pool_of in Hj'. simpl in Hj'. unfold pool_of.
    destruct int, int'; try (by right; left);
      apply todo_insert_elem in Hj' as [->|?]; tauto. }
  split; [|split]; [..|split; [|split; [|split; [|split]]]].
  - rewrite Hle. subst int'.
    destruct (Z.ltb_spec (Z.of_nat i) mI); destruct internal; lia.
  - rewrite Hli. subst int'.
    destruct (Z.ltb_spec (Z.of_nat i) mI); destruct internal; lia.
  - intros int j Hj. destruct (Hstep int j Hj) as [[-> _]|[?|?]];
      [right; lia|by left|right; lia].
  - intros int j Hj. apply Hold. unfold pool_of in *. simpl.
    destruct int, int'; try done; apply todo_insert_elem; by right.
  - intros j Hj. rewrite Hdb by lia. simpl. apply lookup_insert_ne. lia.
  - intros k Hk. apply Hhave. simpl.
    by apply (HaveKey_grows (keys w) ks pubkey k secret Hkeys).
  - intros int j Hj Hlt. destruct (Hstep int j Hj) as [[-> ->]|[Hj'|Hj']].
    + eexists. rewrite Hdb by lia. simpl. rewrite lookup_insert_eq.
      split; [done|]. split; [done|]. split; [done|]. by apply Hhave.
    + specialize (Hbound int j Hj'). lia.
    + by apply Hback.
Qed.

Lemma TopUpKeyPool_locked fuel b kenv penv kpSize w :
  IsLocked w = true -> TopUpKeyPool fuel b kenv penv kpSize w = Returned (false, w).
Proof. intros H. unfold TopUpKeyPool. by rewrite H. Qed.

Lemma TopUpKeyPool_unlocked fuel b kenv penv kpSize w r :
  IsLocked w = false -> pool_ok w ->
  TopUpKeyPool fuel b kenv penv kpSize w = Returned r ->
  r.1 = true
  /\ pool_ok r.2
  /\ Z.of_nat (length (setExternalKeyPool r.2))
     = Z.max (Z.of_nat (length (setExternalKeyPool w))) (target_size penv kpSize)
  /\ Z.of_nat (length (setInternalKeyPool r.2))
     = (if hd_split w
        then Z.max (Z.of_nat (length (setInternalKeyPool w)))
                   (target_size penv kpSize)
        else Z.of_nat (length (setInternalKeyPool w)))
  /\ (forall int j, j ∈ pool_of int w -> j ∈ pool_of int r.2)
  /\ (forall int j, j ∈ pool_of int r.2 ->
        j ∈ pool_of int w \/ m_max_keypool_index w < j)
  /\ (forall j, j <= m_max_keypool_index w -> db_pool r.2 !! j = db_pool w !! j)
  /\ (forall int j, j ∈ pool_of int r.2 -> m_max_keypool_index w < j ->
        exists kp, db_pool r.2 !! j = Some kp /\ fInternal kp = int
                   /\ nTime kp = HD.GetTime kenv
                   /\ HD.HaveKey (keys r.2) (vchPubKey kp) = true).
Proof.
  intros Hlock Hok. unfold TopUpKeyPool. rewrite Hlock.
  set (mE := Z.max (target_size penv kpSize
                    - Z.of_nat (length (setExternalKeyPool w))) 0).
  set (mI := if negb (HD.IsHDEnabled (keys w))
                || negb (HD.CanSupportFeature (keys w) HD.FEATURE_HD_SPLIT)
             then 0
             else Z.max (target_size penv kpSize
                         - Z.of_nat (length (setInternalKeyPool w))) 0).
  assert (HmI : 0 <= mI) by (subst mI; destruct (_ || _); lia).
  destruct (topup_loop _ _ _ _ _ _ _ _) as [w'|] eqn:Hloop; [|done].
  intros [= <-]. simpl.
  apply topup_loop_spec in Hloop
    as (Hok' & _ & _ & Hext & Hint & Hnew & Hold & Hdb & _ & Hback); [|done|done].
  rewrite Z2Nat.id in Hext, Hint by lia.
  split; [done|]. split; [done|]. split; [subst mE; lia|].
  split; [|split; [done|split; [done|split; done]]].
  rewrite Hint. unfold hd_split. subst mI mE.
  rewrite <- negb_andb.
  destruct (HD.IsHDEnabled (keys w) && _); simpl; lia.
Qed.

(** [TopUpKeyPool] does nothing on a locked wallet and answers [false];
    only on an unlocked wallet can it throw.  On an unlocked wallet, when
    it returns it answers [true], and each pool it fills holds at least the
    target number of keys and at least one: the external pool always, the
    internal pool when the wallet splits its HD chain (otherwise the
    internal pool is left alone).  No pool key is dropped, every new index
    lies above all indices issued before, and the pools stay ordered and
    bounded by [m_max_keypool_index]; the database keeps its entries for
    the indices issued before, and holds for every new index an entry of
    the pool the index went to, stamped with the time of the call, whose
    key the wallet holds. *)
Theorem TopUpKeyPool_fills (fuel : nat) (b : HD.Bip32) (kenv : HD.KeyEnv)
    (penv : PoolEnv) (kpSize : Z) (w : MCWallet) :
  pool_ok w ->
  match TopUpKeyPool fuel b kenv penv kpSize w with
  | Aborted _ => IsLocked w = false
  | Returned r =>
      if IsLocked w then r = (false, w)
      else
        r.1 = true
        /\ pool_ok r.2
        /\ Z.of_nat (length (setExternalKeyPool r.2))
           = Z.max (Z.of_nat (length (setExternalKeyPool w)))
                   (target_size penv kpSize)
        /\ Z.of_nat (length (setInternalKeyPool r.2))
           = (if hd_split w
              then Z.max (Z.of_nat (length (setInternalKeyPool w)))
                         (target_size penv kpSize)
              else Z.of_nat (length (setInternalKeyPool w)))
        /\ (forall int j, j ∈ pool_of int w -> j ∈ pool_of int r.2)
        /\ (forall int j, j ∈ pool_of int r.2 ->
              j ∈ pool_of int w \/ m_max_keypool_index w < j)
        /\ (forall j, j <= m_max_keypool_index w ->
              db_pool r.2 !! j = db_pool w !! j)
        /\ (forall int j, j ∈ pool_of int r.2 -> m_max_keypool_index w < j ->
              exists kp, db_pool r.2 !! j = Some kp /\ fInternal kp = int
                         /\ nTime kp = HD.GetTime kenv
                         /\ HD.HaveKey (keys r.2) (vchPubKey kp) = true)
  end.
Proof.
  intros Hok. destruct (IsLocked w) eqn:Hlock.
  - by rewrite TopUpKeyPool_locked.
  - destruct (TopUpKeyPool fuel b kenv penv kpSize w) as [r|why] eqn:Hr; [|done].
    by apply TopUpKeyPool_unlocked in Hr.
Qed.

Lemma TopUpKeyPool_fills_witness :
  exists w', TopUpKeyPool 10 HD.toy_bip32 HD.toy_env plain_env 0 empty_pool_wallet
             = Returned (true, w')
             /\ length (setExternalKeyPool w') = 2%nat
             /\ length (setInternalKeyPool w') = 2%nat.
Proof.
  assert (Hok : pool_ok empty_pool_wallet).
  { split; [exact I|]. split; [exact I|]. intros int j Hj.
    destruct int; by apply elem_of_nil in Hj. }
  pose proof (TopUpKeyPool_fills 10 HD.toy_bip32 HD.toy_env plain_env 0
                empty_pool_wallet Hok) as H.
  clear Hok.
  destruct (TopUpKeyPool 10 HD.toy_bip32 HD.toy_env plain_env 0 empty_pool_wallet)
    as [[b' w']|] eqn:Hr; [|vm_compute in Hr; discriminate].
  clear Hr.
  change (IsLocked empty_pool_wallet) with false in H. cbv iota in H.
  change (target_size plain_env 0) with 2 in H.
  change (hd_split empty_pool_wallet) with true in H.
  change (setExternalKeyPool empty_pool_wallet) with (@nil Z) in H.
  change (setInternalKeyPool empty_pool_wallet) with (@nil Z) in H.
  destruct H as (Hb & _ & He & Hi & _). cbn [fst snd length] in *.
  subst b'. exists w'. split; [reflexivity|]. lia.
Defined.

(** ** Reserving, keeping and returning a key *)

Lemma increasing_head (x : Z) (l : list Z) :
  increasing (x :: l) -> (forall j, j ∈ l -> x < j) /\ x ∉ l.
Proof.
  intros [Hx _]. split; [done|]. intros Hin. specialize (Hx x Hin). lia.
Qed.

Lemma pool_ok_increasing (internal : bool) (w : MCWallet) :
  pool_ok w -> increasing (pool_of internal w).
Proof. intros (Hi & He & _). by destruct internal. Qed.

(** Under [pool_backed] no index lies in both pools. *)
Lemma pool_backed_disjoint (w : MCWallet) (internal : bool) (j : Z) :
  pool_backed w -> j ∈ pool_of internal w -> j ∉ pool_of (negb internal) w.
Proof.
  intros Hb Hj Hj'.
  destruct (Hb _ _ Hj) as (kp & Hdb & Hint & _).
  destruct (Hb _ _ Hj') as (kp' & Hdb' & Hint' & _).
  rewrite Hdb in Hdb'. injection Hdb' as <-. rewrite Hint in Hint'.
  by destruct internal.
Qed.

(** What [ReserveKeyFromKeyPool] does on a locked wallet. *)
Lemma reserve_locked_empty fuel b kenv penv keypool fRequestedInternal w :
  IsLocked w = true ->
  pool_of (hd_split w && fRequestedInternal) w = [] ->
  ReserveKeyFromKeyPool fuel b kenv penv keypool fRequestedInternal w
  = Returned (-1, {| nTime := nTime keypool; vchPubKey := 0;
                     fInternal := fInternal keypool |}, w).
Proof.
  intros Hlock Hpool. unfold ReserveKeyFromKeyPool. rewrite Hlock. cbn [negb].
  cbv iota. by rewrite Hpool.
Qed.

Lemma reserve_locked_some fuel b kenv penv keypool fRequestedInternal w
    nIndex rest kp :
  IsLocked w = true ->
  pool_of (hd_split w && fRequestedInternal) w = nIndex :: rest ->
  db_pool w !! nIndex = Some kp ->
  fInternal kp = hd_split w && fRequestedInternal ->
  vchPubKey kp <> 0 ->
  HD.HaveKey (keys w) (vchPubKey kp) = true ->
  ReserveKeyFromKeyPool fuel b kenv penv keypool fRequestedInternal w
  = Returned (nIndex, kp,
      {| keys := keys w; vMasterKey_empty := vMasterKey_empty w;
         setInternalKeyPool :=
           if hd_split w && fRequestedInternal then rest else setInternalKeyPool w;
         setExternalKeyPool :=
           if hd_split w && fRequestedInternal then setExternalKeyPool w else rest;
         m_max_keypool_index := m_max_keypool_index w;
         m_pool_key_to_index := delete (vchPubKey kp) (m_pool_key_to_index w);
         db_pool := db_pool w |}).
Proof.
  intros Hlock Hpool Hdb Hint Hvalid Hhave.
  unfold ReserveKeyFromKeyPool. rewrite Hlock. cbn [negb]. cbv iota.
  rewrite Hpool. cbn [db_pool keys with_pool].
  rewrite Hdb, Hhave, Hint. cbn [negb]. cbv iota.
  rewrite eqb_reflx. cbn [negb]. cbv iota.
  replace (vchPubKey kp =? 0) with false by (symmetry; by apply Z.eqb_neq).
  done.
Qed.

(** On a locked wallet whose pools are backed by the database,
    [ReserveKeyFromKeyPool] does not throw: it reports -1 when the pool it
    draws from is empty, and otherwise hands out the least index of that
    pool with its database entry and takes the index out of the pool in
    memory, leaving the other pool and the database alone.  [ReturnKey]
    called with what was handed out puts the wallet back exactly as it
    was. *)
Theorem ReserveKeyFromKeyPool_locked (fuel : nat) (b : HD.Bip32)
    (kenv : HD.KeyEnv) (penv : PoolEnv) (keypool : MCKeyPool)
    (fRequestedInternal : bool) (w : MCWallet) :
  IsLocked w = true -> pool_ok w -> pool_backed w ->
  let internal := hd_split w && fRequestedInternal in
  match pool_of internal w with
  | [] =>
      ReserveKeyFromKeyPool fuel b kenv penv keypool fRequestedInternal w
      = Returned (-1, {| nTime := nTime keypool; vchPubKey := 0;
                         fInternal := fInternal keypool |}, w)
  | nIndex :: rest =>
      exists kp w',
        ReserveKeyFromKeyPool fuel b kenv penv keypool fRequestedInternal w
        = Returned (nIndex, kp, w')
        /\ db_pool w !! nIndex = Some kp
        /\ pool_of internal w' = rest
        /\ pool_of (negb internal) w' = pool_of (negb internal) w
        /\ db_pool w' = db_pool w
        /\ (forall j, j ∈ rest -> nIndex < j)
        /\ ReturnKey nIndex (fInternal kp) (vchPubKey kp) w' = w
  end.
Proof.
  intros Hlock Hok Hback internal.
  pose proof (pool_ok_increasing internal w Hok) as Hinc.
  specialize (Hback internal).
  destruct (pool_of internal w) as [|nIndex rest] eqn:Hpool;
    [by apply reserve_locked_empty|].
  destruct (Hback nIndex) as (kp & Hdb & Hint & Hvalid & Hhave & Hkti); [left|].
  apply increasing_head in Hinc as [Hleast Hnotin].
  eexists kp, _. split; [by apply reserve_locked_some|]. fold internal.
  split; [done|].
  split; [by destruct internal|]. split; [by destruct internal|].
  split; [done|]. split; [done|].
  unfold ReturnKey. simpl. rewrite insert_delete_id by done.
  destruct w as [ks lk si se mx kti db]. unfold pool_of in Hpool. simpl in *.
  rewrite Hint. clearbody internal.
  destruct internal; simpl in *; subst; f_equal; by apply set_insert_least.
Qed.

Lemma locked_pool_wallet_ok : pool_ok locked_pool_wallet.
Proof.
  split; [|split].
  - split; [|exact I]. intros y Hy. by apply elem_of_nil in Hy.
  - split; [|split; [|exact I]].
    + intros y Hy. apply list_elem_of_singleton in Hy. subst y. lia.
    + intros y Hy. by apply elem_of_nil in Hy.
  - intros [] j Hj; cbn in Hj;
      repeat (apply elem_of_cons in Hj as [->|Hj]; [cbn; lia|]);
      by apply elem_of_nil in Hj.
Defined.

Lemma locked_pool_wallet_backed : pool_backed locked_pool_wallet.
Proof.
  intros [] j Hj; cbn in Hj;
    repeat (apply elem_of_cons in Hj as [->|Hj];
            [eexists; split; [reflexivity|]; split; [reflexivity|];
             split; [discriminate|]; split; reflexivity|]);
    by apply elem_of_nil in Hj.
Defined.

Lemma ReserveKeyFromKeyPool_locked_witness :
  exists w',
    ReserveKeyFromKeyPool 10 HD.toy_bip32 HD.toy_env plain_env
      {| nTime := 0; vchPubKey := 0; fInternal := false |} false locked_pool_wallet
    = Returned (3, {| nTime := 10; vchPubKey := 103; fInternal := false |}, w')
    /\ setExternalKeyPool w' = [5]
    /\ ReturnKey 3 false 103 w' = locked_pool_wallet.
Proof.
  assert (Hl : IsLocked locked_pool_wallet = true) by reflexivity.
  pose proof (ReserveKeyFromKeyPool_locked 10 HD.toy_bip32 HD.toy_env plain_env
                {| nTime := 0; vchPubKey := 0; fInternal := false |} false
                locked_pool_wallet Hl locked_pool_wallet_ok
                locked_pool_wallet_backed) as H.
  clear Hl. cbv zeta in H.
  change (pool_of (hd_split locked_pool_wallet && false) locked_pool_wallet)
    with [3; 5] in H.
  cbv iota in H.
  destruct H as (kp & w' & Hr & Hdb & Hrest & _ & _ & _ & Hback).
  change (db_pool locked_pool_wallet !! 3)
    with (Some {| nTime := 10; vchPubKey := 103; fInternal := false |}) in Hdb.
  injection Hdb as <-. exists w'.
  change (hd_split locked_pool_wallet && false) with false in Hrest.
  split; [exact Hr|]. split; [exact Hrest|exact Hback].
Defined.

(** On a locked wallet whose pools are backed by the database,
    [GetKeyFromPool] answers [false] and changes nothing when the pool it
    draws from is empty.  Otherwise it answers [true] with the key of the
    least index of that pool, and the index is gone for good: from the pool,
    and its entry from the database; the wallet's pools stay ordered and
    backed. *)
Theorem GetKeyFromPool_locked (fuel : nat) (b : HD.Bip32) (kenv : HD.KeyEnv)
    (penv : PoolEnv) (fRequestedInternal : bool) (w : MCWallet) :
  IsLocked w = true -> pool_ok w -> pool_backed w ->
  (forall int j, j ∈ pool_of int w -> j <> -1) ->
  let internal := hd_split w && fRequestedInternal in
  match pool_of internal w with
  | [] =>
      GetKeyFromPool fuel b kenv penv fRequestedInternal w
      = Returned (false, None, w)
  | nIndex :: rest =>
      exists kp w',
        GetKeyFromPool fuel b kenv penv fRequestedInternal w
        = Returned (true, Some (vchPubKey kp), w')
        /\ db_pool w !! nIndex = Some kp
        /\ pool_of internal w' = rest
        /\ pool_of (negb internal) w' = pool_of (negb internal) w
        /\ db_pool w' = delete nIndex (db_pool w)
        /\ m_pool_key_to_index w' !! vchPubKey kp = None
        /\ keys w' = keys w
        /\ pool_ok w' /\ pool_backed w'
  end.
Proof.
  intros Hlock Hok Hback Hne internal.
  pose proof (pool_ok_increasing internal w Hok) as Hinc.
  unfold GetKeyFromPool.
  destruct (pool_of internal w) as [|nIndex rest] eqn:Hpool.
  { rewrite reserve_locked_empty by done. cbn [Z.eqb]. by rewrite Hlock. }
  destruct (Hback internal nIndex) as (kp & Hdb & Hint & Hvalid & Hhave & Hkti).
  { rewrite Hpool. left. }
  apply increasing_head in Hinc as [Hleast Hnotin].
  rewrite (reserve_locked_some _ _ _ _ _ _ _ nIndex rest kp) by done.
  fold internal.
  assert (Hn1 : (nIndex =? -1) = false).
  { apply Z.eqb_neq, (Hne internal). rewrite Hpool. left. }
  rewrite Hn1. clearbody internal.
  eexists kp, _. split; [reflexivity|]. split; [done|].
  split; [by destruct internal|]. split; [by destruct internal|].
  split; [done|]. split; [apply lookup_delete_eq|]. split; [done|].
  assert (Hsub : forall int j,
            j ∈ pool_of int
                  (KeepKey nIndex
                     {| keys := keys w; vMasterKey_empty := vMasterKey_empty w;
                        setInternalKeyPool :=
                          if internal then rest else setInternalKeyPool w;
                        setExternalKeyPool :=
                          if internal then setExternalKeyPool w else rest;
                        m_max_keypool_index := m_max_keypool_index w;
                        m_pool_key_to_index :=
                          delete (vchPubKey kp) (m_pool_key_to_index w);
                        db_pool := db_pool w |}) ->
            j ∈ pool_of int w /\ j <> nIndex).
  { intros int j. unfold pool_of, KeepKey. simpl. unfold pool_of in Hpool.
    intros Hj.
    assert (Hother : nIndex ∉ pool_of (negb internal) w).
    { apply (pool_backed_disjoint w internal); [done|]. unfold pool_of. rewrite Hpool. left. }
    unfold pool_of in Hother.
    destruct int, internal; simpl in *; rewrite ?Hpool;
      try (split; [by right|intros ->; done]);
      (split; [done|intros ->; done]). }
  split.
  - destruct Hok as (Hi & He & Hbound). unfold pool_ok. simpl.
    unfold pool_of in Hpool.
    split; [destruct internal; [rewrite Hpool in Hi; apply Hi|done]|].
    split; [destruct internal; [done|rewrite Hpool in He; apply He]|].
    intros int j Hj. apply Hsub in Hj as [Hj _]. by apply (Hbound int).
  - intros int j Hj. apply Hsub in Hj as [Hj Hjne].
    destruct (Hback int j Hj) as (kp' & Hdb' & Hint' & Hvalid' & Hhave' & Hkti').
    exists kp'. simpl. rewrite lookup_delete_ne by done.
    split; [done|]. split; [done|]. split; [done|]. split; [done|].
    rewrite lookup_delete_ne; [done|]. intros Heq. rewrite Heq in Hkti.
    rewrite Hkti in Hkti'. by injection Hkti'.
Qed.

Lemma GetKeyFromPool_locked_witness :
  exists w',
    GetKeyFromPool 10 HD.toy_bip32 HD.toy_env plain_env false locked_pool_wallet
    = Returned (true, Some 103, w')
    /\ setExternalKeyPool w' = [5]
    /\ db_pool w' !! 3 = None.
Proof.
  assert (Hl : IsLocked locked_pool_wallet = true) by reflexivity.
  assert (Hne : forall int j, j ∈ pool_of int locked_pool_wallet -> j <> -1).
  { intros [] j Hj; cbn in Hj;
      repeat (apply elem_of_cons in Hj as [->|Hj]; [discriminate|]);
      by apply elem_of_nil in Hj. }
  pose proof (GetKeyFromPool_locked 10 HD.toy_bip32 HD.toy_env plain_env false
                locked_pool_wallet Hl locked_pool_wallet_ok
                locked_pool_wallet_backed Hne) as H.
  clear Hl Hne. cbv zeta in H.
  change (pool_of (hd_split locked_pool_wallet && false) locked_pool_wallet)
    with [3; 5] in H.
  cbv iota in H.
  destruct H as (kp & w' & Hr & Hdb & Hrest & _ & Hdb' & _).
  change (db_pool locked_pool_wallet !! 3)
    with (Some {| nTime := 10; vchPubKey := 103; fInternal := false |}) in Hdb.
  injection Hdb as <-. exists w'.
  change (hd_split locked_pool_wallet && false) with false in Hrest.
  split; [exact Hr|]. split; [exact Hrest|].
  rewrite Hdb'. apply lookup_delete_eq.
Defined.

(** ** Marking pool keys as used *)

Lemma mark_used_spec (keypool_id : Z) (pool : list Z) (kti : gmap Z Z)
    (db : gmap Z MCKeyPool) pool' kti' db' :
  increasing pool ->
  mark_used keypool_id pool kti db = (pool', kti', db') ->
  pool' = filter (fun j => keypool_id < j) pool
  /\ (forall j, db' !! j
        = if bool_decide (j ∈ pool /\ j <= keypool_id) then None else db !! j)
  /\ (forall j kp, j ∈ pool -> j <= keypool_id -> db !! j = Some kp ->
        kti' !! vchPubKey kp = None)
  /\ (forall k, kti' !! k = None \/ kti' !! k = kti !! k)
  /\ (forall k,
        (forall j kp, j ∈ pool -> j <= keypool_id -> db !! j = Some kp ->
           vchPubKey kp <> k) ->
        kti' !! k = kti !! k).
Proof.
  revert kti db. induction pool as [|index rest IH]; intros kti db Hinc.
  { simpl. intros [= <- <- <-]. split; [done|]. split.
    - done.
    - split; [intros j kp H; by apply elem_of_nil in H|]. split; [by right|done]. }
  destruct Hinc as [Hhead Hinc]. cbn [mark_used].
  destruct (Z.gtb_spec index keypool_id) as [Hgt|Hle].
  { intros [= <- <- <-].
    assert (Hall : forall j, j ∈ index :: rest -> keypool_id < j).
    { intros j Hj. apply elem_of_cons in Hj as [->|Hj]; [lia|].
      specialize (Hhead j Hj). lia. }
    split; [symmetry; by apply filter_all|]. split.
    - intros j. rewrite bool_decide_eq_false_2; [done|]. intros [H ?].
      apply Hall in H. lia.
    - split; [intros j kp H ?; apply Hall in H; lia|]. split; [by right|done]. }
  intros Hm. apply IH in Hm as (Hp & Hdb & Hgone & Hsub & Hkeep); [|done]. clear IH.
  assert (Hrest : forall j, j ∈ rest -> j <> index).
  { intros j Hj. specialize (Hhead j Hj). lia. }
  split; [|split; [|split; [|split]]].
  - rewrite filter_cons_False by lia. done.
  - intros j. rewrite Hdb.
    destruct (decide (j = index)) as [->|Hne].
    + rewrite lookup_delete_eq.
      rewrite (bool_decide_eq_true_2 (index ∈ index :: rest /\ _)) by (split; [left|lia]).
      by destruct (bool_decide _).
    + rewrite lookup_delete_ne by done.
      case_bool_decide as H1; case_bool_decide as H2; try done.
      * exfalso. apply H2. destruct H1. split; [by right|done].
      * exfalso. apply H1. destruct H2 as [H2 ?].
        apply elem_of_cons in H2 as [?|?]; done.
  - intros j kp Hj Hjle Hjdb. apply elem_of_cons in Hj as [->|Hj].
    + destruct (Hsub (vchPubKey kp)) as [H|H]; [done|].
      rewrite Hjdb, lookup_delete_eq in H. done.
    + apply (Hgone j); [done|done|]. rewrite lookup_delete_ne; [done|].
      intros <-. by apply (Hrest index).
  - intros k. destruct (Hsub k) as [H|H]; [by left|]. rewrite H.
    destruct (db !! index) as [kp|]; [|by right].
    destruct (decide (vchPubKey kp = k)) as [<-|Hne].
    + left. apply lookup_delete_eq.
    + right. by apply lookup_delete_ne.
  - intros k Hk. rewrite Hkeep.
    + destruct (db !! index) as [kp|] eqn:Hi; [|done].
      apply lookup_delete_ne. apply (Hk index); [left|lia|done].
    + intros j kp Hj Hjle Hjdb. apply (Hk j); [by right|done|].
      rewrite lookup_delete_ne in Hjdb; [done|].
      intros <-. by apply (Hrest index).
Qed.

Lemma mark_used_wallet (keypool_id : Z) (internal : bool) (w : MCWallet)
    pool kti db :
  pool_ok w -> pool_backed w ->
  mark_used keypool_id (pool_of internal w) (m_pool_key_to_index w) (db_pool w)
  = (pool, kti, db) ->
  let w' := {| keys := keys w; vMasterKey_empty := vMasterKey_empty w;
               setInternalKeyPool := if internal then pool else setInternalKeyPool w;
               setExternalKeyPool := if internal then setExternalKeyPool w else pool;
               m_max_keypool_index := m_max_keypool_index w;
               m_pool_key_to_index := kti;
               db_pool := db |} in
  pool_of internal w' = filter (fun j => keypool_id < j) (pool_of internal w)
  /\ pool_of (negb internal) w' = pool_of (negb internal) w
  /\ (forall j, db_pool w' !! j
        = if bool_decide (j ∈ pool_of internal w /\ j <= keypool_id)
          then None else db_pool w !! j)
  /\ (forall j kp, j ∈ pool_of internal w -> j <= keypool_id ->
        db_pool w !! j = Some kp ->
        m_pool_key_to_index w' !! vchPubKey kp = None)
  /\ pool_ok w' /\ pool_backed w'.
Proof.
  intros Hok Hback Hm w'.
  pose proof (pool_ok_increasing internal w Hok) as Hinc.
  apply mark_used_spec in Hm as (Hp & Hdb & Hgone & Hsub & Hkeep); [|done].
  assert (Hsame : pool_of internal w' = pool) by (by destruct internal).
  assert (Hother : pool_of (negb internal) w' = pool_of (negb internal) w)
    by (by destruct internal).
  assert (Hin : forall int j, j ∈ pool_of int w' ->
            j ∈ pool_of int w
            /\ ~ (j ∈ pool_of internal w /\ j <= keypool_id)).
  { intros int j Hj. destruct (decide (int = internal)) as [->|Hne].
    - rewrite Hsame, Hp in Hj. apply list_elem_of_filter in Hj as [Hgt Hj].
      split; [done|]. intros [_ ?]. lia.
    - assert (int = negb internal) as -> by (by destruct int, internal).
      rewrite Hother in Hj. split; [done|]. intros [Hj' _].
      by apply (pool_backed_disjoint w internal j). }
  split; [by rewrite Hsame|]. split; [done|]. split; [done|]. split; [done|].
  split.
  - destruct Hok as (Hi & He & Hbound).
    assert (Hf : increasing pool).
    { rewrite Hp. clear -Hinc. induction (pool_of internal w) as [|x l IH]; [done|].
      destruct Hinc as [Hx Hl].
      destruct (decide (keypool_id < x)).
      - rewrite filter_cons_True by done. split; [|by apply IH].
        intros y Hy. apply list_elem_of_filter in Hy as [_ Hy]. by apply Hx.
      - rewrite filter_cons_False by done. by apply IH. }
    split; [destruct internal; done|]. split; [destruct internal; done|].
    intros int j Hj. apply Hin in Hj as [Hj _]. by apply (Hbound int).
  - intros int j Hj. apply Hin in Hj as [Hj Hkept].
    destruct (Hback int j Hj) as (kp & Hjdb & Hint & Hvalid & Hhave & Hkti).
    exists kp. cbn [db_pool keys m_pool_key_to_index w'].
    rewrite Hdb, bool_decide_eq_false_2 by done.
    split; [done|]. split; [done|]. split; [done|]. split; [done|].
    rewrite Hkeep; [done|]. intros j0 kp0 Hj0 Hle0 Hdb0 Heq.
    destruct (Hback internal j0 Hj0) as (kp1 & Hdb1 & _ & _ & _ & Hkti1).
    rewrite Hdb0 in Hdb1. injection Hdb1 as <-.
    rewrite Heq, Hkti in Hkti1. injection Hkti1 as ->. by apply Hkept.
Qed.

(** [MarkReserveKeysAsUsed] fails its assertion exactly when [keypool_id]
    lies in neither pool.  Otherwise, on a wallet whose pools are ordered and
    backed by the database, it leaves in the pool of [keypool_id] exactly
    the indices above [keypool_id], leaves the other pool alone, erases from
    the database exactly the entries of the indices it drops, and forgets
    their keys; the pools stay ordered and backed. *)
Theorem MarkReserveKeysAsUsed_erases (keypool_id : Z) (w : MCWallet) :
  pool_ok w -> pool_backed w ->
  let internal := bool_decide (keypool_id ∈ setInternalKeyPool w) in
  match MarkReserveKeysAsUsed keypool_id w with
  | Aborted _ => forall int, keypool_id ∉ pool_of int w
  | Returned w' =>
      keypool_id ∈ pool_of internal w
      /\ pool_of internal w' = filter (fun j => keypool_id < j) (pool_of internal w)
      /\ pool_of (negb internal) w' = pool_of (negb internal) w
      /\ (forall j, db_pool w' !! j
            = if bool_decide (j ∈ pool_of internal w /\ j <= keypool_id)
              then None else db_pool w !! j)
      /\ (forall j kp, j ∈ pool_of internal w -> j <= keypool_id ->
            db_pool w !! j = Some kp ->
            m_pool_key_to_index w' !! vchPubKey kp = None)
      /\ pool_ok w' /\ pool_backed w'
  end.
Proof.
  intros Hok Hback internal. unfold MarkReserveKeysAsUsed. fold internal.
  assert (Hint : if internal then keypool_id ∈ setInternalKeyPool w
                 else keypool_id ∉ setInternalKeyPool w).
  { subst internal. by destruct (bool_decide_reflect (keypool_id ∈ setInternalKeyPool w)). }
  clearbody internal.
  destruct internal; cbn [negb andb].
  - destruct (mark_used keypool_id _ _ _) as [[pool kti] db] eqn:Hm.
    split; [done|].
    exact (mark_used_wallet keypool_id true w pool kti db Hok Hback Hm).
  - destruct (bool_decide_reflect (keypool_id ∈ setExternalKeyPool w)) as [Hext|Hext];
      cbn [negb]; [|by intros []].
    destruct (mark_used keypool_id _ _ _) as [[pool kti] db] eqn:Hm.
    split; [done|].
    exact (mark_used_wallet keypool_id false w pool kti db Hok Hback Hm).
Qed.

Lemma MarkReserveKeysAsUsed_erases_witness :
  exists w', MarkReserveKeysAsUsed 3 locked_pool_wallet = Returned w'
             /\ setExternalKeyPool w' = [5] /\ setInternalKeyPool w' = [4]
             /\ db_pool w' !! 3 = None.
Proof.
  pose proof (MarkReserveKeysAsUsed_erases 3 locked_pool_wallet
                locked_pool_wallet_ok locked_pool_wallet_backed) as H.
  cbv zeta in H.
  destruct (MarkReserveKeysAsUsed 3 locked_pool_wallet) as [w'|why] eqn:Hr.
  - exists w'. split; [reflexivity|].
    change (bool_decide (3 ∈ setInternalKeyPool locked_pool_wallet)) with false in H.
    destruct H as (_ & Hp & Ho & Hdb & _). split; [exact Hp|]. split; [exact Ho|].
    rewrite Hdb. reflexivity.
  - exfalso. apply (H false). cbn. left.
Defined.

(** ** A new key pool *)

Lemma cleared_pool_ok (w : MCWallet) db :
  pool_ok {| keys := keys w; vMasterKey_empty := vMasterKey_empty w;
             setInternalKeyPool := []; setExternalKeyPool := [];
             m_max_keypool_index := m_max_keypool_index w;
             m_pool_key_to_index := ∅; db_pool := db |}.
Proof.
  split; [done|]. split; [done|]. intros int j Hj.
  destruct int; by apply elem_of_nil in Hj.
Qed.

(** [NewKeyPool] can throw only on an unlocked wallet.  When it returns, no
    entry of the old pools is left in the database, every index of the new
    pools lies above all indices issued before, and the pools are ordered.
    On a locked wallet it answers [false] all the same, and the wallet is
    left with no pool at all; on an unlocked wallet it answers [true] and
    the pools hold exactly the target number of keys (the internal pool
    none, if the wallet does not split its HD chain), each with its entry
    in the database. *)
Theorem NewKeyPool_rewrites (fuel : nat) (b : HD.Bip32) (kenv : HD.KeyEnv)
    (penv : PoolEnv) (w : MCWallet) :
  pool_ok w ->
  match NewKeyPool fuel b kenv penv w with
  | Aborted _ => IsLocked w = false
  | Returned r =>
      (forall int j, j ∈ pool_of int w -> db_pool r.2 !! j = None)
      /\ (forall int j, j ∈ pool_of int r.2 -> m_max_keypool_index w < j)
      /\ pool_ok r.2
      /\ if IsLocked w
         then r.1 = false
              /\ setExternalKeyPool r.2 = [] /\ setInternalKeyPool r.2 = []
              /\ m_pool_key_to_index r.2 = ∅ /\ keys r.2 = keys w
         else r.1 = true
              /\ Z.of_nat (length (setExternalKeyPool r.2)) = target_size penv 0
              /\ Z.of_nat (length (setInternalKeyPool r.2))
                 = (if hd_split w then target_size penv 0 else 0)
              /\ (forall int j, j ∈ pool_of int r.2 ->
                    exists kp, db_pool r.2 !! j = Some kp /\ fInternal kp = int
                               /\ nTime kp = HD.GetTime kenv
                               /\ HD.HaveKey (keys r.2) (vchPubKey kp) = true)
  end.
Proof.
  intros Hok. unfold NewKeyPool.
  set (db2 := foldl _ (foldl _ _ _) _).
  set (w0 := {| keys := keys w; db_pool := db2 |}).
  assert (Hdb2 : forall int j, j ∈ pool_of int w -> db2 !! j = None).
  { intros int j Hj. subst db2. rewrite !erase_all_lookup.
    unfold pool_of in Hj. destruct int.
    - destruct (bool_decide (j ∈ setExternalKeyPool w)); [done|].
      by rewrite bool_decide_eq_true_2.
    - by rewrite bool_decide_eq_true_2. }
  assert (Hok0 : pool_ok w0) by apply cleared_pool_ok.
  assert (Htarget : 1 <= target_size penv 0) by (unfold target_size; lia).
  change (IsLocked w) with (IsLocked w0). change (hd_split w) with (hd_split w0).
  destruct (IsLocked w0) eqn:Hlock.
  - rewrite TopUpKeyPool_locked by done. simpl.
    split; [done|]. split; [intros int j Hj; destruct int; by apply elem_of_nil in Hj|].
    done.
  - destruct (TopUpKeyPool fuel b kenv penv 0 w0) as [r|why] eqn:Hr; [|done].
    apply TopUpKeyPool_unlocked in Hr as (H1 & H2 & H3 & H4 & H5 & H6 & H7 & H8);
      [|done|done].
    split.
    { intros int j Hj. rewrite H7; [by apply (Hdb2 int)|].
      destruct Hok as (_ & _ & Hbound). by apply (Hbound int). }
    assert (Hnew : forall int j, j ∈ pool_of int r.2 -> m_max_keypool_index w < j).
    { intros int j Hj. destruct (H6 int j Hj) as [Hj'|Hj']; [|done].
      destruct int; by apply elem_of_nil in Hj'. }
    split; [done|]. split; [done|]. split; [done|]. simpl in H3, H4.
    split; [lia|]. split; [rewrite H4; destruct (hd_split w0); lia|].
    intros int j Hj. apply H8; [done|]. by apply (Hnew int).
Qed.

Lemma NewKeyPool_rewrites_witness :
  exists w',
    NewKeyPool 10 HD.toy_bip32 HD.toy_env plain_env locked_pool_wallet
    = Returned (false, w')
    /\ setExternalKeyPool w' = [] /\ setInternalKeyPool w' = []
    /\ db_pool w' !! 5 = None.
Proof.
  pose proof (NewKeyPool_rewrites 10 HD.toy_bip32 HD.toy_env plain_env
                locked_pool_wallet locked_pool_wallet_ok) as H.
  destruct (NewKeyPool 10 HD.toy_bip32 HD.toy_env plain_env locked_pool_wallet)
    as [[b' w']|]; [|discriminate H].
  change (IsLocked locked_pool_wallet) with true in H. cbv iota in H.
  destruct H as (Hdb & _ & _ & Hb & He & Hi & _). cbn [fst snd] in *. subst b'.
  exists w'. split; [reflexivity|]. split; [exact He|]. split; [exact Hi|].
  apply (Hdb false). cbn. right. left.
Defined.

(** ** Loading the pool *)

Lemma set_insert_idempotent (h : Z) (l : list Z) :
  set_insert h (set_insert h l) = set_insert h l.
Proof.
  unfold set_insert. induction l as [|x l IH]; simpl.
  - by rewrite Z.ltb_irrefl, Z.eqb_refl.
  - destruct (h <? x) eqn:Hlt; simpl.
    + by rewrite Z.ltb_irrefl, Z.eqb_refl.
    + destruct (h =? x) eqn:Heq; simpl; rewrite Hlt, Heq; [done|]. by rewrite IH.
Qed.

(** [LoadKeyPool] puts the index into the pool the entry names, and loading
    an entry a second time changes nothing; the pools stay ordered and
    bounded, and the metadata a key already has is kept. *)
Theorem LoadKeyPool_loads (nIndex : Z) (keypool : MCKeyPool) (w : MCWallet) :
  let w' := LoadKeyPool nIndex keypool w in
  LoadKeyPool nIndex keypool w' = w'
  /\ nIndex ∈ pool_of (fInternal keypool) w'
  /\ pool_of (negb (fInternal keypool)) w' = pool_of (negb (fInternal keypool)) w
  /\ m_pool_key_to_index w' !! vchPubKey keypool = Some nIndex
  /\ (forall k md, HD.mapKeyMetadata (keys w) !! k = Some md ->
        HD.mapKeyMetadata (keys w') !! k = Some md)
  /\ is_Some (HD.mapKeyMetadata (keys w') !! vchPubKey keypool)
  /\ (pool_ok w -> pool_ok w').
Proof.
  intros w'. subst w'. split; [|split; [|split; [|split; [|split; [|split]]]]].
  - unfold LoadKeyPool. cbn.
    rewrite <- Z.max_assoc, Z.max_id, insert_insert_eq.
    destruct (HD.mapKeyMetadata (keys w) !! vchPubKey keypool) as [md|] eqn:Hmd.
    + rewrite Hmd. destruct (fInternal keypool);
        by rewrite set_insert_idempotent.
    + rewrite lookup_insert_eq. destruct (fInternal keypool);
        by rewrite set_insert_idempotent.
  - unfold LoadKeyPool, pool_of. cbn.
    destruct (fInternal keypool); apply todo_insert_elem; by left.
  - unfold LoadKeyPool, pool_of. cbn. by destruct (fInternal keypool).
  - unfold LoadKeyPool. cbn. apply lookup_insert_eq.
  - intros k md Hk. unfold LoadKeyPool. cbn [keys HD.mapKeyMetadata].
    destruct (HD.mapKeyMetadata (keys w) !! vchPubKey keypool) eqn:Hmd; [done|].
    rewrite lookup_insert_ne; [done|]. intros Heq. subst k.
    discriminate (eq_trans (eq_sym Hk) Hmd).
  - unfold LoadKeyPool. cbn [keys HD.mapKeyMetadata].
    destruct (HD.mapKeyMetadata (keys w) !! vchPubKey keypool) eqn:Hmd.
    + rewrite Hmd. by eexists.
    + rewrite lookup_insert_eq. by eexists.
  - intros (Hi & He & Hbound). unfold LoadKeyPool, pool_ok, pool_of. cbn.
    split; [destruct (fInternal keypool); [by apply todo_insert_increasing|done]|].
    split; [destruct (fInternal keypool); [done|by apply todo_insert_increasing]|].
    intros int j Hj.
    assert (j = nIndex \/ j ∈ pool_of int w) as [->|Hold]; [|lia|].
    { unfold pool_of. destruct int, (fInternal keypool); try (by right);
        apply todo_insert_elem in Hj; tauto. }
    specialize (Hbound int j Hold). lia.
Qed.

End KeyPoolFacts.
